(** * openandclose: the two report-generation scripts

    A shallow embedding of [generate_report.py] (script 1) and of
    [新开户尽职调查表网页版.py] (script 2), and the properties of the
    template / photo pipeline that the specification states about them.

    Conventions of the embedding.
    - A Python [str] is the list of its Unicode code points ([list N]).
      String constants of the scripts are written as UTF-8 literals and
      decoded by [u].
    - [os.path] is [posixpath] (script 2 shells out to [sips] and [open]).
    - Exceptions are values of [exn] carried by the [result] monad.
    - The file system is a finite map from paths to what is stored there.
      Paths are compared as they are written, every path in one spelling;
      permissions and the limits of the system are outside the model.
    - python-docx documents are trees of blocks (paragraphs and tables);
      a paragraph is its list of runs. *)

From Stdlib Require Import ZArith QArith Qround Qminmax Lqa Lia List Ascii String.
From Stdlib Require Import DecimalString DecimalNat.
From stdpp Require Import base option list gmap sorting.
Import ListNotations.
#[local] Open Scope Z_scope.
#[local] Open Scope list_scope.
#[local] Set Warnings "-register-all".

(* ===================================================================== *)
(** * Python strings                                                      *)
(* ===================================================================== *)

Definition char := N.
Definition str := list char.

(** Decoding of a UTF-8 byte sequence into code points; only used to write
    the string constants of the scripts legibly. *)
Fixpoint utf8_decode (bs : list N) : str :=
  match bs with
  | [] => []
  | b0 :: r0 =>
    if (b0 <? 128)%N then b0 :: utf8_decode r0
    else if (b0 <? 224)%N then
      match r0 with
      | b1 :: r1 => ((b0 - 192) * 64 + (b1 - 128))%N :: utf8_decode r1
      | [] => []
      end
    else if (b0 <? 240)%N then
      match r0 with
      | b1 :: b2 :: r2 =>
          ((b0 - 224) * 4096 + (b1 - 128) * 64 + (b2 - 128))%N :: utf8_decode r2
      | _ => []
      end
    else
      match r0 with
      | b1 :: b2 :: b3 :: r3 =>
          ((b0 - 240) * 262144 + (b1 - 128) * 4096 + (b2 - 128) * 64 + (b3 - 128))%N
            :: utf8_decode r3
      | _ => []
      end
  end.

Definition u (s : string) : str :=
  utf8_decode (List.map N_of_ascii (list_ascii_of_string s)).

Definition ch (a : ascii) : char := N_of_ascii a.

(** [Py_UNICODE_ISSPACE]: the characters that [str.strip()] removes and that
    [\s] matches in a [str] pattern. *)
Definition is_space (c : char) : bool :=
  ((9 <=? c) && (c <=? 13) || (28 <=? c) && (c <=? 32) || (c =? 133) || (c =? 160)
   || (c =? 5760) || (8192 <=? c) && (c <=? 8202) || (c =? 8232) || (c =? 8233)
   || (c =? 8239) || (c =? 8287) || (c =? 12288))%N.

Definition str_eqb (a b : str) : bool := bool_decide (a = b).

(** [s.lstrip()], [s.rstrip()], [s.strip()] *)
Fixpoint lstrip (s : str) : str :=
  match s with
  | c :: s' => if is_space c then lstrip s' else s
  | [] => []
  end.

Definition rstrip (s : str) : str := rev (lstrip (rev s)).

Definition strip (s : str) : str := rstrip (lstrip s).

(** [s.startswith(p)]: the rest of [s] after the prefix [p], if any. *)
Fixpoint strip_prefix (p s : str) : option str :=
  match p with
  | [] => Some s
  | a :: p' =>
    match s with
    | b :: s' => if (a =? b)%N then strip_prefix p' s' else None
    | [] => None
    end
  end.

Definition startswith (s p : str) : bool := bool_decide (is_Some (strip_prefix p s)).

(** [sub in s] *)
Fixpoint contains (sub s : str) : bool :=
  match s with
  | [] => startswith [] sub
  | _ :: s' => startswith s sub || contains sub s'
  end.

(** [s.replace(old, new)] for a non-empty [old]: the occurrences are taken
    from the left and do not overlap; [skip] counts the characters of the
    occurrence in progress that are still to be dropped. *)
Fixpoint replace_from (old new : str) (skip : nat) (s : str) : str :=
  match s with
  | [] => []
  | c :: s' =>
    match skip with
    | S k => replace_from old new k s'
    | O =>
      if startswith s old
      then new ++ replace_from old new (length old - 1) s'
      else c :: replace_from old new 0 s'
    end
  end.

Definition replace (s old new : str) : str := replace_from old new 0 s.

(** [s.rfind(c)] for a single character: the last index, or -1. *)
Fixpoint rfind_from (i : Z) (c : char) (s : str) : Z :=
  match s with
  | [] => -1
  | x :: s' =>
    let r := rfind_from (i + 1) c s' in
    if 0 <=? r then r else if (x =? c)%N then i else -1
  end.

Definition rfind (s : str) (c : char) : Z := rfind_from 0 c s.

(** Slices [s[:i]] and [s[i:]] for [0 <= i]. *)
Definition slice_to (s : str) (i : Z) : str := take (Z.to_nat i) s.
Definition slice_from (s : str) (i : Z) : str := drop (Z.to_nat i) s.

(** [str(n)] for a non-negative integer. *)
Definition str_of_nat (n : nat) : str :=
  List.map N_of_ascii (list_ascii_of_string (NilEmpty.string_of_uint (Nat.to_uint n))).

(** [s.upper() == "Q"] and the like, and also [s.lower() == "y"]: the only
    strings whose upper case is one ASCII capital letter (or whose lower case
    is the small letter) are that capital letter and its small letter. *)
Definition upper_is (s : str) (capital : ascii) : bool :=
  match s with
  | [c] => (c =? ch capital)%N || (c =? ch capital + 32)%N
  | _ => false
  end.

(** ** [posixpath] *)

Definition SEP : char := ch "/".
Definition EXTSEP : char := ch ".".

(** [os.path.basename(p)] *)
Definition basename (p : str) : str := slice_from p (rfind p SEP + 1).

(** The loop of [genericpath._splitext] that skips the leading dots of the
    file name: [true] when some character in [p[filenameIndex:dotIndex]] is
    not a dot. *)
Fixpoint has_non_dot (n : nat) (s : str) : bool :=
  match n, s with
  | S n', c :: s' => if (c =? EXTSEP)%N then has_non_dot n' s' else true
  | _, _ => false
  end.

(** [os.path.splitext(p)] *)
Definition splitext (p : str) : str * str :=
  let sepIndex := rfind p SEP in
  let dotIndex := rfind p EXTSEP in
  if (sepIndex <? dotIndex)
     && has_non_dot (Z.to_nat (dotIndex - (sepIndex + 1))) (slice_from p (sepIndex + 1))
  then (slice_to p dotIndex, slice_from p dotIndex)
  else (p, []).

(** [os.path.join(a, b)] for a relative [b]. *)
Definition path_join (a b : str) : str :=
  match strip_prefix [SEP] b with
  | Some _ => b
  | None =>
    match a with
    | [] => b
    | _ => if bool_decide (last a = Some SEP) then a ++ b else a ++ SEP :: b
    end
  end.


(* ===================================================================== *)
(** * Exceptions                                                          *)
(* ===================================================================== *)

(** [ValueError missing] is the error of [generate_report] that names the
    missing placeholders. Three more errors come from the libraries:
    [XMLValueError], the [ValueError] of lxml for a text with a character
    that XML excludes; [ResizeValueError], the [ValueError] of
    [Image.resize] for a size with a side that is not positive; [OSError],
    the error of opening a file for writing ([FileNotFoundError],
    [NotADirectoryError] or [IsADirectoryError]). *)
Inductive exn :=
| FileNotFoundError (path : str)
| FileExistsError (path : str)
| PackageNotFoundError (path : str)
| ValueError (missing : list str)
| XMLValueError
| ResizeValueError
| OSError (path : str)
| ZeroDivisionError
| ReTemplate (repl : str)
| KeyboardInterrupt
| EOFError.

Inductive result (A : Type) :=
| Ok (a : A)
| Raise (e : exn).
Arguments Ok {A} a.
Arguments Raise {A} e.

Definition bind {A B} (m : result A) (f : A -> result B) : result B :=
  match m with
  | Ok a => f a
  | Raise e => Raise e
  end.

Notation "'let*' x ':=' m 'in' k" := (bind m (fun x => k))
  (at level 10, x name, m at level 100, k at level 200).
Notation "'let*' ' p ':=' m 'in' k" := (bind m (fun x => let 'p := x in k))
  (at level 10, p pattern, m at level 100, k at level 200).

Fixpoint mapM {A B} (f : A -> result B) (l : list A) : result (list B) :=
  match l with
  | [] => Ok []
  | a :: l' => let* b := f a in let* bs := mapM f l' in Ok (b :: bs)
  end.

(* ===================================================================== *)
(** * The placeholder pattern                                             *)
(* ===================================================================== *)

Definition LBRACE : char := ch "{".
Definition RBRACE : char := ch "}".
Definition BACKSLASH : char := ch "\".

(** The compiled pattern [r"\{\{\s*" + re.escape(key) + r"\s*\}\}"] is a
    sequence of literals and greedy [\s*]. The matcher is written in
    continuation-passing style, as the backtracking engine runs it: [\s*]
    first consumes every white character and gives one back each time the
    rest of the pattern fails. A successful match returns what is left of the
    subject after it. *)
Definition re_lit (l : str) (k : str -> option str) (s : str) : option str :=
  match strip_prefix l s with
  | Some r => k r
  | None => None
  end.

Fixpoint re_ws_star (k : str -> option str) (s : str) : option str :=
  match s with
  | c :: s' =>
    if is_space c
    then match re_ws_star k s' with
         | Some r => Some r
         | None => k s
         end
    else k s
  | [] => k s
  end.

(** [pattern.match(s)] for the pattern of [key]; [re.escape] makes the key
    match itself. *)
Definition match_token (key : str) (s : str) : option str :=
  re_lit [LBRACE; LBRACE]
    (re_ws_star (re_lit key (re_ws_star (re_lit [RBRACE; RBRACE] Some)))) s.

(** The scan shared by [pattern.subn] and [pattern.findall]: from the left,
    the subject is cut into the characters outside any match ([inl]) and the
    matched texts ([inr]); matches do not overlap, and the scan resumes where
    a match ends. The pattern never matches the empty string. *)
Fixpoint re_pieces (key : str) (skip : nat) (s : str) : list (char + str) :=
  match s with
  | [] => []
  | c :: s' =>
    match skip with
    | S k => re_pieces key k s'
    | O =>
      match match_token key s with
      | Some rest =>
          let n := (length s - length rest)%nat in
          inr (take n s) :: re_pieces key (n - 1) s'
      | None => inl c :: re_pieces key 0 s'
      end
    end
  end.

(** [pattern.findall(s)] *)
Definition findall (key : str) (s : str) : list str :=
  omap (fun p => match p with inr m => Some m | inl _ => None end) (re_pieces key 0 s).

(** [pattern.subn(repl, s)]. A replacement without a backslash is used as it
    is. One with a backslash goes through the template compiler of [re],
    which rewrites escape sequences or raises [re.error]; that path is not
    followed here and ends in [ReTemplate]. *)
Definition is_literal_template (repl : str) : bool :=
  forallb (fun c => negb (c =? BACKSLASH)%N) repl.

Definition subn (key repl s : str) : result (str * nat) :=
  if is_literal_template repl then
    let ps := re_pieces key 0 s in
    Ok (concat (List.map (fun p => match p with inl c => [c] | inr _ => repl end) ps),
        length (findall key s))
  else Raise (ReTemplate repl).

(** [_apply_patterns(text, patterns, values)]: [values] is the dictionary in
    insertion order, [patterns] has the same keys. *)
Fixpoint _apply_patterns_loop (items : list (str * str)) (new_text : str) (changed : bool)
  : result (str * bool) :=
  match items with
  | [] => Ok (new_text, changed)
  | (key, value) :: items' =>
    let* '(new_text', count) := subn key value new_text in
    _apply_patterns_loop items' new_text' (if (0 <? count)%nat then true else changed)
  end.

Definition _apply_patterns (text : str) (values : list (str * str)) : result (str * bool) :=
  _apply_patterns_loop values text false.

(* ===================================================================== *)
(** * Documents (python-docx)                                             *)
(* ===================================================================== *)

(** A run is a stretch of text with its character formatting [fmt] (opaque
    here), an inline picture, or a page break. *)
Inductive run :=
| RText (fmt : N) (text : str)
| RPicture (path : str)
| RPageBreak.

(** [run.text], and the run that holds the text [t] with the formatting of
    [r]: what the setter of [run.text] leaves when it stores [t] as it is. *)
Definition run_text (r : run) : str :=
  match r with
  | RText _ t => t
  | _ => []
  end.

Definition set_run_text (r : run) (t : str) : run :=
  match r with
  | RText f _ => RText f t
  | _ => RText 0 t
  end.

Record paragraph := Paragraph { p_centered : bool; p_runs : list run }.

(** [paragraph.text]: the texts of the runs, joined. *)
Definition paragraph_text (p : paragraph) : str :=
  concat (List.map run_text (p_runs p)).

(** The paragraph with the text [t] in place of its runs: the setter of
    [paragraph.text] removes every run and adds one fresh run that holds the
    text; the formatting of the paragraph stays. *)
Definition set_paragraph_text (p : paragraph) (t : str) : paragraph :=
  {| p_centered := p_centered p; p_runs := [RText 0 t] |}.

(** The setters of [run.text] and [paragraph.text] hand the text to lxml,
    which raises [ValueError] unless every character is one that XML
    allows: tab, newline, carriage return, or a character from the space on
    other than the surrogates, U+FFFE and U+FFFF. A tab is stored as a tab
    element; a newline and a carriage return are both stored as a line
    break, which reads back as a newline. A text without carriage return
    and excluded character is stored as it is. *)
Definition xml_char (c : char) : bool :=
  ((c =? 9) || (c =? 10) || (c =? 13)
   || (32 <=? c) && (c <? 55296)
   || (57344 <=? c) && (c <? 65534)
   || (65536 <=? c) && (c <? 1114112))%N.

Definition CR : char := 13%N.
Definition LF : char := 10%N.

Definition stored_text (t : str) : str :=
  List.map (fun c => if (c =? CR)%N then LF else c) t.

(** [run.text = t] and [paragraph.text = t] *)
Definition assign_run_text (r : run) (t : str) : result run :=
  if forallb xml_char t then Ok (set_run_text r (stored_text t)) else Raise XMLValueError.

Definition assign_paragraph_text (p : paragraph) (t : str) : result paragraph :=
  if forallb xml_char t then Ok (set_paragraph_text p (stored_text t))
  else Raise XMLValueError.

(** Block-level content. A table is a list of rows, a row a list of cells
    (with the flag of an exact row height), a cell a list of blocks again.
    The cells of a row are its distinct cells: merged cells, which
    python-docx lists once per grid column, are not modelled. *)
Inductive block :=
| BPara (p : paragraph)
| BTable (centered : bool) (rows : list (bool * list (list block))).

Definition cell := list block.
Definition row := (bool * list cell)%type.

(** A document is the block-level content of its body. *)
Definition document := list block.

(** A reference to a paragraph object: the position of the paragraph in the
    body, or in cell [c] of row [r] of the table at position [t] of the
    body. *)
Inductive pref :=
| InBody (i : nat)
| InCell (t r c i : nat).

Definition indexed {A} (l : list A) : list (nat * A) := imap pair l.

(** [container.paragraphs], with positions. *)
Definition paragraphs_of (content : list block) : list (nat * paragraph) :=
  omap (fun '(i, b) => match b with BPara p => Some (i, p) | BTable _ _ => None end)
       (indexed content).

(** [container.tables], with positions. *)
Definition tables_of (content : list block) : list (nat * list row) :=
  omap (fun '(i, b) => match b with BTable _ rows => Some (i, rows) | BPara _ => None end)
       (indexed content).

(** [_iter_paragraphs(doc)] *)
Definition _iter_paragraphs (doc : document) : list (pref * paragraph) :=
  List.map (fun '(i, para) => (InBody i, para)) (paragraphs_of doc)
  ++ flat_map (fun '(t, rows) =>
       flat_map (fun '(r, (_, cells)) =>
         flat_map (fun '(c, content) =>
           List.map (fun '(i, para) => (InCell t r c i, para)) (paragraphs_of content))
           (indexed cells))
         (indexed rows))
       (tables_of doc).

(** Every paragraph of the document, at any depth of nesting. *)
Fixpoint block_paragraphs (b : block) : list paragraph :=
  match b with
  | BPara p => [p]
  | BTable _ rows =>
      flat_map (fun r => flat_map (fun c => flat_map block_paragraphs c) (snd r)) rows
  end.

Definition all_paragraphs (doc : document) : list paragraph :=
  flat_map block_paragraphs doc.

(** Every table of the document, at any depth of nesting. *)
Fixpoint block_tables (b : block) : list (list row) :=
  match b with
  | BPara _ => []
  | BTable _ rows =>
      rows :: flat_map (fun r => flat_map (fun c => flat_map block_tables c) (snd r)) rows
  end.

Definition all_tables (doc : document) : list (list row) :=
  flat_map block_tables doc.

(** ** Placeholder substitution *)

Definition PLACEHOLDER_KEYS : list str :=
  Eval vm_compute in [u "客户名称"; u "行业分类"; u "经营地址"].

(** The closure [process] of [replace_placeholders]. *)
Definition process_run (values : list (str * str)) (r : run) : result run :=
  let* '(new_text, changed) := _apply_patterns (run_text r) values in
  if changed then assign_run_text r new_text else Ok r.

Definition process (values : list (str * str)) (para : paragraph) : result paragraph :=
  let* runs := mapM (process_run values) (p_runs para) in
  let para1 := {| p_centered := p_centered para; p_runs := runs |} in
  let combined := paragraph_text para1 in
  let* '(new_combined, changed) := _apply_patterns combined values in
  if changed && negb (str_eqb new_combined combined)
  then assign_paragraph_text para1 new_combined
  else Ok para1.

Definition on_para (f : paragraph -> result paragraph) (b : block) : result block :=
  match b with
  | BPara p => let* p' := f p in Ok (BPara p')
  | BTable _ _ => Ok b
  end.

Definition on_table (f : list block -> result (list block)) (b : block) : result block :=
  match b with
  | BPara _ => Ok b
  | BTable cen rows =>
      let* rows' :=
        mapM (fun r : row =>
                let* cells := mapM f (snd r) in Ok (fst r, cells)) rows in
      Ok (BTable cen rows')
  end.

(** [replace_placeholders(doc, values)]: first the paragraphs of the body,
    then the paragraphs of the cells of the tables of the body. *)
Definition replace_placeholders (doc : document) (values : list (str * str))
  : result document :=
  let* doc1 := mapM (on_para (process values)) doc in
  mapM (on_table (mapM (on_para (process values)))) doc1.

(* ===================================================================== *)
(** * The file system                                                     *)
(* ===================================================================== *)

Inductive fobj :=
| FDir
| FDocx (doc : document)
| FData.

Abbreviation filesystem := (gmap str fobj).

Definition is_dir (o : fobj) : bool :=
  match o with
  | FDir => true
  | _ => false
  end.

(** [os.path.exists(path)] *)
Definition path_exists (fs : filesystem) (path : str) : bool :=
  bool_decide (is_Some (fs !! path)).

(** [Document(path)] *)
Definition Document (fs : filesystem) (path : str) : result document :=
  match fs !! path with
  | Some (FDocx doc) => Ok doc
  | _ => Raise (PackageNotFoundError path)
  end.

(** [os.path.isdir(path)] *)
Definition isdir (fs : filesystem) (path : str) : bool :=
  match fs !! path with
  | Some FDir => true
  | _ => false
  end.

(** The file system once [doc.save(path)] has written the file. *)
Definition save (doc : document) (path : str) (fs : filesystem) : filesystem :=
  <[path := FDocx doc]> fs.

(** [os.path.dirname(p)] *)
Fixpoint lstrip_sep (s : str) : str :=
  match s with
  | c :: s' => if (c =? SEP)%N then lstrip_sep s' else s
  | [] => []
  end.

Definition dirname (p : str) : str :=
  let head := slice_to p (rfind p SEP + 1) in
  if forallb (N.eqb SEP) head then head else rev (lstrip_sep (rev head)).

(** The directory exists: it is the current directory (the empty [dirname])
    or the root, it is listed as a directory, or an entry of the file system
    lies in it. *)
Definition directory_exists (fs : filesystem) (dir : str) : bool :=
  forallb (N.eqb SEP) dir || isdir fs dir
  || existsb (fun entry => startswith entry.1 (dir ++ [SEP])) (map_to_list fs).

(** [doc.save(path)]: the file is opened for writing, which fails with an
    [OSError] when the path names no file (it is empty or ends with a
    separator), names a directory, or lies in a directory that does not
    exist. *)
Definition doc_save (doc : document) (path : str) (fs : filesystem) : result filesystem :=
  if bool_decide (basename path = []) || isdir fs path
     || negb (directory_exists fs (dirname path))
  then Raise (OSError path)
  else Ok (save doc path fs).

(** [os.makedirs(path, exist_ok=True)] for a path that is not empty (the
    empty path makes [os.makedirs] raise [FileNotFoundError], a case that is
    left out here); the parents of [path] are not tracked. *)
Definition makedirs (fs : filesystem) (path : str) : result filesystem :=
  match fs !! path with
  | None => Ok (<[path := FDir]> fs)
  | Some FDir => Ok fs
  | Some _ => Raise (FileExistsError path)
  end.

(** The regular files of a file system. *)
Definition files (fs : filesystem) : filesystem :=
  filter (fun kv => is_dir kv.2 = false) fs.

(** [inspect_template_placeholders(path, keys)]: the dictionary [stats] in
    the order of [keys]. *)
Definition count_in (doc : document) (key : str) : nat :=
  foldl (fun n '(_, para) => (n + length (findall key (paragraph_text para)))%nat)
        0%nat (_iter_paragraphs doc).

Definition inspect_template_placeholders (fs : filesystem) (path : str) (keys : list str)
  : result (list (str * nat)) :=
  if negb (path_exists fs path) then Raise (FileNotFoundError path)
  else
    let* doc := Document fs path in
    Ok (List.map (fun key => (key, count_in doc key)) keys).

(* ===================================================================== *)
(** * Output names                                                        *)
(* ===================================================================== *)

Definition REPORT_SUFFIX : str := Eval vm_compute in u "新开户尽职调查表".
Definition DEFAULT_NAME : str := Eval vm_compute in u "未命名".

(** The characters of the class in the pattern of [sanitize_filename]:
    backslash, slash, colon, star, question mark, double quote (code point
    34), the angle brackets and the bar. *)
Definition FORBIDDEN : list char :=
  [ch "\"; ch "/"; ch ":"; ch "*"; ch "?"; 34%N; ch "<"; ch ">"; ch "|"].

Definition is_forbidden (c : char) : bool := existsb (N.eqb c) FORBIDDEN.

(** [a or b] on strings *)
Definition str_or (a b : str) : str :=
  match a with
  | [] => b
  | _ => a
  end.

(** [sanitize_filename(name)] *)
Definition sanitize_filename (name : str) : str :=
  let safe := str_or (strip (str_or name DEFAULT_NAME)) DEFAULT_NAME in
  List.map (fun c => if is_forbidden c then ch "_" else c) safe.

(** The candidate [f"{root} ({idx}){ext}"] *)
Definition candidate (root ext : str) (idx : nat) : str :=
  root ++ u " (" ++ str_of_nat idx ++ u ")" ++ ext.

(** The [while True] loop of [next_nonconflicting_path], with the number of
    iterations it may still run. *)
Fixpoint next_candidate (fs : filesystem) (root ext : str) (fuel idx : nat) : option str :=
  match fuel with
  | O => None
  | S fuel' =>
    if negb (path_exists fs (candidate root ext idx))
    then Some (candidate root ext idx)
    else next_candidate fs root ext fuel' (S idx)
  end.

Definition next_nonconflicting_path_fuel (fuel : nat) (fs : filesystem) (path : str)
  : option str :=
  if negb (path_exists fs path) then Some path
  else
    let '(root, ext) := splitext path in
    next_candidate fs root ext fuel 1.

(** [next_nonconflicting_path(path)]. The loop is given one iteration more
    than there are entries in the file system, which is always enough
    ([next_nonconflicting_path_terminates]); the default is never used. *)
Definition next_nonconflicting_path (fs : filesystem) (path : str) : str :=
  default path (next_nonconflicting_path_fuel (S (size fs)) fs path).

(* ===================================================================== *)
(** * Photo insertion                                                     *)
(* ===================================================================== *)

Definition PHOTO_TOKENS : list str :=
  Eval vm_compute in [u "{{走访照片}}"; u "{{照片}}"; u "{{照片区}}"].
Definition PHOTO_SECTION_KEYWORDS : list str := Eval vm_compute in [u "上门核实图片"].
Definition PHOTOS_PER_PAGE : nat := 2.

(** [_clear_photo_tokens(paragraph)]. The text assigned is the text of the
    paragraph less the tokens: the setter stores it as it is. *)
Definition _clear_photo_tokens (para : paragraph) : paragraph :=
  foldl (fun p token =>
           if contains token (paragraph_text p)
           then set_paragraph_text p (replace (paragraph_text p) token [])
           else p)
        para PHOTO_TOKENS.

(** [_find_photo_anchor(doc)]: the reference of the anchor and the document,
    which gets a new last paragraph when nothing else serves as anchor. *)
Definition has_photo_token (para : paragraph) : bool :=
  existsb (fun token => contains token (paragraph_text para)) PHOTO_TOKENS.

Definition has_section_keyword (para : paragraph) : bool :=
  let txt := strip (paragraph_text para) in
  negb (bool_decide (txt = [])) && existsb (fun keyword => contains keyword txt) PHOTO_SECTION_KEYWORDS.

Definition _find_photo_anchor (doc : document) : pref * document :=
  match List.find (fun rp => has_photo_token (snd rp)) (_iter_paragraphs doc) with
  | Some (r, _) => (r, doc)
  | None =>
    match List.find (fun rp => has_section_keyword (snd rp)) (_iter_paragraphs doc) with
    | Some (r, _) => (r, doc)
    | None =>
        (InBody (length doc),
         doc ++ [BPara (Paragraph false [RText 0 (u "上门核实图片：")])])
    end
  end.

(** Access to the container (body or cell) that holds a referenced
    paragraph: [f i content] rewrites the content around position [i]. *)
Definition on_container (ref : pref) (f : nat -> list block -> list block) (doc : document)
  : document :=
  match ref with
  | InBody i => f i doc
  | InCell t r c i =>
      alter (fun b =>
               match b with
               | BTable cen rows =>
                   BTable cen (alter (fun rw : row => (fst rw, alter (f i) c (snd rw))) r rows)
               | BPara _ => b
               end) t doc
  end.

Definition update_para (ref : pref) (f : paragraph -> paragraph) (doc : document) : document :=
  on_container ref
    (fun i => alter (fun b => match b with BPara p => BPara (f p) | BTable _ _ => b end) i) doc.

(** [element.addnext(new)]: [new] becomes the next sibling of the element;
    [next_ref] is then the reference of [new]. The scripts create [new] with
    [doc.add_table] or [doc.add_paragraph], at the end of the body, and
    [addnext] moves it: only the final position is kept here. *)
Definition addnext (ref : pref) (new : block) (doc : document) : document :=
  on_container ref (fun i content => take (S i) content ++ new :: drop (S i) content) doc.

Definition next_ref (ref : pref) : pref :=
  match ref with
  | InBody i => InBody (S i)
  | InCell t r c i => InCell t r c (S i)
  end.

(** [range(start, stop, step)] for a positive step; it has no more than
    [fuel = stop] elements. *)
Fixpoint py_range (fuel start stop step : nat) : list nat :=
  match fuel with
  | O => []
  | S fuel' =>
    if (start <? stop)%nat then start :: py_range fuel' (start + step) stop step else []
  end.

(** [[processed[i : i + PHOTOS_PER_PAGE] for i in range(0, len(processed), PHOTOS_PER_PAGE)]] *)
Definition photo_groups (processed : list str) : list (list str) :=
  List.map (fun i => take PHOTOS_PER_PAGE (drop i processed))
           (py_range (length processed) 0 (length processed) PHOTOS_PER_PAGE).

(** The paragraph [doc.add_paragraph()] with a run that holds a page break. *)
Definition breaker : block := BPara (Paragraph false [RPageBreak]).

Section Photos.

(** What is outside the scripts: the preparation of one photo (Pillow,
    [sips], the cache directory, which is taken to be there or to be
    created without error), which returns the path of the prepared file or
    the empty string and may write to the file system; and
    [run.add_picture], which embeds the picture or raises, in which case
    [add_picture_error] gives the text of the exception. *)
Variable _prepare_photo_for_word : filesystem -> str -> str -> str * filesystem.
Variable add_picture_error : str -> option str.

(** The first loop of [insert_photos]. *)
Fixpoint prepare_all (photos : list str) (cache_dir : str) (fs : filesystem)
  : list str * filesystem :=
  match photos with
  | [] => ([], fs)
  | path :: rest =>
    if negb (path_exists fs path) then prepare_all rest cache_dir fs
    else
      let '(cooked, fs1) := _prepare_photo_for_word fs path cache_dir in
      let '(processed, fs2) := prepare_all rest cache_dir fs1 in
      (match cooked with [] => processed | _ => cooked :: processed end, fs2)
  end.

(** The cell of one photo: setting [cell.text] to the empty string leaves
    one paragraph with one empty run; the paragraph is centred and gets a
    run with the picture, or, if [add_picture] raises, the text of the
    failure. *)
Definition photo_cell (image_path : str) : cell :=
  let para := Paragraph true [RText 0 []] in
  [BPara match add_picture_error image_path with
         | None => {| p_centered := true; p_runs := p_runs para ++ [RPicture image_path] |}
         | Some exc =>
             set_paragraph_text
               {| p_centered := true; p_runs := p_runs para ++ [RText 0 []] |}
               (u "[图片插入失败：" ++ basename image_path ++ u "]" ++ [10%N] ++ exc)
         end].

(** The table of one group: [len(group)] rows of one column, centred, each
    row of the exact height [PHOTO_ROW_HEIGHT_IN]. *)
Definition photo_table (group : list str) : block :=
  BTable true (List.map (fun image_path => (true, [photo_cell image_path])) group).

(** The loop [for idx, group in enumerate(groups)]; [n] is [len(groups)]
    and [last] is [last_element]. *)
Fixpoint insert_groups (n idx : nat) (groups : list (list str)) (last : pref) (doc : document)
  : document :=
  match groups with
  | [] => doc
  | group :: rest =>
    let doc1 := addnext last (photo_table group) doc in
    let last1 := next_ref last in
    if (idx <? n - 1)%nat
    then insert_groups n (S idx) rest (next_ref last1) (addnext last1 breaker doc1)
    else insert_groups n (S idx) rest last1 doc1
  end.

(** [insert_photos] once [processed] is known to be non-empty. *)
Definition insert_prepared (doc : document) (processed : list str) : document :=
  let '(anchor, doc1) := _find_photo_anchor doc in
  let doc2 := update_para anchor _clear_photo_tokens doc1 in
  let groups := photo_groups processed in
  insert_groups (length groups) 0 groups anchor doc2.

(** [insert_photos(doc, photos, out_dir)] *)
Definition insert_photos (doc : document) (photos : list str) (out_dir : str)
           (fs : filesystem) : document * filesystem :=
  match photos with
  | [] => (doc, fs)
  | _ =>
    let cache_dir := path_join out_dir (u "_photo_cache") in
    let '(processed, fs1) := prepare_all photos cache_dir fs in
    match processed with
    | [] => (doc, fs1)
    | _ => (insert_prepared doc processed, fs1)
    end
  end.

(** ** Report assembly *)

Record config := Config { cfg_template : str; cfg_out : str }.

(** [generate_report(fields, photos)], with [want_pdf], [open_out] and
    [reveal_out] left at [False] as [interactive] calls it: nothing follows
    [doc.save] but the return. The result is the file system afterwards and
    what the call returns or raises. *)
Definition generate_report (cfg : config) (fields : gmap str str) (photos : list str)
           (fs : filesystem) : filesystem * result str :=
  let template_path := cfg_template cfg in
  let outdir := cfg_out cfg in
  match makedirs fs outdir with
  | Raise e => (fs, Raise e)
  | Ok fs1 =>
    if negb (path_exists fs1 template_path)
    then (fs1, Raise (FileNotFoundError template_path))
    else
      let placeholders :=
        List.map (fun key => (key, default [] (fields !! key))) PLACEHOLDER_KEYS in
      match inspect_template_placeholders fs1 template_path PLACEHOLDER_KEYS with
      | Raise e => (fs1, Raise e)
      | Ok stats =>
        let missing :=
          List.map fst (List.filter (fun kc => (snd kc =? 0)%nat) stats) in
        match missing with
        | _ :: _ => (fs1, Raise (ValueError missing))
        | [] =>
          match Document fs1 template_path with
          | Raise e => (fs1, Raise e)
          | Ok doc =>
            match replace_placeholders doc placeholders with
            | Raise e => (fs1, Raise e)
            | Ok doc1 =>
              let '(doc2, fs2) := insert_photos doc1 photos outdir fs1 in
              let base_name :=
                sanitize_filename (default DEFAULT_NAME (fields !! (u "客户名称")))
                ++ REPORT_SUFFIX ++ u ".docx" in
              let docx_out := next_nonconflicting_path fs2 (path_join outdir base_name) in
              match doc_save doc2 docx_out fs2 with
              | Raise e => (fs2, Raise e)
              | Ok fs3 => (fs3, Ok docx_out)
              end
            end
          end
        end
      end
  end.

End Photos.

(* ===================================================================== *)
(** * Letterboxing                                                        *)
(* ===================================================================== *)

Definition CANVAS_SIZE : Z * Z := (2200, 1650).
Definition CANVAS_MARGIN : Z := 80.

(** Where [canvas.paste(resized, offset)] puts the resized image. *)
Record placement := Placement {
  resized_width : Z;
  resized_height : Z;
  offset_x : Z;
  offset_y : Z
}.

(** The white borders around the pasted image on a canvas of [size]. *)
Definition border_left (g : placement) : Z := offset_x g.
Definition border_top (g : placement) : Z := offset_y g.
Definition border_right (size : Z * Z) (g : placement) : Z :=
  fst size - offset_x g - resized_width g.
Definition border_bottom (size : Z * Z) (g : placement) : Z :=
  snd size - offset_y g - resized_height g.

(** The pasted image lies within the canvas: nothing of it is cut off. *)
Definition uncropped (size : Z * Z) (g : placement) : Prop :=
  0 <= offset_x g /\ 0 <= offset_y g
  /\ offset_x g + resized_width g <= fst size
  /\ offset_y g + resized_height g <= snd size.

(** Python's [a < b] on floats *)
Definition float_lt (a b : Q) : bool := negb (Qle_bool b a).

(** [min(a, b, c)]: the first of the smallest arguments. *)
Definition py_min3 (a b c : Q) : Q :=
  let best := if float_lt b a then b else a in
  if float_lt c best then c else best.

(** [int(x)]: truncation towards zero. *)
Definition int_of_float (x : Q) : Z :=
  if Qle_bool 0%Q x then Qfloor x else Qceiling x.

Section Floats.

(** A Python [float] is a binary64 number, taken here as the rational it
    denotes. Each arithmetic operation is the exact operation followed by
    the rounding [rnd] to the nearest binary64 number. *)
Variable rnd : Q -> Q.

(** [float(n)] *)
Definition float_of_int (n : Z) : Q := rnd (inject_Z n).

(** [a / b] on integers, for [b <> 0] *)
Definition true_div (a b : Z) : Q := rnd (inject_Z a / inject_Z b).

(** [n * x] for an integer [n] and a float [x] *)
Definition int_mul_float (n : Z) (x : Q) : Q := rnd (float_of_int n * x)%Q.

(** The value of [scale] in [_letterbox_image], for an image of [width] by
    [height] pixels. *)
Definition letterbox_scale (size : Z * Z) (margin width height : Z) : Q :=
  let target_w := Z.max (fst size - margin * 2) 1 in
  let target_h := Z.max (snd size - margin * 2) 1 in
  py_min3 (true_div target_w width) (true_div target_h height) 1%Q.

(** [img.resize((w, h), Image.LANCZOS)]: Pillow raises [ValueError] for a
    size with a side that is not positive. *)
Definition resize (w h : Z) : result (Z * Z) :=
  if (w <=? 0) || (h <=? 0) then Raise ResizeValueError else Ok (w, h).

(** [_letterbox_image(img, size, margin)], as far as the geometry goes:
    the size the image is resized to and where it is pasted. *)
Definition _letterbox_image (width height : Z) (size : Z * Z) (margin : Z)
  : result placement :=
  if (width =? 0) || (height =? 0) then Raise ZeroDivisionError
  else
    let scale := letterbox_scale size margin width height in
    let* '(resized_w, resized_h) :=
      resize (int_of_float (int_mul_float width scale))
             (int_of_float (int_mul_float height scale)) in
    Ok {| resized_width := resized_w;
          resized_height := resized_h;
          offset_x := (fst size - resized_w) / 2;
          offset_y := (snd size - resized_h) / 2 |}.

(** The scale factor of [_letterbox_image] in exact arithmetic: the smallest
    of the two quotients of the sides of the canvas less twice the margin by
    the sides of the image, and of 1. *)
Definition exact_scale (size : Z * Z) (margin width height : Z) : Q :=
  Qmin (Qmin (inject_Z (fst size - 2 * margin) / inject_Z width)
             (inject_Z (snd size - 2 * margin) / inject_Z height)) 1.

(** What is used of binary64 arithmetic: rounding is monotone, leaves the
    integers up to [2^53] as they are, and moves a number of ordinary
    magnitude by at most the fraction [2^-53] of itself. *)
Record binary64_rounding : Prop := {
  rnd_proper : forall x y : Q, (x == y)%Q -> (rnd x == rnd y)%Q;
  rnd_mono : forall x y : Q, (x <= y)%Q -> (rnd x <= rnd y)%Q;
  rnd_int : forall n : Z, Z.abs n <= 2 ^ 53 -> (rnd (inject_Z n) == inject_Z n)%Q;
  rnd_err : forall x : Q,
      (1 # 2 ^ 60 <= x)%Q -> (x <= inject_Z (2 ^ 60))%Q ->
      (x * (1 - (1 # 2 ^ 53)) <= rnd x)%Q /\ (rnd x <= x * (1 + (1 # 2 ^ 53)))%Q
}.

End Floats.

(* ===================================================================== *)
(** * Script 1: classification of the photos                              *)
(* ===================================================================== *)

(** The dictionary [info] of [classify_photos], which has four fixed keys. *)
Record buckets := Buckets {
  visit : list str;        (* 走访照片 *)
  beike : list str;        (* 贝壳查询 *)
  anjuke : list str;       (* 安居客查询 *)
  appraisal : list str     (* 评估 *)
}.

(** One turn of the loop [for f in files]. *)
Definition classify_one (info : buckets) (f : str) : buckets :=
  let name := basename f in
  if startswith name (u "走访") then
    {| visit := visit info ++ [f]; beike := beike info;
       anjuke := anjuke info; appraisal := appraisal info |}
  else if contains (u "贝壳") name then
    {| visit := visit info; beike := beike info ++ [f];
       anjuke := anjuke info; appraisal := appraisal info |}
  else if contains (u "安居客") name then
    {| visit := visit info; beike := beike info;
       anjuke := anjuke info ++ [f]; appraisal := appraisal info |}
  else if contains (u "评估") name || contains (u "查询") name then
    {| visit := visit info; beike := beike info;
       anjuke := anjuke info; appraisal := appraisal info ++ [f] |}
  else info.

(** [classify_photos(files)] *)
Definition classify_photos (files : list str) : buckets :=
  foldl classify_one (Buckets [] [] [] []) files.

(** The rules as the specification words them: an ordered list of pairs of a
    predicate on the base name and a category, the first match wins. *)
Inductive category := Visit | Beike | Anjuke | Appraisal.

Definition rules : list ((str -> bool) * category) :=
  [ (fun name => startswith name (u "走访"), Visit);
    (fun name => contains (u "贝壳") name, Beike);
    (fun name => contains (u "安居客") name, Anjuke);
    (fun name => contains (u "评估") name || contains (u "查询") name, Appraisal) ].

Definition first_match (name : str) : option category :=
  option_map snd (List.find (fun rule => fst rule name) rules).

Definition bucket (info : buckets) (c : category) : list str :=
  match c with
  | Visit => visit info
  | Beike => beike info
  | Anjuke => anjuke info
  | Appraisal => appraisal info
  end.

Definition category_eqb (a b : category) : bool :=
  match a, b with
  | Visit, Visit | Beike, Beike | Anjuke, Anjuke | Appraisal, Appraisal => true
  | _, _ => false
  end.

(* ===================================================================== *)
(** * Script 2: the interactive mode                                      *)
(* ===================================================================== *)

Definition BACK : str := Eval vm_compute in u "__BACK__".

(** [prompt(msg)], applied to the line that [input(msg)] returns. *)
Definition prompt (line : str) : result str :=
  let val := strip line in
  if upper_is val "Q" then Raise KeyboardInterrupt
  else if upper_is val "B" then Ok BACK
  else Ok val.

(** [keys.index(key)] *)
Fixpoint list_index (key : str) (keys : list str) : nat :=
  match keys with
  | [] => 0
  | k :: keys' => if str_eqb k key then 0 else S (list_index key keys')
  end.

(** What a session shows: the calls of [input] with their message, the lines
    printed, and the calls of [generate_report]. *)
Inductive event :=
| Input (msg : str)
| Print (line : str)
| Generate (fields : gmap str str) (photos : list str).

(** The points of [interactive] at which the session waits for a line:
    - [AskField i fields]: the inner [while True] for [PLACEHOLDER_KEYS[i]],
      at [prompt(f"{key}：")];
    - [AskPhotos fields]: at [prompt(hint)];
    - [AskConfirm fields photos]: at [input("确认生成？[Y/n] ")];
    - [AskContinue]: at [input("继续新增？[y/N] ")];
    and [Finished], when [interactive] has returned or raised. *)
Inductive wstate :=
| AskField (i : nat) (fields : gmap str str)
| AskPhotos (fields : gmap str str)
| AskConfirm (fields : gmap str str) (photos : list str)
| AskContinue
| Finished (outcome : result unit).

(** The start of a turn of the outer [while True]: [fields = {}] and the
    [for] loop at its first key. *)
Definition restart : wstate := AskField 0 ∅.

(** How the input ends after the lines that the user enters: the input is
    closed, or the user presses Ctrl-C at the question that follows. *)
Inductive ending := EndOfInput | CtrlC.

Section Interactive.

Variable expand_photos_arg : str -> list str.
Variable default_photos_dir : str.
Variable TEMPLATE_PATH_FIXED OUT_DIR_FIXED : str.
(** The outcome of [generate_report(fields, photos)] *)
Variable report : gmap str str -> list str -> result str.

Definition cached_photos : list str := expand_photos_arg default_photos_dir.

(** The message of the [input] call at which a state waits. *)
Definition message (st : wstate) : str :=
  match st with
  | AskField i _ => nth i PLACEHOLDER_KEYS [] ++ u "："
  | AskPhotos _ => u "走访照片（输入目录或逗号分隔列表；留空=默认/不插入）："
  | AskConfirm _ _ => u "确认生成？[Y/n] "
  | AskContinue => u "继续新增？[y/N] "
  | Finished _ => []
  end.

(** [except KeyboardInterrupt] *)
Definition interrupted : list event * wstate :=
  ([Print (10%N :: u "已退出。")], Finished (Ok tt)).

(** The code run from one call of [input] to the next. *)
Definition step (st : wstate) (line : str) : list event * wstate :=
  match st with
  | AskField i fields =>
    let key := nth i PLACEHOLDER_KEYS [] in
    match prompt line with
    | Raise _ => interrupted
    | Ok val =>
      if str_eqb val BACK then
        let prev_idx := Z.of_nat (list_index key PLACEHOLDER_KEYS) - 1 in
        (* [break], then [key not in fields: break], then
           [len(fields) < len(PLACEHOLDER_KEYS): continue] *)
        ([Print (if 0 <=? prev_idx
                 then u "返回上一项 → 重填 " ++ nth (Z.to_nat prev_idx) PLACEHOLDER_KEYS []
                 else u "已在第一项，无法返回。")],
         restart)
      else if bool_decide (val = []) then
        ([Print (u "请输入 " ++ key ++ u "。")], AskField i fields)
      else
        let fields' := <[key := val]> fields in
        if (S i <? length PLACEHOLDER_KEYS)%nat then ([], AskField (S i) fields')
        else if (size fields' <? length PLACEHOLDER_KEYS)%nat then ([], restart)
        else ([], AskPhotos fields')
    end
  | AskPhotos fields =>
    match prompt line with
    | Raise _ => interrupted
    | Ok photo_input =>
      if str_eqb photo_input BACK then
        ([Print (u "返回上一项 → 重填经营地址")], restart)
      else
        let photos :=
          if bool_decide (strip photo_input = []) then cached_photos
          else expand_photos_arg photo_input in
        let photo_source :=
          if bool_decide (strip photo_input = []) then
            match cached_photos with
            | [] => u "（无照片）"
            | _ => u "默认 " ++ default_photos_dir
            end
          else strip photo_input in
        ([Print (10%N :: u "—— 汇总 ——")]
         ++ List.map (fun key => Print (key ++ u "： " ++ default [] (fields !! key)))
                     PLACEHOLDER_KEYS
         ++ [Print (u "照片： " ++ str_of_nat (length photos)
                    ++ u " 张（每页 2 张） 来源： " ++ photo_source)],
         AskConfirm fields photos)
    end
  | AskConfirm fields photos =>
    let go := strip line in
    if negb (bool_decide (go = [])) && negb (upper_is go "Y") then
      ([Print (u "已取消本次生成。")], AskContinue)
    else
      match report fields photos with
      | Ok out => ([Generate fields photos; Print (u "✅ 已生成：" ++ out)], AskContinue)
      | Raise KeyboardInterrupt =>
          (Generate fields photos :: fst interrupted, snd interrupted)
      | Raise e => ([Generate fields photos], Finished (Raise e))
      end
  | AskContinue =>
    if upper_is (strip line) "Y" then ([], restart)
    else ([Print (u "已结束。")], Finished (Ok tt))
  | Finished outcome => ([], Finished outcome)
  end.

(** What [input] does once the lines are used up: it raises [EOFError] at
    the end of the input, which nothing catches, or [KeyboardInterrupt] when
    the user presses Ctrl-C, which the [try] of the loop catches; the last
    question is asked outside the [try]. *)
Definition ended (e : ending) (st : wstate) : list event * wstate :=
  match e with
  | EndOfInput => ([], Finished (Raise EOFError))
  | CtrlC =>
    match st with
    | AskContinue => ([], Finished (Raise KeyboardInterrupt))
    | _ => interrupted
    end
  end.

(** The session from a state on, for the lines that the user enters and the
    way the input ends after them. *)
Fixpoint session_until (e : ending) (st : wstate) (lines : list str)
  : list event * wstate :=
  match st with
  | Finished _ => ([], st)
  | _ =>
    match lines with
    | [] => let '(out, final) := ended e st in (Input (message st) :: out, final)
    | line :: lines' =>
      let '(out, st') := step st line in
      let '(rest, final) := session_until e st' lines' in
      (Input (message st) :: out ++ rest, final)
    end
  end.

(** The session for the lines that the user enters; when they run out,
    [input] raises [EOFError]. *)
Definition session : wstate -> list str -> list event * wstate :=
  session_until EndOfInput.

(** [print_menu()] *)
Definition print_menu : list event :=
  [Print (u "—— 交互模式（B=返回，Q=取消）——");
   Print (u "模板固定： " ++ TEMPLATE_PATH_FIXED);
   Print (u "输出目录： " ++ OUT_DIR_FIXED);
   Print (u "默认照片目录： " ++ default_photos_dir)].

(** [interactive()] *)
Definition interactive_until (e : ending) (lines : list str) : list event * wstate :=
  let '(evs, final) := session_until e restart lines in
  (print_menu ++ evs, final).

Definition interactive (lines : list str) : list event * wstate :=
  interactive_until EndOfInput lines.


End Interactive.

(* ===================================================================== *)
(** * Sample inputs                                                       *)
(* ===================================================================== *)

(** A template that lacks the token of 经营地址. *)
Definition template_without_address : document :=
  [BPara (Paragraph false [RText 0 (u "客户：{{客户名称}}  行业：{{ 行业分类 }}")])].

(** A template whose photo anchor carries a photo token, and oracles for
    which no photo can be prepared and every picture can be embedded. *)
Definition template_with_photo_token : document :=
  [BPara (Paragraph false [RText 0 (u "上门核实图片：{{走访照片}}")])].

Definition no_preparation (fs : filesystem) (src cache_dir : str) : str * filesystem :=
  ([], fs).


Definition no_picture_error (image_path : str) : option str := None.

(* ===================================================================== *)
(** * Vocabulary of the statements                                        *)
(* ===================================================================== *)












(** ** Templates as sequences of characters and tokens *)

(** The text of a paragraph in which braces only delimit tokens: a sequence
    of characters other than braces and of tokens [{{ key }}], with white
    space allowed around the key. *)
Inductive item :=
| Chr (c : char)
| Tok (key w1 w2 : str).

Definition render (it : item) : str :=
  match it with
  | Chr c => [c]
  | Tok key w1 w2 => [LBRACE; LBRACE] ++ w1 ++ key ++ w2 ++ [RBRACE; RBRACE]
  end.

Definition render_all (items : list item) : str := flat_map render items.

Definition is_brace (c : char) : bool := (c =? LBRACE)%N || (c =? RBRACE)%N.

(** A key that is not empty and has no white space and no brace. *)
Definition key_char (c : char) : bool := negb (is_space c) && negb (is_brace c).

Definition simple_key (key : str) : bool :=
  negb (bool_decide (key = [])) && forallb key_char key.

Definition valid_item (it : item) : bool :=
  match it with
  | Chr c => negb (is_brace c)
  | Tok key w1 w2 => simple_key key && forallb is_space w1 && forallb is_space w2
  end.

Definition tidy (text : str) : Prop :=
  exists items, forallb valid_item items = true /\ render_all items = text.

(** A text that the setters of [run.text] and [paragraph.text] store as it
    is: no carriage return, and no character that XML excludes. *)
Definition storable (t : str) : bool :=
  forallb (fun c => xml_char c && negb (c =? CR)%N) t.

(** A value without braces and without backslash that is stored as it is. *)
Definition plain_value (value : str) : bool :=
  forallb (fun c => negb (is_brace c) && negb (c =? BACKSLASH)%N) value && storable value.

(** [values[key]] *)
Fixpoint dict_lookup (values : list (str * str)) (key : str) : option str :=
  match values with
  | [] => None
  | (k, v) :: values' => if str_eqb k key then Some v else dict_lookup values' key
  end.

(** The template with the value of its key in place of each token; the
    tokens of other keys stay. *)
Definition fill_item (values : list (str * str)) (it : item) : list item :=
  match it with
  | Chr _ => [it]
  | Tok key _ _ =>
    match dict_lookup values key with
    | Some value => List.map Chr value
    | None => [it]
    end
  end.

Definition fill (values : list (str * str)) (items : list item) : list item :=
  flat_map (fill_item values) items.

Definition expand_all (values : list (str * str)) (items : list item) : str :=
  render_all (fill values items).

(** The number of tokens of a key. *)
Definition is_token_of (key : str) (it : item) : bool :=
  match it with
  | Chr _ => false
  | Tok key' _ _ => str_eqb key' key
  end.

(** The number of matches of the pattern of [key] in the whole document,
    nested tables included. *)
Definition count_everywhere (doc : document) (key : str) : nat :=
  list_sum (List.map (fun para => length (findall key (paragraph_text para)))
                     (all_paragraphs doc)).

(** The new text of [subn] for a replacement that is taken literally. *)
Definition sub (key repl s : str) : str :=
  concat (List.map (fun p : char + str => match p with inl c => [c] | inr _ => repl end)
                   (re_pieces key 0 s)).

Definition sub_all (values : list (str * str)) (text : str) : str :=
  foldl (fun t kv => sub (fst kv) (snd kv) t) text values.

(** [_apply_patterns], [process] and [replace_placeholders] without the
    exceptions: what they return when every value is taken literally. *)
Fixpoint apply_pure (items : list (str * str)) (new_text : str) (changed : bool)
  : str * bool :=
  match items with
  | [] => (new_text, changed)
  | (key, value) :: items' =>
    apply_pure items' (sub key value new_text)
               (if (0 <? length (findall key new_text))%nat then true else changed)
  end.

Definition processed_run (values : list (str * str)) (r : run) : run :=
  let '(new_text, changed) := apply_pure values (run_text r) false in
  if changed then set_run_text r new_text else r.

Definition processed (values : list (str * str)) (para : paragraph) : paragraph :=
  let para1 := {| p_centered := p_centered para;
                  p_runs := List.map (processed_run values) (p_runs para) |} in
  let combined := paragraph_text para1 in
  let '(new_combined, changed) := apply_pure values combined false in
  if changed && negb (str_eqb new_combined combined)
  then set_paragraph_text para1 new_combined
  else para1.

(** The patterns leave the text as it is, or give a text that is stored as
    it is; and the same of the texts that [process] handles in a
    paragraph. *)
Definition assignable (values : list (str * str)) (t : str) : Prop :=
  snd (apply_pure values t false) = true ->
  storable (fst (apply_pure values t false)) = true.

Definition processable (values : list (str * str)) (para : paragraph) : Prop :=
  (forall r, In r (p_runs para) -> assignable values (run_text r))
  /\ assignable values
       (concat (List.map run_text (List.map (processed_run values) (p_runs para)))).

Definition map_para (f : paragraph -> paragraph) (b : block) : block :=
  match b with
  | BPara p => BPara (f p)
  | BTable _ _ => b
  end.

Definition map_cells (f : list block -> list block) (b : block) : block :=
  match b with
  | BPara _ => b
  | BTable cen rows => BTable cen (List.map (fun r : row => (fst r, List.map f (snd r))) rows)
  end.

Definition replaced (values : list (str * str)) (doc : document) : document :=
  List.map (map_cells (List.map (map_para (processed values))))
           (List.map (map_para (processed values)) doc).

(** The character formatting of a run. *)
Definition run_format (r : run) : option N :=
  match r with
  | RText fmt _ => Some fmt
  | _ => None
  end.

(** No brace in the value. *)
Definition no_brace (value : str) : bool := forallb (fun c => negb (is_brace c)) value.

(** The items [items'] stand for the same filled template as [items], for
    any values that give [value] to [key]. *)
Definition same_filling (key value : str) (items items' : list item) : Prop :=
  forall values, dict_lookup values key = Some value -> fill values items' = fill values items.

(** A template with the three tokens in a table nested in a cell of a table. *)
Definition nested_template : document :=
  [BPara (Paragraph false [RText 0 (u "新开户尽职调查表")]);
   BTable false
     [(false,
       [[BPara (Paragraph false [RText 0 (u "基本信息")]);
         BTable false
           [(false,
             [[BPara (Paragraph false
                        [RText 0 (u "{{客户名称}} {{行业分类}} {{经营地址}}")])]])]]])]].

Definition sample_values : list (str * str) :=
  [(u "客户名称", u "ACME Corp"); (u "行业分类", u "Retail"); (u "经营地址", u "1 Main St")].

(** The string is empty or starts with a character outside [P]. *)
Definition starts_outside (P : char -> bool) (s : str) : Prop :=
  match s with
  | [] => True
  | c :: _ => P c = false
  end.

(** No opening brace in the string. *)
Definition no_open (t : str) : bool := forallb (fun c => negb (LBRACE =? c)%N) t.

(** The pieces into which the scan cuts the text of an item. *)
Definition piece_text (repl : str) (p : char + str) : str :=
  match p with
  | inl c => [c]
  | inr _ => repl
  end.

Definition pieces_of_item (key : str) (it : item) : list (char + str) :=
  if is_token_of key it then [inr (render it)] else List.map inl (render it).

(** One pattern applied to a sequence of items. *)
Definition subst_item (key value : str) (it : item) : list item :=
  if is_token_of key it then List.map Chr value else [it].

(** The second component changed by [g]. *)
Definition on_snd {A B C} (g : B -> C) (ab : A * B) : A * C := (fst ab, g (snd ab)).

(** [indexed] with the positions renamed by [h]. *)
Definition indexed_by {A I} (h : nat -> I) (l : list A) : list (I * A) :=
  imap (fun i x => (h i, x)) l.

Definition select_para {I} (ib : I * block) : option (I * paragraph) :=
  match snd ib with
  | BPara p => Some (fst ib, p)
  | BTable _ _ => None
  end.

Definition select_table {I} (ib : I * block) : option (I * list row) :=
  match snd ib with
  | BTable _ rows => Some (fst ib, rows)
  | BPara _ => None
  end.

(** The paragraphs of the cells of one table of the body, as
    [_iter_paragraphs] lists them. *)
Definition cell_paragraphs (t : nat) (rows : list row) : list (pref * paragraph) :=
  flat_map (fun '(r, (_, cells)) =>
     flat_map (fun '(c, content) =>
       List.map (fun '(i, para) => (InCell t r c i, para)) (paragraphs_of content))
       (indexed cells))
     (indexed rows).

(** What [replace_placeholders] leaves of the content of a cell: a
    paragraph is still a paragraph, and a table nested in the cell is as it
    was, with all that it holds. *)
Definition cell_kept (content content' : list block) : Prop :=
  Forall2 (fun b b' =>
             match b with
             | BPara _ => exists p', b' = BPara p'
             | BTable _ _ => b' = b
             end) content content'.

Definition nested_kept (doc doc' : document) : Prop :=
  Forall2 (fun b b' =>
             match b with
             | BPara _ => exists p', b' = BPara p'
             | BTable cen rows =>
                 exists rows',
                   b' = BTable cen rows'
                   /\ Forall2 (fun r r' : row =>
                                 fst r' = fst r /\ Forall2 cell_kept (snd r) (snd r'))
                              rows rows'
             end) doc doc'.

(** Values of which one holds a control character, and values of which one
    holds a carriage return. *)
Definition values_with_control : list (str * str) :=
  [(u "客户名称", u "ACME" ++ [1%N]); (u "行业分类", u "Retail"); (u "经营地址", u "1 Main St")].

Definition values_with_return : list (str * str) :=
  [(u "客户名称", u "ACME" ++ [CR] ++ u "Corp"); (u "行业分类", u "Retail");
   (u "经营地址", u "1 Main St")].

(** A template whose tokens lie in one paragraph of the body, and values of
    which one holds a token; a template with braces around a token, and
    values of which one is empty; a template with a token that is split over
    two runs. *)
Definition flat_template : document :=
  [BPara (Paragraph false [RText 0 (u "{{客户名称}} {{行业分类}} {{经营地址}}")])].

Definition values_with_token : list (str * str) :=
  [(u "客户名称", u "ACME Corp"); (u "行业分类", u "Retail"); (u "经营地址", u "{{经营地址}}")].

Definition braced_template : document :=
  [BPara (Paragraph false
            [RText 0 (u "{{客户{{客户{{客户名称}}名称}}名称}} {{行业分类}} {{经营地址}}")])].

Definition values_with_empty : list (str * str) :=
  [(u "客户名称", []); (u "行业分类", u "Retail"); (u "经营地址", u "1 Main St")].

Definition split_template : document :=
  [BPara (Paragraph false [RText 1 (u "客户：{{客户"); RText 2 (u "名称}}，{{ 行业分类 }}")]);
   BTable false [(false, [[BPara (Paragraph false [RText 3 (u "{{经营地址}}")])]])]].

(** What [replace_placeholders] makes of a run and of a paragraph of a tidy
    template. *)
Definition filled_run (values : list (str * str)) (r r' : run) : Prop :=
  run_format r' = run_format r
  /\ forall items, forallb valid_item items = true -> render_all items = run_text r ->
       run_text r' = expand_all values items.

Definition filled_paragraph (values : list (str * str)) (rp rp' : pref * paragraph) : Prop :=
  fst rp' = fst rp
  /\ p_centered (snd rp') = p_centered (snd rp)
  /\ (forall items, forallb valid_item items = true ->
        render_all items = paragraph_text (snd rp) ->
        paragraph_text (snd rp') = expand_all values items)
  /\ ((forall r, In r (p_runs (snd rp)) -> tidy (run_text r)) ->
      Forall2 (filled_run values) (p_runs (snd rp)) (p_runs (snd rp'))).

(** The values that [replace_placeholders] handles as the claim expects:
    each key is simple, each value has no brace and is taken literally, and
    [vs] is a part of the dictionary [values]. *)
Definition usable (values vs : list (str * str)) : Prop :=
  forall key value, In (key, value) vs ->
    simple_key key = true /\ no_brace value = true
    /\ is_literal_template value = true
    /\ dict_lookup values key = Some value.

(* ===================================================================== *)
(** * Script 1: the certificate and the template                          *)
(* ===================================================================== *)

Definition CERTIFICATE_KEYWORDS : list str :=
  Eval vm_compute in [u "房产证"; u "不动产权证"].

(** The test of [find_certificate] on one file: a keyword occurs in the
    base name. *)
Definition is_certificate (f : str) : bool :=
  let name := basename f in
  existsb (fun keyword => contains keyword name) CERTIFICATE_KEYWORDS.

(** [find_certificate(files)] *)
Fixpoint find_certificate (files : list str) : option str :=
  match files with
  | [] => None
  | f :: files' => if is_certificate f then Some f else find_certificate files'
  end.

(** ** The patterns of [parse_certificate_text] *)

Definition NEWLINE : char := 10%N.

(** The classes [[:：]], [[^\n]] and [[0-9\.]]. *)
Definition COLONS : str := Eval vm_compute in u ":：".
Definition is_colon (c : char) : bool := existsb (N.eqb c) COLONS.
Definition not_newline (c : char) : bool := negb (c =? NEWLINE)%N.
Definition digit_or_dot (c : char) : bool :=
  ((ch "0" <=? c) && (c <=? ch "9") || (c =? ch "."))%N.

(** The greedy quantifiers on a class, in the continuation-passing style of
    [re_ws_star]: [cls?], [cls*] and [cls+] take as much as they can and give
    back one character each time the rest of the pattern fails. *)
Definition re_opt (cls : char -> bool) (k : str -> option str) (s : str) : option str :=
  match s with
  | c :: s' =>
    if cls c
    then match k s' with
         | Some r => Some r
         | None => k s
         end
    else k s
  | [] => k s
  end.

Fixpoint re_star (cls : char -> bool) (k : str -> option str) (s : str) : option str :=
  match s with
  | c :: s' =>
    if cls c
    then match re_star cls k s' with
         | Some r => Some r
         | None => k s
         end
    else k s
  | [] => k s
  end.

Definition re_plus (cls : char -> bool) (k : str -> option str) (s : str) : option str :=
  match s with
  | c :: s' => if cls c then re_star cls k s' else None
  | [] => None
  end.

(** A capturing group that ends the pattern: the match is complete when the
    body of the group is, and [m.group(1)] is what the body has consumed. *)
Definition re_capture (body : (str -> option str) -> str -> option str) (s : str)
  : option str :=
  match body Some s with
  | Some rest => Some (take (length s - length rest) s)
  | None => None
  end.

(** The group of one or more characters of a line, and the group of one or
    more digits or dots followed by the rest of the line. *)
Definition line_group : str -> option str := re_capture (re_plus not_newline).

Definition area_group : str -> option str :=
  re_capture (fun k => re_plus digit_or_dot (re_star not_newline k)).

(** [re.search(pattern, text)], for a matcher [m] that gives group 1 of a
    match at the start of its argument: the leftmost position wins. *)
Fixpoint re_search (m : str -> option str) (s : str) : option str :=
  match m s with
  | Some g => Some g
  | None =>
    match s with
    | [] => None
    | _ :: s' => re_search m s'
    end
  end.

(** The dictionary [fields] of [parse_certificate_text], each key with the
    matcher of its pattern. *)
Definition OWNER : str := Eval vm_compute in u "权利人".
Definition LOCATION : str := Eval vm_compute in u "坐落".
Definition AREA : str := Eval vm_compute in u "建筑面积".

Definition certificate_patterns : list (str * (str -> option str)) :=
  [ (OWNER, re_lit OWNER (re_opt is_colon line_group));
    (LOCATION, re_lit LOCATION (re_opt is_colon line_group));
    (AREA, re_lit AREA (re_opt is_colon area_group)) ].

Definition UNRECOGNISED : str := Eval vm_compute in u "未识别".

(** [parse_certificate_text(text)]: the dictionary [data], in insertion
    order. *)
Definition parse_certificate_text (text : str) : list (str * str) :=
  List.map (fun kp : str * (str -> option str) =>
              (fst kp,
               match re_search (snd kp) text with
               | Some g => strip g
               | None => UNRECOGNISED
               end))
           certificate_patterns.

(** ** The template of script 1 *)

(** [replace_placeholder(doc, placeholder, value)] for a non-empty
    placeholder: the paragraphs of the container and, through the cells of
    its tables, the same on each cell. The paragraphs are taken in the order
    of the content; the only exception is that of the setter of
    [paragraph.text], whichever paragraph raises it. *)
Fixpoint replace_placeholder_block (placeholder value : str) (b : block) : result block :=
  match b with
  | BPara p =>
      if contains placeholder (paragraph_text p)
      then let* p' := assign_paragraph_text p (replace (paragraph_text p) placeholder value) in
           Ok (BPara p')
      else Ok b
  | BTable cen rows =>
      let* rows' :=
        mapM (fun r : bool * list (list block) =>
                let* cells := mapM (mapM (replace_placeholder_block placeholder value))
                                   (snd r) in
                Ok (fst r, cells))
             rows in
      Ok (BTable cen rows')
  end.

Definition replace_placeholder (doc : document) (placeholder value : str) : result document :=
  mapM (replace_placeholder_block placeholder value) doc.

(** [insert_photo(doc, placeholder, path)] when [add_picture] succeeds: the
    first paragraph of the body that holds the placeholder loses its text
    (one empty run stays) and gets a run with the picture. *)
Fixpoint insert_photo (doc : document) (placeholder path : str) : document :=
  match doc with
  | [] => []
  | BPara p :: rest =>
    if contains placeholder (paragraph_text p)
    then BPara {| p_centered := p_centered p;
                  p_runs := p_runs (set_paragraph_text p []) ++ [RPicture path] |} :: rest
    else BPara p :: insert_photo rest placeholder path
  | b :: rest => b :: insert_photo rest placeholder path
  end.

(** ** [main] of script 1 *)

(** [name.lower().endswith(ext)] for an extension [ext] made of a dot and of
    small ASCII letters other than k. The only characters that [str.lower]
    turns into small ASCII letters are these letters, their capitals, the
    Kelvin sign (into k) and the dotted capital I (into i and a combining
    dot, which no extension holds); so the test bears on the last
    [len(ext)] characters of the name, with the ASCII capitals folded. *)
Definition ascii_lower (c : char) : char :=
  if ((ch "A" <=? c) && (c <=? ch "Z"))%N then (c + 32)%N else c.

Definition lower_endswith (name ext : str) : bool :=
  (length ext <=? length name)%nat
  && str_eqb (List.map ascii_lower (drop (length name - length ext) name)) ext.




(** Some paragraph of the body holds the placeholder: [insert_photo] reaches
    [add_picture]. *)
Definition holds_placeholder (placeholder : str) (b : block) : bool :=
  match b with
  | BPara p => contains placeholder (paragraph_text p)
  | BTable _ _ => false
  end.

Definition has_placeholder (doc : document) (placeholder : str) : bool :=
  existsb (holds_placeholder placeholder) doc.

(** How a run of script 1 ends: the report is saved, [SystemExit] is raised
    with a message, or an exception of a library (the OCR, python-docx,
    Pillow) or of the system goes through. *)
Inductive outcome :=
| Saved (path : str)
| SystemExit (msg : str)
| Crashed.

Section Script1.

(** What is outside the script: the directory of the script, the OCR of an
    image ([None] when it raises), the date of the day as [strftime] gives
    it, and whether [add_picture] raises on a file. *)
Variable BASE_DIR : str.
Variable ocr_image : str -> option str.
Variable today : str.
Variable add_picture_fails : str -> bool.




End Script1.
(* ===================================================================== *)
(** * Script 2: configuration, photo lists, photo sizes                   *)
(* ===================================================================== *)

(** ** The configuration *)

Definition KEY_TEMPLATE : str := Eval vm_compute in u "template".
Definition KEY_PHOTOS : str := Eval vm_compute in u "photos".
Definition KEY_OUT : str := Eval vm_compute in u "out".

Definition ENV_TEMPLATE : str := Eval vm_compute in u "DUE_DILIGENCE_TEMPLATE".
Definition ENV_PHOTOS : str := Eval vm_compute in u "DUE_DILIGENCE_PHOTOS".
Definition ENV_OUT : str := Eval vm_compute in u "DUE_DILIGENCE_OUT".

Section Config.

(** The values that [json.load] returns: of them [load_config] only uses the
    truth value ([if v]); [JStr] is the value of a string. *)
Variable json : Type.
Variable truthy : json -> bool.
Variable JStr : str -> json.

Variable TEMPLATE_PATH_FIXED DEFAULT_PHOTOS_DIR OUT_DIR_FIXED : str.

(** [cfg[key] = os.environ.get(var, cfg[key])], for a key that [cfg] has. *)
Definition env_override (var key : str) (environ : gmap str str) (cfg : gmap str json)
  : gmap str json :=
  match environ !! var with
  | Some v => <[key := JStr v]> cfg
  | None => cfg
  end.

(** [load_config()]. [data] is the dictionary read from [CONFIG_PATH]:
    [None] when the file does not exist, cannot be read or parsed, or does
    not hold a JSON object. *)
Definition load_config (data : option (gmap str json)) (environ : gmap str str)
  : gmap str json :=
  let cfg : gmap str json :=
    {[ KEY_TEMPLATE := JStr TEMPLATE_PATH_FIXED;
       KEY_PHOTOS := JStr DEFAULT_PHOTOS_DIR;
       KEY_OUT := JStr OUT_DIR_FIXED ]} in
  let cfg :=
    match data with
    | Some d => filter (fun kv => truthy kv.2 = true) d ∪ cfg
    | None => cfg
    end in
  env_override ENV_OUT KEY_OUT environ
    (env_override ENV_PHOTOS KEY_PHOTOS environ
       (env_override ENV_TEMPLATE KEY_TEMPLATE environ cfg)).



End Config.

(** ** The list of photos *)

(** [s.split(sep)] for a separator of one character. *)
Fixpoint split_on (sep : char) (s : str) : list str :=
  match s with
  | [] => [[]]
  | c :: s' =>
    if (c =? sep)%N then [] :: split_on sep s'
    else match split_on sep s' with
         | piece :: pieces => (c :: piece) :: pieces
         | [] => [[c]]
         end
  end.

(** The order of [str]: by code points, a prefix before its extensions. *)
Fixpoint str_leb (a b : str) : bool :=
  match a, b with
  | [], _ => true
  | _ :: _, [] => false
  | x :: a', y :: b' =>
    if (x <? y)%N then true else if (y <? x)%N then false else str_leb a' b'
  end.

Definition str_le (a b : str) : Prop := str_leb a b = true.

#[global] Instance str_le_dec (a b : str) : Decision (str_le a b).
Proof. unfold str_le. apply _. Defined.

Definition IMAGE_EXTS : list str :=
  Eval vm_compute in
  [u ".jpg"; u ".jpeg"; u ".png"; u ".bmp"; u ".gif"; u ".webp"; u ".tif"; u ".tiff";
   u ".heic"; u ".heif"].

Definition has_image_ext (name : str) : bool := existsb (lower_endswith name) IMAGE_EXTS.

Definition COMMA : char := ch ",".

Section Expand.

(** The listing of directories is outside the file-system model:
    [walk path] stands for [os.walk(path)], with the [root] and the [files]
    of each directory visited, and [listdir path] for [os.listdir(path)]. *)
Variable walk : str -> list (str * list str).
Variable listdir : str -> list str.

(** [expand_photos_arg(arg, recursive=recursive)]. [out.sort()] sorts by the
    order of [str]; the order is total, so that the sorted list does not
    depend on the algorithm. *)
Definition expand_photos_arg (fs : filesystem) (arg : str) (recursive : bool) : list str :=
  match arg with
  | [] => []
  | _ =>
    let path := strip arg in
    if isdir fs path then
      let walker := if recursive then walk path else [(path, listdir path)] in
      merge_sort str_le
        (flat_map (fun rf : str * list str =>
                     List.map (path_join (fst rf)) (List.filter has_image_ext (snd rf)))
                  walker)
    else
      List.filter (path_exists fs)
        (List.filter (fun piece => negb (bool_decide (piece = [])))
                     (List.map strip (split_on COMMA path)))
  end.

End Expand.

(** ** The size of a photo prepared for Word *)

Section PhotoSize.

Variable rnd : Q -> Q.

(** The resizing step of [_prepare_photo_for_word]: the size of [img] after
    [if largest > target_px: ... img.resize(...)], for an image of [width]
    by [height] pixels (after [exif_transpose]). *)
Definition resized_for_word (width height target_px : Z) : result (Z * Z) :=
  let largest := Z.max width height in
  if target_px <? largest then
    let scale := true_div rnd target_px largest in
    resize (int_of_float (int_mul_float rnd width scale))
           (int_of_float (int_mul_float rnd height scale))
  else Ok (width, height).

(** The [try] block of [_prepare_photo_for_word] for a source that is not
    HEIC and that Pillow opens, as far as the geometry goes: where the image
    lies on the canvas that is saved to [out_jpg], or the exception that
    sends the function to its fallback, the copy of the source as it is. *)
Definition prepared_for_word (width height target_px : Z) : result placement :=
  let* '(w, h) := resized_for_word width height target_px in
  _letterbox_image rnd w h CANVAS_SIZE CANVAS_MARGIN.

End PhotoSize.
(* ===================================================================== *)
(** * Vocabulary of the further properties                                *)
(* ===================================================================== *)

(** A string without white space at either end. *)
Definition trimmed (s : str) : Prop :=
  starts_outside is_space s /\ starts_outside is_space (rev s).

(** What the patterns of 权利人 and 坐落 capture of the rest [line] of the
    line that follows the label: the line without its leading colon, unless
    nothing follows the colon. *)
Definition after_colon (line : str) : str :=
  match line with
  | c :: d :: l => if is_colon c then d :: l else line
  | _ => line
  end.

(** [replace_placeholder] without the exception: what becomes of a
    paragraph, of a block and of the document, and the paragraphs whose new
    text the setter accepts. *)
Definition placed_paragraph (placeholder value : str) (p : paragraph) : paragraph :=
  if contains placeholder (paragraph_text p)
  then set_paragraph_text p (stored_text (replace (paragraph_text p) placeholder value))
  else p.

Fixpoint placed_block (placeholder value : str) (b : block) : block :=
  match b with
  | BPara p => BPara (placed_paragraph placeholder value p)
  | BTable cen rows =>
      BTable cen
        (List.map (fun r : bool * list (list block) =>
                     (fst r, List.map (List.map (placed_block placeholder value)) (snd r)))
                  rows)
  end.

Definition placed (doc : document) (placeholder value : str) : document :=
  List.map (placed_block placeholder value) doc.

Definition placeable (placeholder value : str) (p : paragraph) : bool :=
  negb (contains placeholder (paragraph_text p))
  || forallb xml_char (replace (paragraph_text p) placeholder value).



(** The paths of a list written with a comma and a space between them. *)
Fixpoint join_comma (ps : list str) : str :=
  match ps with
  | [] => []
  | p :: ps' =>
    match ps' with
    | [] => p
    | _ => p ++ COMMA :: ch " " :: join_comma ps'
    end
  end.

(** The paragraph that a reference designates in a document. *)
Definition paragraph_at (ref : pref) (doc : document) : option paragraph :=
  match ref with
  | InBody i =>
    match doc !! i with
    | Some (BPara p) => Some p
    | _ => None
    end
  | InCell t r c i =>
    match doc !! t with
    | Some (BTable _ rows) =>
      match rows !! r with
      | Some (_, cells) =>
        match cells !! c with
        | Some content =>
          match content !! i with
          | Some (BPara p) => Some p
          | _ => None
          end
        | None => None
        end
      | None => None
      end
    | _ => None
    end
  end.

(** The paragraph that [_find_photo_anchor] adds when it finds no anchor. *)
Definition SECTION_TITLE : paragraph :=
  Eval vm_compute in Paragraph false [RText 0 (u "上门核实图片：")].

(** A value that the wizard accepts for a field: not empty, and without
    white space at its ends. *)
Definition entered (v : str) : Prop := v <> [] /\ strip v = v.

(** The first [n] fields have been entered. *)
Definition filled (n : nat) (fields : gmap str str) : Prop :=
  Forall (fun key => exists v, fields !! key = Some v /\ entered v)
         (take n PLACEHOLDER_KEYS).

(** A path given in a comma-separated list. *)
Definition listable (p : str) : Prop := p <> [] /\ trimmed p /\ ~ In COMMA p.




(** [sanitize_filename] on one character. *)
Definition blot (c : char) : char := if is_forbidden c then ch "_" else c.

(** What holds of the states that a session of the wizard goes through:
    the fields asked so far have been entered, and the photos are those of
    the default directory or come from a stripped, non-empty answer. *)
Definition photos_chosen (expand : str -> list str) (default_photos_dir : str)
           (photos : list str) : Prop :=
  photos = cached_photos expand default_photos_dir
  \/ exists arg, entered arg /\ photos = expand arg.

Definition wizard_inv (expand : str -> list str) (default_photos_dir : str)
           (st : wstate) : Prop :=
  match st with
  | AskField i fields => (i < 3)%nat /\ filled i fields
  | AskPhotos fields => filled 3 fields
  | AskConfirm fields photos =>
      filled 3 fields /\ photos_chosen expand default_photos_dir photos
  | _ => True
  end.

(** A matcher whose matches stay matches when the subject is extended. *)
Definition extends (k : str -> option str) : Prop :=
  forall s r t, k s = Some r -> is_Some (k (s ++ t)).
(* ===================================================================== *)
(** * Properties                                                          *)
(* ===================================================================== *)

(** ** Strings *)

Lemma lstrip_all_space (s : str) : forallb is_space s = true -> lstrip s = [].
Proof.
  induction s as [|c s IH]; simpl; [done|].
  intros [Hc Hs]%andb_prop. rewrite Hc. auto.
Qed.

Lemma strip_all_space (s : str) : forallb is_space s = true -> strip s = [].
Proof.
  intros H. unfold strip, rstrip. by rewrite (lstrip_all_space s H).
Qed.

Lemma str_or_nonempty (a b : str) : b <> [] -> str_or a b <> [].
Proof. destruct a; simpl; congruence. Qed.

Lemma underscore_allowed : is_forbidden (ch "_") = false.
Proof. reflexivity. Qed.

(** C10. Whatever the name is, [sanitize_filename] returns a string that is
    not empty and holds none of the nine forbidden characters; for an empty
    or all-white name it returns the default name 未命名. *)
Theorem sanitize_filename_wellformed (name : str) :
  sanitize_filename name <> []
  /\ (forall c, In c (sanitize_filename name) -> is_forbidden c = false)
  /\ (forallb is_space name = true -> sanitize_filename name = DEFAULT_NAME).
Proof.
  unfold sanitize_filename. split; [|split].
  - set (safe := str_or _ _).
    assert (Hsafe : safe <> []) by (apply str_or_nonempty; discriminate).
    destruct safe; [done | discriminate].
  - intros c [x [<- _]]%in_map_iff.
    destruct (is_forbidden x) eqn:E; [apply underscore_allowed | exact E].
  - intros Hws. destruct name as [|c name']; [reflexivity|].
    assert (Hs : strip (str_or (c :: name') DEFAULT_NAME) = [])
      by (by apply strip_all_space).
    rewrite Hs. reflexivity.
Qed.

Lemma sanitize_filename_wellformed_witness :
  sanitize_filename (u "  ") = DEFAULT_NAME.
Proof.
  apply (proj2 (proj2 (sanitize_filename_wellformed (u "  ")))). reflexivity.
Defined.

(** ** Classification of the photos *)

Definition in_category (c : category) (f : str) : bool :=
  match first_match (basename f) with
  | Some c' => category_eqb c' c
  | None => false
  end.

Lemma classify_one_bucket (info : buckets) (f : str) (c : category) :
  bucket (classify_one info f) c
  = bucket info c ++ (if in_category c f then [f] else []).
Proof.
  unfold classify_one, in_category, first_match, rules. simpl.
  destruct (startswith (basename f) _); simpl;
    [destruct c; simpl; by rewrite ?app_nil_r|].
  destruct (contains _ (basename f)); simpl;
    [destruct c; simpl; by rewrite ?app_nil_r|].
  destruct (contains _ (basename f)); simpl;
    [destruct c; simpl; by rewrite ?app_nil_r|].
  destruct (contains _ (basename f) || contains _ (basename f)); simpl;
    destruct c; simpl; by rewrite ?app_nil_r.
Qed.

Lemma classify_loop_bucket (files : list str) (info : buckets) (c : category) :
  bucket (foldl classify_one info files) c
  = bucket info c ++ List.filter (in_category c) files.
Proof.
  revert info. induction files as [|f files IH]; intros info; simpl.
  - by rewrite app_nil_r.
  - rewrite IH, classify_one_bucket.
    destruct (in_category c f); simpl; by rewrite <- ?app_assoc, ?app_nil_r.
Qed.

Lemma category_eqb_eq (a b : category) : category_eqb a b = true -> a = b.
Proof. destruct a, b; simpl; congruence. Qed.

(** C8. Each bucket of [classify_photos] is the input list filtered by "the
    first rule that matches the base name is the rule of this bucket": the
    order of the input is kept; a file is in at most one bucket; a file that
    no rule matches is in none. *)
Theorem classify_photos_first_match (files : list str) :
  (forall c, bucket (classify_photos files) c = List.filter (in_category c) files)
  /\ (forall f c1 c2,
        In f (bucket (classify_photos files) c1) ->
        In f (bucket (classify_photos files) c2) -> c1 = c2)
  /\ (forall f c,
        first_match (basename f) = None -> ~ In f (bucket (classify_photos files) c)).
Proof.
  assert (H : forall c, bucket (classify_photos files) c = List.filter (in_category c) files).
  { intros c. unfold classify_photos. rewrite classify_loop_bucket. by destruct c. }
  split; [exact H|split].
  - intros f c1 c2. rewrite !H. intros [_ H1]%filter_In [_ H2]%filter_In.
    unfold in_category in *. destruct (first_match (basename f)) as [c'|]; [|done].
    apply category_eqb_eq in H1, H2. congruence.
  - intros f c Hnone. rewrite H. intros [_ Hc]%filter_In.
    unfold in_category in Hc. by rewrite Hnone in Hc.
Qed.

Lemma classify_photos_first_match_witness :
  let files := [u "d/走访1.jpg"; u "d/贝壳.png"; u "d/走访贝壳.jpg"; u "d/x.jpg"] in
  bucket (classify_photos files) Visit = [u "d/走访1.jpg"; u "d/走访贝壳.jpg"]
  /\ ~ In (u "d/x.jpg") (bucket (classify_photos files) Appraisal).
Proof.
  intros files. split.
  - rewrite (proj1 (classify_photos_first_match files) Visit). reflexivity.
  - apply (proj2 (proj2 (classify_photos_first_match files))). reflexivity.
Defined.
(** ** Output names *)

Lemma N_of_ascii_inj (a b : ascii) : N_of_ascii a = N_of_ascii b -> a = b.
Proof. intros H. rewrite <- (ascii_N_embedding a), <- (ascii_N_embedding b). by rewrite H. Qed.

Lemma list_ascii_of_string_inj (a b : string) :
  list_ascii_of_string a = list_ascii_of_string b -> a = b.
Proof.
  intros H. rewrite <- (string_of_list_ascii_of_string a),
    <- (string_of_list_ascii_of_string b). by rewrite H.
Qed.

Lemma map_N_of_ascii_inj (a b : list ascii) :
  List.map N_of_ascii a = List.map N_of_ascii b -> a = b.
Proof.
  revert b. induction a as [|x a IH]; intros [|y b]; simpl; try done.
  intros [= Hxy Hab]. f_equal; [by apply N_of_ascii_inj | by apply IH].
Qed.

Lemma str_of_nat_inj (i j : nat) : str_of_nat i = str_of_nat j -> i = j.
Proof.
  unfold str_of_nat. intros H.
  apply map_N_of_ascii_inj, list_ascii_of_string_inj in H.
  apply (f_equal NilEmpty.uint_of_string) in H.
  rewrite !NilEmpty.usu in H.
  injection H as H. apply (f_equal Nat.of_uint) in H.
  by rewrite !DecimalNat.Unsigned.of_to in H.
Qed.

Lemma candidate_inj (root ext : str) (i j : nat) :
  candidate root ext i = candidate root ext j -> i = j.
Proof.
  unfold candidate. intros H.
  apply app_inv_head in H. apply app_inv_head in H.
  rewrite !app_assoc in H. apply app_inv_tail in H. apply app_inv_tail in H.
  by apply str_of_nat_inj.
Qed.

Lemma path_exists_dom (fs : filesystem) (p : str) :
  path_exists fs p = true <-> p ∈ dom fs.
Proof.
  unfold path_exists. rewrite bool_decide_eq_true. symmetry. apply elem_of_dom.
Qed.

(** What the loop returns, and what it has seen when it runs out of fuel. *)
Lemma next_candidate_some (fs : filesystem) root ext fuel idx out :
  next_candidate fs root ext fuel idx = Some out ->
  exists k, (idx <= k < idx + fuel)%nat /\ out = candidate root ext k
            /\ path_exists fs out = false
            /\ forall j, (idx <= j < k)%nat -> path_exists fs (candidate root ext j) = true.
Proof.
  revert idx. induction fuel as [|fuel IH]; intros idx; simpl; [done|].
  destruct (path_exists fs (candidate root ext idx)) eqn:E; simpl.
  - intros (k & Hk & -> & Hno & Hall)%IH. exists k. repeat split; [lia|lia|done|].
    intros j Hj. destruct (decide (j = idx)) as [->|]; [done|]. apply Hall. lia.
  - intros [= <-]. exists idx. repeat split; [lia|lia|done|]. intros j Hj. lia.
Qed.

Lemma next_candidate_none (fs : filesystem) root ext fuel idx :
  next_candidate fs root ext fuel idx = None ->
  forall j, (idx <= j < idx + fuel)%nat -> path_exists fs (candidate root ext j) = true.
Proof.
  revert idx. induction fuel as [|fuel IH]; intros idx; simpl; [lia|].
  destruct (path_exists fs (candidate root ext idx)) eqn:E; simpl; [|done].
  intros H j Hj. destruct (decide (j = idx)) as [->|]; [done|]. apply (IH _ H). lia.
Qed.

(** A finite file system cannot hold more candidates than it has entries. *)
Lemma next_candidate_enough_fuel (fs : filesystem) root ext idx :
  is_Some (next_candidate fs root ext (S (size fs)) idx).
Proof.
  destruct (next_candidate fs root ext (S (size fs)) idx) eqn:E; [by eexists|].
  exfalso.
  pose proof (next_candidate_none _ _ _ _ _ E) as Hall.
  set (cs := List.map (candidate root ext) (seq idx (S (size fs)))).
  assert (Hnd : NoDup cs).
  { apply NoDup_fmap_2; [|apply NoDup_seq]. intros i j. apply candidate_inj. }
  assert (Hsub : (list_to_set cs : gset str) ⊆ dom fs).
  { intros p [j [-> Hj]]%elem_of_list_to_set%list_elem_of_fmap.
    apply path_exists_dom, Hall. apply elem_of_seq in Hj. lia. }
  apply subseteq_size in Hsub.
  rewrite size_list_to_set, size_dom in Hsub by done.
  unfold cs in Hsub. rewrite length_map, length_seq in Hsub. lia.
Qed.

Lemma rfind_from_range (c : char) (s : str) (i : Z) :
  rfind_from i c s = -1 \/ i <= rfind_from i c s < i + Z.of_nat (length s).
Proof.
  revert i. induction s as [|x s IH]; intros i; simpl; [by left|].
  destruct (IH (i + 1)) as [E|E].
  - rewrite E. simpl. destruct (x =? c)%N; [right; lia | by left].
  - destruct (Z.leb_spec 0 (rfind_from (i + 1) c s)); [right; lia|].
    destruct (x =? c)%N; [right; lia | by left].
Qed.

Lemma rfind_from_app (c : char) (a b : str) (i : Z) :
  0 <= i ->
  rfind_from i c (a ++ b)
  = if 0 <=? rfind_from (i + Z.of_nat (length a)) c b
    then rfind_from (i + Z.of_nat (length a)) c b
    else rfind_from i c a.
Proof.
  revert i. induction a as [|x a IH]; intros i Hi.
  - simpl. rewrite Z.add_0_r.
    destruct (rfind_from_range c b i) as [E|E].
    + by rewrite E.
    + destruct (Z.leb_spec 0 (rfind_from i c b)); [done | lia].
  - cbn [app rfind_from length]. rewrite IH by lia.
    replace (i + 1 + Z.of_nat (length a)) with (i + Z.of_nat (S (length a))) by lia.
    destruct (Z.leb_spec 0 (rfind_from (i + Z.of_nat (S (length a))) c b)) as [H|H].
    + destruct (Z.leb_spec 0 (rfind_from (i + Z.of_nat (S (length a))) c b)); [done|lia].
    + done.
Qed.

Lemma rfind_from_absent (c : char) (s : str) (i : Z) :
  forallb (fun x => negb (x =? c)%N) s = true -> rfind_from i c s = -1.
Proof.
  revert i. induction s as [|x s IH]; intros i; simpl; [done|].
  intros [Hx Hs]%andb_prop. rewrite (IH _ Hs). simpl.
  by destruct (x =? c)%N.
Qed.

Lemma has_non_dot_app (b rest : str) :
  existsb (fun c => negb (c =? EXTSEP)%N) b = true ->
  has_non_dot (length b) (b ++ rest) = true.
Proof.
  induction b as [|c b IH]; simpl; [done|].
  destruct (c =? EXTSEP)%N; simpl; [exact IH | done].
Qed.

Lemma rfind_docx_dot (X : str) :
  rfind (X ++ u ".docx") EXTSEP = Z.of_nat (length X).
Proof.
  unfold rfind. rewrite rfind_from_app by lia.
  replace (rfind_from (0 + Z.of_nat (length X)) EXTSEP (u ".docx"))
    with (0 + Z.of_nat (length X)) by reflexivity.
  destruct (Z.leb_spec 0 (0 + Z.of_nat (length X))); lia.
Qed.

Lemma rfind_docx_sep (X : str) :
  rfind (X ++ u ".docx") SEP = rfind X SEP.
Proof.
  unfold rfind. rewrite rfind_from_app by lia.
  by replace (rfind_from (0 + Z.of_nat (length X)) SEP (u ".docx")) with (-1) by reflexivity.
Qed.

(** A path [X.docx] whose file name is not made of dots only splits into
    [X] and [.docx]. *)
Lemma splitext_docx (X : str) :
  existsb (fun c => negb (c =? EXTSEP)%N) (basename X) = true ->
  splitext (X ++ u ".docx") = (X, u ".docx").
Proof.
  intros Hb. unfold splitext. rewrite rfind_docx_dot, rfind_docx_sep.
  pose proof (rfind_from_range SEP X 0) as Hr. fold (rfind X SEP) in Hr.
  assert (Hlt : (rfind X SEP <? Z.of_nat (length X)) = true) by (apply Z.ltb_lt; lia).
  rewrite Hlt. simpl andb.
  unfold basename in Hb. unfold slice_from, slice_to in *.
  set (n := Z.to_nat (rfind X SEP + 1)) in *.
  assert (Hn : (n <= length X)%nat) by lia.
  rewrite drop_app_le by done.
  replace (Z.to_nat (Z.of_nat (length X) - (rfind X SEP + 1)))
    with (length (drop n X)) by (rewrite length_drop; lia).
  rewrite (has_non_dot_app _ _ Hb).
  rewrite Nat2Z.id. by rewrite take_app_length, drop_app_length.
Qed.

Lemma next_nonconflicting_path_terminates (fs : filesystem) (path : str) :
  next_nonconflicting_path_fuel (S (size fs)) fs path
  = Some (next_nonconflicting_path fs path).
Proof.
  unfold next_nonconflicting_path.
  destruct (next_nonconflicting_path_fuel (S (size fs)) fs path) eqn:E; [done|].
  exfalso. unfold next_nonconflicting_path_fuel in E.
  destruct (path_exists fs path); cbn [negb] in E; [|done].
  destruct (splitext path) as [root ext].
  destruct (next_candidate_enough_fuel fs root ext 1) as [? H]. congruence.
Qed.

Lemma next_nonconflicting_path_fresh (fs : filesystem) (path : str) :
  path_exists fs (next_nonconflicting_path fs path) = false.
Proof.
  pose proof (next_nonconflicting_path_terminates fs path) as E.
  unfold next_nonconflicting_path_fuel in E.
  destruct (path_exists fs path) eqn:Ep; cbn [negb] in E.
  - destruct (splitext path) as [root ext].
    apply next_candidate_some in E as (k & _ & _ & Hno & _). done.
  - injection E as <-. done.
Qed.

Lemma next_nonconflicting_path_first (fs : filesystem) (path root ext : str) (k : nat) :
  splitext path = (root, ext) ->
  path_exists fs path = true ->
  (forall j, (1 <= j < k)%nat -> path_exists fs (candidate root ext j) = true) ->
  (1 <= k)%nat ->
  path_exists fs (candidate root ext k) = false ->
  next_nonconflicting_path fs path = candidate root ext k.
Proof.
  intros Hsplit Hp Hbelow Hk Hfree.
  pose proof (next_nonconflicting_path_terminates fs path) as E.
  unfold next_nonconflicting_path_fuel in E. rewrite Hp, Hsplit in E. cbn [negb] in E.
  apply next_candidate_some in E as (k' & Hk' & E & Hno & Hall).
  rewrite E. f_equal.
  destruct (Nat.lt_trichotomy k k') as [Hlt|[->|Hgt]]; [|done|].
  - rewrite Hall in Hfree by lia. done.
  - rewrite E, Hbelow in Hno by lia. done.
Qed.

Lemma save_keeps (fs : filesystem) (doc : document) (out p : str) (o : fobj) :
  path_exists fs out = false -> fs !! p = Some o -> save doc out fs !! p = Some o.
Proof.
  intros Hout Hp. unfold save. rewrite lookup_insert_ne; [done|].
  intros ->. unfold path_exists in Hout. apply bool_decide_eq_false in Hout.
  apply Hout. by eexists.
Qed.

Lemma path_exists_save (fs : filesystem) (doc : document) (out p : str) :
  path_exists (save doc out fs) p = bool_decide (p = out) || path_exists fs p.
Proof.
  unfold path_exists, save. destruct (decide (p = out)) as [->|Hne].
  - rewrite lookup_insert_eq, bool_decide_eq_true_2 by done.
    rewrite bool_decide_eq_true_2 by (by eexists). done.
  - rewrite lookup_insert_ne by done. by rewrite (bool_decide_eq_false_2 (p = out)).
Qed.

(** C7. [next_nonconflicting_path] returns (its loop ends, so it does
    return) a path at which nothing exists: the desired path when that is
    free, and else the candidate [root (idx)ext] of the least index
    [idx >= 1] that is free. Saving there keeps every earlier file. For a
    name [X.docx] that exists, the second generation is saved as [X (1).docx]
    and the third as [X (2).docx], when these are free. *)
Theorem next_nonconflicting_path_spec (fs : filesystem) (path : str) :
  let out := next_nonconflicting_path fs path in
  next_nonconflicting_path_fuel (S (size fs)) fs path = Some out
  /\ path_exists fs out = false
  /\ (path_exists fs path = false -> out = path)
  /\ (path_exists fs path = true ->
      exists idx, (1 <= idx)%nat
        /\ out = candidate (fst (splitext path)) (snd (splitext path)) idx
        /\ forall j, (1 <= j < idx)%nat ->
             path_exists fs (candidate (fst (splitext path)) (snd (splitext path)) j) = true)
  /\ (forall doc p o, fs !! p = Some o -> save doc out fs !! p = Some o)
  /\ (forall X doc2 doc3,
        path = X ++ u ".docx" ->
        existsb (fun c => negb (c =? EXTSEP)%N) (basename X) = true ->
        path_exists fs path = true ->
        path_exists fs (X ++ u " (1).docx") = false ->
        path_exists fs (X ++ u " (2).docx") = false ->
        let fs2 := save doc2 out fs in
        let out3 := next_nonconflicting_path fs2 path in
        out = X ++ u " (1).docx"
        /\ out3 = X ++ u " (2).docx"
        /\ forall p o, fs !! p = Some o -> save doc3 out3 fs2 !! p = Some o).
Proof.
  intros out. pose proof (next_nonconflicting_path_terminates fs path) as E.
  pose proof (next_nonconflicting_path_fresh fs path) as Hfresh.
  fold out in E, Hfresh.
  split; [done|]. split; [done|]. split; [|split; [|split]].
  - intros Hp. unfold next_nonconflicting_path_fuel in E. rewrite Hp in E.
    cbn [negb] in E. congruence.
  - intros Hp. unfold next_nonconflicting_path_fuel in E. rewrite Hp in E.
    cbn [negb] in E. destruct (splitext path) as [root ext]. cbn [fst snd].
    apply next_candidate_some in E as (k & Hk & -> & _ & Hall).
    exists k. split; [lia|]. split; [done|]. intros j Hj. apply Hall. lia.
  - intros doc p o. by apply save_keeps.
  - intros X doc2 doc3 -> HX Hp H1 H2 fs2 out3.
    pose proof (splitext_docx X HX) as Hsplit.
    assert (Hc1 : candidate X (u ".docx") 1 = X ++ u " (1).docx") by reflexivity.
    assert (Hc2 : candidate X (u ".docx") 2 = X ++ u " (2).docx") by reflexivity.
    assert (Hout : out = X ++ u " (1).docx").
    { unfold out. rewrite <- Hc1. apply (next_nonconflicting_path_first _ _ _ _ _ Hsplit Hp).
      - intros j Hj. lia.
      - lia.
      - by rewrite Hc1. }
    assert (Hout3 : out3 = X ++ u " (2).docx").
    { unfold out3. rewrite <- Hc2.
      apply (next_nonconflicting_path_first _ _ _ _ _ Hsplit).
      - unfold fs2. rewrite path_exists_save, Hp. apply orb_true_r.
      - intros j Hj. assert (j = 1%nat) as -> by lia.
        unfold fs2. rewrite path_exists_save, Hc1, Hout.
        by rewrite bool_decide_eq_true_2.
      - lia.
      - unfold fs2. rewrite path_exists_save, Hc2, H2, Hout.
        rewrite bool_decide_eq_false_2; [done|].
        intros Heq. apply app_inv_head in Heq. discriminate. }
    split; [done|]. split; [done|].
    intros p o Hpo. apply save_keeps.
    + rewrite Hout3. unfold fs2. rewrite path_exists_save, H2, Hout.
      rewrite bool_decide_eq_false_2; [done|].
      intros Heq. apply app_inv_head in Heq. discriminate.
    + by apply save_keeps.
Qed.

Lemma next_nonconflicting_path_spec_witness :
  let fs : filesystem := {[ u "out/A.docx" := FData ]} in
  next_nonconflicting_path fs (u "out/A.docx") = u "out/A (1).docx"
  /\ next_nonconflicting_path (save [] (u "out/A (1).docx") fs) (u "out/A.docx")
     = u "out/A (2).docx".
Proof.
  intros fs.
  destruct (next_nonconflicting_path_spec fs (u "out/A.docx"))
    as (_ & _ & _ & _ & _ & H).
  destruct (H (u "out/A") [] []) as (H1 & H2 & _); try (vm_compute; reflexivity).
  split; [exact H1|]. rewrite H1 in H2. exact H2.
Defined.

(** ** Validation of the template *)

Lemma makedirs_files (fs fs1 : filesystem) (p : str) :
  makedirs fs p = Ok fs1 -> files fs1 = files fs.
Proof.
  unfold makedirs. destruct (fs !! p) as [[]|] eqn:E; intros [= <-]; try done.
  unfold files. apply map_filter_insert_not'; [done|].
  intros y. rewrite E. done.
Qed.

Lemma makedirs_lookup (fs fs1 : filesystem) (p q : str) (d : document) :
  makedirs fs p = Ok fs1 -> fs !! q = Some (FDocx d) -> fs1 !! q = Some (FDocx d).
Proof.
  unfold makedirs. destruct (fs !! p) as [[]|] eqn:E; intros [= <-] Hq; try done.
  rewrite lookup_insert_ne; [done|]. intros ->. congruence.
Qed.

Lemma inspect_loaded (fs : filesystem) (path : str) (keys : list str) (doc : document) :
  fs !! path = Some (FDocx doc) ->
  inspect_template_placeholders fs path keys
  = Ok (List.map (fun key => (key, count_in doc key)) keys).
Proof.
  intros H. unfold inspect_template_placeholders, path_exists, Document.
  rewrite H. rewrite bool_decide_eq_true_2 by (by eexists). reflexivity.
Qed.

Lemma zero_count_keys (doc : document) (keys : list str) :
  List.map fst (List.filter (fun kc : str * nat => (snd kc =? 0)%nat)
                            (List.map (fun key => (key, count_in doc key)) keys))
  = List.filter (fun key => (count_in doc key =? 0)%nat) keys.
Proof.
  induction keys as [|k keys IH]; simpl; [done|].
  destruct (count_in doc k =? 0)%nat; simpl; by rewrite IH.
Qed.

(** C2. When the template lacks the token of some required key,
    [generate_report] raises before any file is created, and the keys named
    by the error are exactly the required keys that
    [inspect_template_placeholders] counts zero times. (The output directory
    must be usable: absent, or a directory.) *)
Theorem generate_report_missing_placeholders
    (prepare : filesystem -> str -> str -> str * filesystem)
    (add_picture_error : str -> option str)
    (cfg : config) (fields : gmap str str) (photos : list str)
    (fs : filesystem) (doc : document) :
  fs !! cfg_template cfg = Some (FDocx doc) ->
  (fs !! cfg_out cfg = None \/ fs !! cfg_out cfg = Some FDir) ->
  Exists (fun key => count_in doc key = 0%nat) PLACEHOLDER_KEYS ->
  exists fs' missing stats,
    generate_report prepare add_picture_error cfg fields photos fs
    = (fs', Raise (ValueError missing))
    /\ files fs' = files fs
    /\ fs' !! cfg_template cfg = Some (FDocx doc)
    /\ inspect_template_placeholders fs' (cfg_template cfg) PLACEHOLDER_KEYS = Ok stats
    /\ (forall key, In key missing <-> In (key, 0%nat) stats)
    /\ (forall key, In key missing <-> In key PLACEHOLDER_KEYS /\ count_in doc key = 0%nat).
Proof.
  intros Htpl Hout Hzero.
  assert (Hmk : exists fs1, makedirs fs (cfg_out cfg) = Ok fs1).
  { unfold makedirs. destruct Hout as [-> | ->]; by eexists. }
  destruct Hmk as [fs1 Hmk].
  pose proof (makedirs_lookup _ _ _ _ _ Hmk Htpl) as Htpl1.
  set (missing := List.filter (fun key => (count_in doc key =? 0)%nat) PLACEHOLDER_KEYS).
  assert (Hmem : forall key,
             In key missing <-> In key PLACEHOLDER_KEYS /\ count_in doc key = 0%nat).
  { intros key. unfold missing. rewrite filter_In, Nat.eqb_eq. done. }
  exists fs1, missing, (List.map (fun key => (key, count_in doc key)) PLACEHOLDER_KEYS).
  split; [|split; [|split; [|split; [|split]]]].
  - unfold generate_report. rewrite Hmk.
    assert (Hex : path_exists fs1 (cfg_template cfg) = true).
    { unfold path_exists. apply bool_decide_eq_true_2. by eexists. }
    rewrite Hex. cbn [negb].
    rewrite (inspect_loaded _ _ _ _ Htpl1), zero_count_keys. fold missing.
    destruct missing as [|k ks] eqn:Em; [|done].
    exfalso. apply Exists_exists in Hzero as (key & Hin & Hc).
    apply list_elem_of_In in Hin.
    destruct (proj2 (Hmem key) (conj Hin Hc)).
  - by apply makedirs_files in Hmk.
  - done.
  - by apply inspect_loaded.
  - intros key. rewrite Hmem, in_map_iff. split.
    + intros [Hin Hc]. exists key. by rewrite Hc.
    + intros (k & [= -> Hc] & Hin). done.
  - exact Hmem.
Qed.

Lemma generate_report_missing_placeholders_witness :
  let cfg := Config (u "tpl.docx") (u "out") in
  let fs : filesystem := {[ u "tpl.docx" := FDocx template_without_address ]} in
  exists fs',
    generate_report (fun fs _ _ => ([], fs)) (fun _ => None) cfg ∅ [] fs
    = (fs', Raise (ValueError [u "经营地址"]))
    /\ files fs' = files fs.
Proof.
  intros cfg fs.
  destruct (generate_report_missing_placeholders
              (fun fs _ _ => ([], fs)) (fun _ => None) cfg ∅ [] fs template_without_address)
    as (fs' & missing & stats & Hrun & Hfiles & _ & _ & _ & Hmem).
  - reflexivity.
  - left. reflexivity.
  - unfold PLACEHOLDER_KEYS. do 2 apply Exists_cons_tl. apply Exists_cons_hd.
    vm_compute. reflexivity.
  - exists fs'. split; [|exact Hfiles].
    rewrite Hrun. vm_compute in Hrun. injection Hrun as _ <-. reflexivity.
Defined.

(** ** Photo insertion *)

Lemma insert_photos_no_clear_counterexample :
  let fs : filesystem := {[ u "p/a.heic" := FData ]} in
  List.map (fun rp => has_photo_token (snd rp))
           (_iter_paragraphs
              (fst (insert_photos no_preparation no_picture_error
                      template_with_photo_token [] (u "out") fs))) = [true]
  /\ List.map (fun rp => has_photo_token (snd rp))
              (_iter_paragraphs
                 (fst (insert_photos no_preparation no_picture_error
                         template_with_photo_token [u "p/a.heic"] (u "out") fs))) = [true].
Proof. split; vm_compute; reflexivity. Qed.

(** C4, amended. When no photo is available after preparation (the list is
    empty, or no photo could be prepared), [insert_photos] returns without
    raising and leaves the whole document as it was: no table is inserted,
    and the anchor paragraph is not looked for, so that a photo token in it
    stays. *)
Theorem insert_photos_without_photos
    (prepare : filesystem -> str -> str -> str * filesystem)
    (add_picture_error : str -> option str)
    (doc : document) (photos : list str) (out_dir : str) (fs : filesystem) :
  fst (prepare_all prepare photos (path_join out_dir (u "_photo_cache")) fs) = [] ->
  fst (insert_photos prepare add_picture_error doc photos out_dir fs) = doc.
Proof.
  intros H. unfold insert_photos. destruct photos as [|p photos]; [done|].
  destruct (prepare_all _ _ _ _) as [processed fs1]. simpl in H. by subst.
Qed.

Lemma insert_photos_without_photos_witness :
  let fs : filesystem := {[ u "p/a.heic" := FData ]} in
  fst (insert_photos no_preparation no_picture_error
         template_with_photo_token [u "p/a.heic"] (u "out") fs)
  = template_with_photo_token.
Proof.
  intros fs. apply insert_photos_without_photos. vm_compute. reflexivity.
Defined.

(** *** The groups *)






(** *** The blocks that the loop inserts *)



(** *** Insertion after a reference *)














(** ** The interactive mode *)

(** C9 (the code departs from it). Empty input is refused and the same field
    is asked again, Q ends the session, and B at the first field asks the
    first field again. But B at a later field does not ask the previous
    field: the turn of the outer loop is abandoned, the fields entered so
    far are dropped and the first field is asked again, although the line
    printed names the previous field. Entering 甲公司, 零售 and then b at
    经营地址 prints 返回上一项 → 重填 行业分类 and then asks 客户名称. *)
Theorem interactive_back_restarts
    (expand_photos_arg : str -> list str) (default_photos_dir : str)
    (report : gmap str str -> list str -> result str) :
  let step := step expand_photos_arg default_photos_dir report in
  let session := session expand_photos_arg default_photos_dir report in
  (forall i fields,
      step (AskField i fields) [] =
      ([Print (u "请输入 " ++ nth i PLACEHOLDER_KEYS [] ++ u "。")], AskField i fields))
  /\ (forall i fields, snd (step (AskField i fields) (u "q")) = Finished (Ok tt))
  /\ (forall fields,
        step (AskField 0 fields) (u "b") = ([Print (u "已在第一项，无法返回。")], AskField 0 ∅))
  /\ (forall i fields, snd (step (AskField i fields) (u "b")) = AskField 0 ∅)
  /\ fst (session restart [u "甲公司"; u "零售"; u "b"]) =
     [Input (u "客户名称："); Input (u "行业分类："); Input (u "经营地址：");
      Print (u "返回上一项 → 重填 行业分类");
      Input (u "客户名称：")].
Proof.
  intros step0 session0. repeat split.
Qed.

(** ** Letterboxing *)

#[local] Open Scope Q_scope.

Lemma float_lt_spec (a b : Q) : float_lt a b = true <-> a < b.
Proof.
  unfold float_lt. rewrite negb_true_iff. split.
  - intros H. apply Qnot_le_lt. intros Hle. apply Qle_bool_iff in Hle. congruence.
  - intros H. destruct (Qle_bool b a) eqn:E; [|done].
    apply Qle_bool_iff in E. exfalso. apply (Qlt_not_le _ _ H E).
Qed.

Lemma float_lt_false (a b : Q) : float_lt a b = false <-> b <= a.
Proof.
  unfold float_lt. rewrite negb_false_iff. apply Qle_bool_iff.
Qed.

(** [min] returns one of its arguments, and none of them is smaller. *)
Lemma py_min3_spec (a b c : Q) :
  (py_min3 a b c = a \/ py_min3 a b c = b \/ py_min3 a b c = c)
  /\ py_min3 a b c <= a /\ py_min3 a b c <= b /\ py_min3 a b c <= c.
Proof.
  unfold py_min3.
  destruct (float_lt b a) eqn:E1.
  - apply float_lt_spec in E1. destruct (float_lt c b) eqn:E2.
    + apply float_lt_spec in E2. repeat split; auto; lra.
    + apply float_lt_false in E2. repeat split; auto; lra.
  - apply float_lt_false in E1. destruct (float_lt c a) eqn:E2.
    + apply float_lt_spec in E2. repeat split; auto; lra.
    + apply float_lt_false in E2. repeat split; auto; lra.
Qed.

Lemma int_of_float_nonneg (x : Q) : 0 <= x -> int_of_float x = Qfloor x.
Proof.
  intros H. unfold int_of_float. apply Qle_bool_iff in H. by rewrite H.
Qed.

Lemma int_of_float_Z (n : Z) : (0 <= n)%Z -> int_of_float (inject_Z n) = n.
Proof.
  intros H. rewrite int_of_float_nonneg, Qfloor_Z; [done|].
  change 0 with (inject_Z 0). by rewrite <- Zle_Qle.
Qed.

Lemma int_of_float_proper (x y : Q) : x == y -> int_of_float x = int_of_float y.
Proof.
  intros H. unfold int_of_float.
  assert (Hb : Qle_bool 0 x = Qle_bool 0 y).
  { destruct (Qle_bool 0 x) eqn:Ex, (Qle_bool 0 y) eqn:Ey; try done.
    - apply Qle_bool_iff in Ex. rewrite H in Ex. apply Qle_bool_iff in Ex. congruence.
    - apply Qle_bool_iff in Ey. rewrite <- H in Ey. apply Qle_bool_iff in Ey. congruence. }
  rewrite Hb. destruct (Qle_bool 0 y); [by apply Qfloor_comp | by apply Qceiling_comp].
Qed.

Section FloatFacts.

Variable rnd : Q -> Q.
Hypothesis Hrnd : binary64_rounding rnd.

Lemma rnd_zero : rnd 0 == 0.
Proof. apply (rnd_int rnd Hrnd 0). done. Qed.

Lemma rnd_one : rnd 1 == 1.
Proof. apply (rnd_int rnd Hrnd 1). done. Qed.

Lemma rnd_nonneg (x : Q) : 0 <= x -> 0 <= rnd x.
Proof. intros H. rewrite <- rnd_zero. by apply (rnd_mono rnd Hrnd). Qed.

Lemma float_of_int_exact (n : Z) : (Z.abs n <= 2 ^ 53)%Z -> float_of_int rnd n == inject_Z n.
Proof. apply (rnd_int rnd Hrnd). Qed.

(** Multiplying a size by a factor in [0, 1] and truncating does not give
    more than the size. *)
Lemma scaled_size_le (n : Z) (s : Q) :
  (0 <= n <= 2 ^ 53)%Z -> 0 <= s -> s <= 1 ->
  (0 <= int_of_float (int_mul_float rnd n s) <= n)%Z.
Proof.
  intros Hn Hs0 Hs1.
  assert (Hn' : float_of_int rnd n == inject_Z n) by (apply float_of_int_exact; lia).
  assert (Hq : 0 <= inject_Z n).
  { change 0 with (inject_Z 0). rewrite <- Zle_Qle. lia. }
  assert (Hlo : 0 <= int_mul_float rnd n s).
  { unfold int_mul_float. apply rnd_nonneg. rewrite Hn'. by apply Qmult_le_0_compat. }
  assert (Hhi : int_mul_float rnd n s <= inject_Z n).
  { unfold int_mul_float. apply Qle_trans with (rnd (inject_Z n)).
    - apply (rnd_mono rnd Hrnd). rewrite Hn'. nra.
    - rewrite (rnd_int rnd Hrnd n) by lia. lra. }
  rewrite int_of_float_nonneg by done. split.
  - rewrite <- (Qfloor_Z 0). apply Qfloor_resp_le. exact Hlo.
  - rewrite <- (Qfloor_Z n) at 2. apply Qfloor_resp_le. exact Hhi.
Qed.

End FloatFacts.

Lemma Qfloor_between (y : Q) (n : Z) :
  inject_Z n <= y -> y < inject_Z (n + 1) -> Qfloor y = n.
Proof.
  intros Hlo Hhi.
  assert (H1 : (n <= Qfloor y)%Z).
  { rewrite <- (Qfloor_Z n) at 1. by apply Qfloor_resp_le. }
  assert (H2 : (Qfloor y < n + 1)%Z).
  { rewrite Zlt_Qlt. apply Qle_lt_trans with y; [apply Qfloor_le | done]. }
  lia.
Qed.

(** The powers of two in [binary64_rounding], as numerals. *)
Ltac powers :=
  change (2 ^ 53)%positive with 9007199254740992%positive in *;
  change (2 ^ 60)%positive with 1152921504606846976%positive in *;
  change (2 ^ 53)%Z with 9007199254740992%Z in *;
  change (2 ^ 60)%Z with 1152921504606846976%Z in *;
  change (inject_Z 9007199254740992) with (9007199254740992 # 1) in *;
  change (inject_Z 1152921504606846976) with (1152921504606846976 # 1) in *.

Lemma exact_rounding : binary64_rounding (fun x => x).
Proof.
  split.
  - intros x y H. exact H.
  - intros x y H. exact H.
  - intros n _. reflexivity.
  - intros x Hlo Hhi. powers. split; nra.
Qed.

Section LetterboxFacts.

Variable rnd : Q -> Q.
Hypothesis Hrnd : binary64_rounding rnd.

Let eps : Q := 1 # 2 ^ 53.

(** The quotient of two sizes, rounded. *)
Lemma true_div_bounds (a b : Z) :
  (1 <= a <= 2 ^ 53)%Z -> (1 <= b <= 2 ^ 53)%Z ->
  exists x, 0 < x /\ x * inject_Z b == inject_Z a
    /\ x * (1 - eps) <= true_div rnd a b /\ true_div rnd a b <= x * (1 + eps).
Proof.
  intros Ha Hb.
  assert (HA1 : 1 <= inject_Z a) by (change 1 with (inject_Z 1); rewrite <- Zle_Qle; lia).
  assert (HA2 : inject_Z a <= inject_Z (2 ^ 53)) by (rewrite <- Zle_Qle; lia).
  assert (HB1 : 1 <= inject_Z b) by (change 1 with (inject_Z 1); rewrite <- Zle_Qle; lia).
  assert (HB2 : inject_Z b <= inject_Z (2 ^ 53)) by (rewrite <- Zle_Qle; lia).
  set (A := inject_Z a) in *. set (B := inject_Z b) in *.
  assert (Hx : (A / B) * B == A) by (field; lra).
  exists (A / B). split; [apply Qlt_shift_div_l; lra|]. split; [exact Hx|].
  unfold true_div. fold A B. apply (rnd_err rnd Hrnd).
  - apply Qle_shift_div_l; [lra|]. powers. lra.
  - apply Qle_shift_div_r; [lra|]. powers. nra.
Qed.

Lemma inject_Z_pos (n : Z) : (1 <= n)%Z -> 1 <= inject_Z n.
Proof. intros H. change 1 with (inject_Z 1). by rewrite <- Zle_Qle. Qed.

Lemma inject_Z_le53 (n : Z) : (n <= 2 ^ 53)%Z -> inject_Z n <= 9007199254740992 # 1.
Proof.
  intros H. change (9007199254740992 # 1) with (inject_Z 9007199254740992).
  rewrite <- Zle_Qle. powers. lia.
Qed.

(** The scale factor lies between a small positive number and 1. *)
Lemma letterbox_scale_bounds (w h : Z) :
  (1 <= w <= 2 ^ 53)%Z -> (1 <= h <= 2 ^ 53)%Z ->
  1 # 2 ^ 50 <= letterbox_scale rnd CANVAS_SIZE CANVAS_MARGIN w h
  /\ letterbox_scale rnd CANVAS_SIZE CANVAS_MARGIN w h <= 1.
Proof.
  intros Hw Hh. unfold letterbox_scale.
  change (Z.max (CANVAS_SIZE.1 - CANVAS_MARGIN * 2) 1) with 2040%Z.
  change (Z.max (CANVAS_SIZE.2 - CANVAS_MARGIN * 2) 1) with 1490%Z.
  destruct (true_div_bounds 2040 w) as (xa & Hxa0 & Hxa & Ha1 & Ha2); [powers; lia|done|].
  destruct (true_div_bounds 1490 h) as (xb & Hxb0 & Hxb & Hb1 & Hb2); [powers; lia|done|].
  pose proof (inject_Z_pos w ltac:(lia)) as HW1.
  pose proof (inject_Z_pos h ltac:(lia)) as HH1.
  pose proof (inject_Z_le53 w ltac:(lia)) as HW2.
  pose proof (inject_Z_le53 h ltac:(lia)) as HH2.
  change (inject_Z 2040) with (2040 # 1) in Hxa.
  change (inject_Z 1490) with (1490 # 1) in Hxb.
  unfold eps in *. powers.
  change (2 ^ 50)%positive with 1125899906842624%positive.
  assert (Ha : 1 # 1125899906842624 <= true_div rnd 2040 w) by nra.
  assert (Hb : 1 # 1125899906842624 <= true_div rnd 1490 h) by nra.
  destruct (py_min3_spec (true_div rnd 2040 w) (true_div rnd 1490 h) 1)
    as ([-> | [-> | ->]] & _ & _ & Hle); split; try done; lra.
Qed.

End LetterboxFacts.

Section LetterboxProps.

Variable rnd : Q -> Q.
Hypothesis Hrnd : binary64_rounding rnd.

(** A size multiplied by the scale factor and truncated: the integer just
    below the product, up to the rounding of the product. *)
Lemma scaled_size_bounds (n : Z) (s : Q) :
  (1 <= n <= 2 ^ 53)%Z -> 1 # 2 ^ 50 <= s -> s <= 1 ->
  inject_Z (int_of_float (int_mul_float rnd n s)) <= inject_Z n * s * (1 + (1 # 2 ^ 53))
  /\ inject_Z n * s * (1 - (1 # 2 ^ 53)) < inject_Z (int_of_float (int_mul_float rnd n s)) + 1.
Proof.
  intros Hn Hs0 Hs1.
  pose proof (inject_Z_pos n ltac:(lia)) as HN1.
  pose proof (inject_Z_le53 n ltac:(lia)) as HN2.
  assert (Hf : float_of_int rnd n * s == inject_Z n * s).
  { rewrite (float_of_int_exact rnd Hrnd n) by lia. reflexivity. }
  pose proof (rnd_proper rnd Hrnd _ _ Hf) as Hp. fold (int_mul_float rnd n s) in Hp.
  destruct (rnd_err rnd Hrnd (inject_Z n * s)) as [He1 He2].
  { powers. change (2 ^ 50)%positive with 1125899906842624%positive in *. nra. }
  { powers. nra. }
  assert (Hpos : 0 <= int_mul_float rnd n s).
  { apply Qle_trans with (rnd (inject_Z n * s)); [|lra].
    apply (rnd_nonneg rnd Hrnd).
    change (2 ^ 50)%positive with 1125899906842624%positive in *. nra. }
  rewrite (int_of_float_nonneg _ Hpos).
  pose proof (Qfloor_le (int_mul_float rnd n s)) as Hfl.
  pose proof (Qlt_floor (int_mul_float rnd n s)) as Hfu.
  rewrite inject_Z_plus in Hfu. change (inject_Z 1) with 1 in Hfu.
  split; lra.
Qed.

(** A side [n] of an image whose larger side is [m], scaled by a factor
    that is the rounded quotient [t / m] or less, is at most [t]. *)
Lemma scaled_size_cap (n m t : Z) (s x : Q) :
  (1 <= n <= m)%Z -> (m <= 2 ^ 53)%Z -> (1 <= t <= 2 ^ 31)%Z ->
  1 # 2 ^ 50 <= s -> s <= 1 ->
  x * inject_Z m == inject_Z t -> s <= x * (1 + (1 # 2 ^ 53)) ->
  (int_of_float (int_mul_float rnd n s) <= t)%Z.
Proof.
  intros Hn Hm Ht Hs0 Hs1 Hx Hsx.
  destruct (scaled_size_bounds n s ltac:(lia) Hs0 Hs1) as [Hup _].
  set (r := int_of_float (int_mul_float rnd n s)) in *.
  pose proof (inject_Z_pos n ltac:(lia)) as HN1.
  assert (HNM : inject_Z n <= inject_Z m) by (rewrite <- Zle_Qle; lia).
  pose proof (inject_Z_pos t ltac:(lia)) as HT1.
  assert (HT2 : inject_Z t <= 2147483648 # 1).
  { change (2147483648 # 1) with (inject_Z (2 ^ 31)). rewrite <- Zle_Qle. lia. }
  assert (H0 : 0 < s).
  { apply Qlt_le_trans with (1 # 2 ^ 50); [done | exact Hs0]. }
  set (N := inject_Z n) in *. set (M := inject_Z m) in *. set (T := inject_Z t) in *.
  powers.
  assert (H1 : N * s <= M * s) by nra.
  assert (H2 : M * s <= T * (1 + (1 # 9007199254740992))) by nra.
  assert (H3 : inject_Z r < T + 1) by nra.
  unfold T in H3. change 1 with (inject_Z 1) in H3.
  rewrite <- inject_Z_plus, <- Zlt_Qlt in H3. lia.
Qed.

(** The larger side, scaled by the rounded quotient [t / m], is [t] or one
    less. *)
Lemma scaled_size_floor (m t : Z) (s x : Q) :
  (1 <= m <= 2 ^ 53)%Z -> (1 <= t <= 2 ^ 31)%Z ->
  1 # 2 ^ 50 <= s -> s <= 1 ->
  x * inject_Z m == inject_Z t -> x * (1 - (1 # 2 ^ 53)) <= s ->
  (t - 1 <= int_of_float (int_mul_float rnd m s))%Z.
Proof.
  intros Hm Ht Hs0 Hs1 Hx Hsx.
  destruct (scaled_size_bounds m s ltac:(lia) Hs0 Hs1) as [_ Hlo].
  set (r := int_of_float (int_mul_float rnd m s)) in *.
  pose proof (inject_Z_pos m ltac:(lia)) as HM1.
  pose proof (inject_Z_pos t ltac:(lia)) as HT1.
  assert (HT2 : inject_Z t <= 2147483648 # 1).
  { change (2147483648 # 1) with (inject_Z (2 ^ 31)). rewrite <- Zle_Qle. lia. }
  set (M := inject_Z m) in *. set (T := inject_Z t) in *.
  powers.
  assert (H2 : T * (1 - (1 # 9007199254740992)) <= M * s) by nra.
  assert (H3 : T - 2 < inject_Z r) by nra.
  assert (H4 : inject_Z (t - 2) < inject_Z r).
  { replace (t - 2)%Z with (t + -2)%Z by lia. rewrite inject_Z_plus.
    change (inject_Z (-2)) with (-2 # 1). fold T. lra. }
  rewrite <- Zlt_Qlt in H4. lia.
Qed.

(** A scaled side is at least [k] when the exact product, less the
    rounding, is; it is at most [k] when the exact product, with the
    rounding, is below [k + 1]. *)
Lemma scaled_size_lower (n k : Z) (s : Q) :
  (1 <= n <= 2 ^ 53)%Z -> 1 # 2 ^ 50 <= s -> s <= 1 ->
  inject_Z k <= inject_Z n * s * (1 - (1 # 2 ^ 53)) ->
  (k <= int_of_float (int_mul_float rnd n s))%Z.
Proof.
  intros Hn Hs0 Hs1 Hk.
  destruct (scaled_size_bounds n s Hn Hs0 Hs1) as [_ Hlo].
  assert (H : inject_Z k < inject_Z (int_of_float (int_mul_float rnd n s) + 1)).
  { rewrite inject_Z_plus. change (inject_Z 1) with 1. lra. }
  rewrite <- Zlt_Qlt in H. lia.
Qed.

Lemma scaled_size_upper (n k : Z) (s : Q) :
  (1 <= n <= 2 ^ 53)%Z -> 1 # 2 ^ 50 <= s -> s <= 1 ->
  inject_Z n * s * (1 + (1 # 2 ^ 53)) < inject_Z (k + 1) ->
  (int_of_float (int_mul_float rnd n s) <= k)%Z.
Proof.
  intros Hn Hs0 Hs1 Hk.
  destruct (scaled_size_bounds n s Hn Hs0 Hs1) as [Hup _].
  assert (H : inject_Z (int_of_float (int_mul_float rnd n s)) < inject_Z (k + 1)) by lra.
  rewrite <- Zlt_Qlt in H. lia.
Qed.

(** A side scaled by 1 stays as it is. *)
Lemma scaled_by_one (n : Z) (s : Q) :
  (0 <= n <= 2 ^ 53)%Z -> s == 1 -> int_of_float (int_mul_float rnd n s) = n.
Proof.
  intros Hn Hs. transitivity (int_of_float (inject_Z n)); [|apply int_of_float_Z; lia].
  apply int_of_float_proper. unfold int_mul_float.
  apply Qeq_trans with (rnd (inject_Z n)); [|apply (rnd_int rnd Hrnd); lia].
  apply (rnd_proper rnd Hrnd).
  rewrite (float_of_int_exact rnd Hrnd n) by lia. rewrite Hs. ring.
Qed.

(** [_letterbox_image] in terms of the two scaled sides. *)
Lemma letterbox_image_sides (w h : Z) :
  (1 <= w)%Z -> (1 <= h)%Z ->
  let scale := letterbox_scale rnd CANVAS_SIZE CANVAS_MARGIN w h in
  let rw := int_of_float (int_mul_float rnd w scale) in
  let rh := int_of_float (int_mul_float rnd h scale) in
  _letterbox_image rnd w h CANVAS_SIZE CANVAS_MARGIN
  = if ((rw <=? 0) || (rh <=? 0))%Z then Raise ResizeValueError
    else Ok {| resized_width := rw; resized_height := rh;
               offset_x := (2200 - rw) / 2; offset_y := (1650 - rh) / 2 |}.
Proof.
  intros Hw Hh scale rw rh. unfold _letterbox_image.
  destruct (Z.eqb_spec w 0) as [->|_]; [lia|]. destruct (Z.eqb_spec h 0) as [->|_]; [lia|].
  cbn [orb]. fold scale rw rh. unfold resize.
  by destruct ((rw <=? 0) || (rh <=? 0))%Z.
Qed.

(** The scale factor is one of the two rounded quotients or 1, and none of
    them is smaller. *)
Lemma letterbox_scale_choice (w h : Z) :
  let scale := letterbox_scale rnd CANVAS_SIZE CANVAS_MARGIN w h in
  (scale = true_div rnd 2040 w \/ scale = true_div rnd 1490 h \/ scale = 1)
  /\ scale <= true_div rnd 2040 w /\ scale <= true_div rnd 1490 h /\ scale <= 1.
Proof.
  unfold letterbox_scale.
  change (Z.max (CANVAS_SIZE.1 - CANVAS_MARGIN * 2) 1) with 2040%Z.
  change (Z.max (CANVAS_SIZE.2 - CANVAS_MARGIN * 2) 1) with 1490%Z.
  apply py_min3_spec.
Qed.

(** The sides of the resized image. *)
Lemma letterbox_sides (w h : Z) :
  (1 <= w <= 2 ^ 53)%Z -> (1 <= h <= 2 ^ 53)%Z ->
  let scale := letterbox_scale rnd CANVAS_SIZE CANVAS_MARGIN w h in
  let rw := int_of_float (int_mul_float rnd w scale) in
  let rh := int_of_float (int_mul_float rnd h scale) in
  (0 <= rw <= Z.min w 2040)%Z /\ (0 <= rh <= Z.min h 1490)%Z
  /\ ((w <= 2040)%Z -> (h <= 1490)%Z -> scale == 1 /\ rw = w /\ rh = h)
  /\ ((2040 < w \/ 1490 < h)%Z -> (2039 <= rw \/ 1489 <= rh)%Z)
  /\ ((h + 3 <= 1490 * w)%Z -> (w + 3 <= 2040 * h)%Z -> (1 <= rw /\ 1 <= rh)%Z)
  /\ ((1490 * w + 4 <= h)%Z -> rw = 0%Z)
  /\ ((2040 * h + 4 <= w)%Z -> rh = 0%Z).
Proof.
  intros Hw Hh scale rw rh.
  destruct (letterbox_scale_bounds rnd Hrnd w h Hw Hh) as [Hlo Hhi].
  destruct (letterbox_scale_choice w h) as (Hch & Hsa & Hsb & _).
  fold scale in Hlo, Hhi, Hch, Hsa, Hsb.
  destruct (true_div_bounds rnd Hrnd 2040 w) as (xa & Hxa0 & Hxa & Ha1 & Ha2);
    [powers; lia | done |].
  destruct (true_div_bounds rnd Hrnd 1490 h) as (xb & Hxb0 & Hxb & Hb1 & Hb2);
    [powers; lia | done |].
  change (inject_Z 2040) with (2040 # 1) in Hxa.
  change (inject_Z 1490) with (1490 # 1) in Hxb.
  pose proof (inject_Z_pos w ltac:(lia)) as HW1.
  pose proof (inject_Z_pos h ltac:(lia)) as HH1.
  pose proof (inject_Z_le53 w ltac:(lia)) as HW2.
  pose proof (inject_Z_le53 h ltac:(lia)) as HH2.
  assert (H0 : 0 <= scale).
  { apply Qle_trans with (1 # 2 ^ 50); [done | exact Hlo]. }
  pose proof (scaled_size_le rnd Hrnd w scale ltac:(lia) H0 Hhi) as Hrw. fold rw in Hrw.
  pose proof (scaled_size_le rnd Hrnd h scale ltac:(lia) H0 Hhi) as Hrh. fold rh in Hrh.
  assert (Hcw : (rw <= 2040)%Z).
  { apply (scaled_size_cap w w 2040 scale xa); try done; try lia. lra. }
  assert (Hchh : (rh <= 1490)%Z).
  { apply (scaled_size_cap h h 1490 scale xb); try done; try lia. lra. }
  (* a quotient that is at least 1 belongs to a side that fits *)
  assert (Hfw : 1 <= true_div rnd 2040 w -> (w <= 2040)%Z).
  { intros H1.
    assert (H2 : inject_Z w < inject_Z (2040 + 1)).
    { change (inject_Z (2040 + 1)) with (2041 # 1). powers. nra. }
    rewrite <- Zlt_Qlt in H2. lia. }
  assert (Hfh : 1 <= true_div rnd 1490 h -> (h <= 1490)%Z).
  { intros H1.
    assert (H2 : inject_Z h < inject_Z (1490 + 1)).
    { change (inject_Z (1490 + 1)) with (1491 # 1). powers. nra. }
    rewrite <- Zlt_Qlt in H2. lia. }
  split; [lia|]. split; [lia|]. split; [|split; [|split; [|split]]].
  - intros Hsw Hsh.
    assert (HW3 : inject_Z w <= 2040 # 1).
    { change (2040 # 1) with (inject_Z 2040). rewrite <- Zle_Qle. lia. }
    assert (HH3 : inject_Z h <= 1490 # 1).
    { change (1490 # 1) with (inject_Z 1490). rewrite <- Zle_Qle. lia. }
    assert (Ha : 1 <= true_div rnd 2040 w).
    { unfold true_div. rewrite <- (rnd_one rnd Hrnd). apply (rnd_mono rnd Hrnd).
      apply Qle_shift_div_l; [lra|]. change (inject_Z 2040) with (2040 # 1). lra. }
    assert (Hb : 1 <= true_div rnd 1490 h).
    { unfold true_div. rewrite <- (rnd_one rnd Hrnd). apply (rnd_mono rnd Hrnd).
      apply Qle_shift_div_l; [lra|]. change (inject_Z 1490) with (1490 # 1). lra. }
    assert (Hs : scale == 1).
    { destruct Hch as [E | [E | E]]; rewrite E in *; lra. }
    split; [exact Hs|]. split; apply scaled_by_one; (lia || exact Hs).
  - intros Hbig. destruct Hch as [E | [E | E]].
    + left. apply (scaled_size_floor w 2040 scale xa);
        [lia | done | done | done | exact Hxa | rewrite E; exact Ha1].
    + right. apply (scaled_size_floor h 1490 scale xb);
        [lia | done | done | done | exact Hxb | rewrite E; exact Hb1].
    + exfalso. rewrite E in Hsa, Hsb. specialize (Hfw Hsa). specialize (Hfh Hsb). lia.
  - intros H1 H2.
    assert (HQ1 : inject_Z h + 3 <= 1490 * inject_Z w).
    { change 3 with (inject_Z 3). change 1490 with (inject_Z 1490).
      rewrite <- inject_Z_plus, <- inject_Z_mult, <- Zle_Qle. lia. }
    assert (HQ2 : inject_Z w + 3 <= 2040 * inject_Z h).
    { change 3 with (inject_Z 3). change 2040 with (inject_Z 2040).
      rewrite <- inject_Z_plus, <- inject_Z_mult, <- Zle_Qle. lia. }
    set (W := inject_Z w) in *. set (H := inject_Z h) in *.
    destruct Hch as [E | [E | E]].
    + (* scaled to the width *)
      split; apply scaled_size_lower; try done; change (inject_Z 1) with 1; fold W H;
        rewrite E; powers.
      * assert (G : 2040 * (1 - (1 # 9007199254740992)) <= W * true_div rnd 2040 w) by nra.
        nra.
      * apply Qmult_le_r with W; [lra|].
        assert (G1 : H * xa * W == 2040 * H) by nra.
        assert (G2 : H * xa * (1 - (1 # 9007199254740992)) <= H * true_div rnd 2040 w)
          by nra.
        assert (G3 : (W + 3) * (1 - (1 # 9007199254740992)) * (1 - (1 # 9007199254740992))
                     <= H * true_div rnd 2040 w * (1 - (1 # 9007199254740992)) * W) by nra.
        lra.
    + split; apply scaled_size_lower; try done; change (inject_Z 1) with 1; fold W H;
        rewrite E; powers.
      * apply Qmult_le_r with H; [lra|].
        assert (G1 : W * xb * H == 1490 * W) by nra.
        assert (G2 : W * xb * (1 - (1 # 9007199254740992)) <= W * true_div rnd 1490 h)
          by nra.
        assert (G3 : (H + 3) * (1 - (1 # 9007199254740992)) * (1 - (1 # 9007199254740992))
                     <= W * true_div rnd 1490 h * (1 - (1 # 9007199254740992)) * H) by nra.
        lra.
      * assert (G : 1490 * (1 - (1 # 9007199254740992)) <= H * true_div rnd 1490 h) by nra.
        nra.
    + assert (Hs : scale == 1) by (by rewrite E).
      unfold rw, rh. rewrite !scaled_by_one; (lia || exact Hs).
  - intros H1.
    assert (HQ : 1490 * inject_Z w + 4 <= inject_Z h).
    { change 4 with (inject_Z 4). change 1490 with (inject_Z 1490).
      rewrite <- inject_Z_mult, <- inject_Z_plus, <- Zle_Qle. lia. }
    assert (Hup : (rw <= 0)%Z).
    { apply scaled_size_upper; try done. change (inject_Z (0 + 1)) with 1.
      set (W := inject_Z w) in *. set (H := inject_Z h) in *. powers.
      apply Qmult_lt_r with H; [lra|].
      assert (G1 : W * xb * H == 1490 * W) by nra.
      assert (G2 : W * scale <= W * xb * (1 + (1 # 9007199254740992))) by nra.
      assert (G3 : W * scale * (1 + (1 # 9007199254740992)) * H
                   <= (H - 4) * (1 + (1 # 9007199254740992)) * (1 + (1 # 9007199254740992)))
        by nra.
      lra. }
    lia.
  - intros H1.
    assert (HQ : 2040 * inject_Z h + 4 <= inject_Z w).
    { change 4 with (inject_Z 4). change 2040 with (inject_Z 2040).
      rewrite <- inject_Z_mult, <- inject_Z_plus, <- Zle_Qle. lia. }
    assert (Hup : (rh <= 0)%Z).
    { apply scaled_size_upper; try done. change (inject_Z (0 + 1)) with 1.
      set (W := inject_Z w) in *. set (H := inject_Z h) in *. powers.
      apply Qmult_lt_r with W; [lra|].
      assert (G1 : H * xa * W == 2040 * H) by nra.
      assert (G2 : H * scale <= H * xa * (1 + (1 # 9007199254740992))) by nra.
      assert (G3 : H * scale * (1 + (1 # 9007199254740992)) * W
                   <= (W - 4) * (1 + (1 # 9007199254740992)) * (1 + (1 # 9007199254740992)))
        by nra.
      lra. }
    lia.
Qed.

(** The scale factor is the exact one up to two roundings of binary64. *)
Lemma letterbox_scale_exact (w h : Z) :
  (1 <= w <= 2 ^ 53)%Z -> (1 <= h <= 2 ^ 53)%Z ->
  let scale := letterbox_scale rnd CANVAS_SIZE CANVAS_MARGIN w h in
  let exact := exact_scale CANVAS_SIZE CANVAS_MARGIN w h in
  exact * (1 - (1 # 2 ^ 53)) <= scale /\ scale <= exact * (1 + (1 # 2 ^ 53)).
Proof.
  intros Hw Hh scale exact.
  destruct (letterbox_scale_choice w h) as (Hch & Hsa & Hsb & Hs1).
  fold scale in Hch, Hsa, Hsb, Hs1.
  destruct (true_div_bounds rnd Hrnd 2040 w) as (xa & Hxa0 & Hxa & Ha1 & Ha2);
    [powers; lia | done |].
  destruct (true_div_bounds rnd Hrnd 1490 h) as (xb & Hxb0 & Hxb & Hb1 & Hb2);
    [powers; lia | done |].
  pose proof (inject_Z_pos w ltac:(lia)) as HW1.
  pose proof (inject_Z_pos h ltac:(lia)) as HH1.
  assert (Ea : inject_Z 2040 / inject_Z w == xa).
  { rewrite <- Hxa. field. lra. }
  assert (Eb : inject_Z 1490 / inject_Z h == xb).
  { rewrite <- Hxb. field. lra. }
  assert (Ee : exact == Qmin (Qmin xa xb) 1).
  { unfold exact, exact_scale.
    change (CANVAS_SIZE.1 - 2 * CANVAS_MARGIN)%Z with 2040%Z.
    change (CANVAS_SIZE.2 - 2 * CANVAS_MARGIN)%Z with 1490%Z.
    by rewrite Ea, Eb. }
  rewrite Ee. clear Ee Ea Eb exact.
  pose proof (Q.le_min_l (Qmin xa xb) 1) as M1.
  pose proof (Q.le_min_r (Qmin xa xb) 1) as M2.
  pose proof (Q.le_min_l xa xb) as M3.
  pose proof (Q.le_min_r xa xb) as M4.
  set (m := Qmin (Qmin xa xb) 1) in *.
  assert (Hm0 : 0 < m).
  { unfold m. destruct (Q.min_spec (Qmin xa xb) 1) as [[_ E] | [_ E]]; rewrite E; [|lra].
    destruct (Q.min_spec xa xb) as [[_ E'] | [_ E']]; rewrite E'; lra. }
  powers. split.
  - destruct Hch as [E | [E | E]]; rewrite E.
    + apply Qle_trans with (xa * (1 - (1 # 9007199254740992))); [|done]. nra.
    + apply Qle_trans with (xb * (1 - (1 # 9007199254740992))); [|done]. nra.
    + nra.
  - unfold m. destruct (Q.min_spec (Qmin xa xb) 1) as [[_ E] | [_ E]]; rewrite E.
    + destruct (Q.min_spec xa xb) as [[_ E'] | [_ E']]; rewrite E'; lra.
    + lra.
Qed.

(** C6. For an image of [w] by [h] pixels, the scale factor of
    [_letterbox_image] is [min(2040 / w, 1490 / h, 1.0)], where 2040 and 1490
    are the sides of the canvas (2200 by 1650) less twice the margin (80):
    it is the smallest of the three numbers up to the rounding of binary64,
    and exactly 1 for an image that fits. It is at most 1, so that neither
    side of the resized image exceeds the original side, and the two sides
    are the integer parts of the original sides multiplied by this one
    factor (up to the rounding of the product). A side that comes out as
    zero makes [Image.resize] raise: this happens to an image that is more
    than 1490 times as high as wide or 2040 times as wide as high (by four
    pixels or more), and not to one that is less than 1490 times as high as
    wide and less than 2040 times as wide as high (by three pixels or
    more). *)
Theorem letterbox_scale_never_upscales (w h : Z) :
  (1 <= w <= 2 ^ 53)%Z -> (1 <= h <= 2 ^ 53)%Z ->
  let available_w := (fst CANVAS_SIZE - 2 * CANVAS_MARGIN)%Z in
  let available_h := (snd CANVAS_SIZE - 2 * CANVAS_MARGIN)%Z in
  let scale := letterbox_scale rnd CANVAS_SIZE CANVAS_MARGIN w h in
  let exact := exact_scale CANVAS_SIZE CANVAS_MARGIN w h in
  scale = py_min3 (true_div rnd available_w w) (true_div rnd available_h h) 1
  /\ exact * (1 - (1 # 2 ^ 53)) <= scale /\ scale <= exact * (1 + (1 # 2 ^ 53))
  /\ 0 < scale /\ scale <= 1
  /\ ((w <= available_w)%Z -> (h <= available_h)%Z -> scale == 1)
  /\ (forall g,
        _letterbox_image rnd w h CANVAS_SIZE CANVAS_MARGIN = Ok g ->
        resized_width g = int_of_float (int_mul_float rnd w scale)
        /\ resized_height g = int_of_float (int_mul_float rnd h scale)
        /\ (1 <= resized_width g <= w)%Z
        /\ (1 <= resized_height g <= h)%Z
        /\ inject_Z (resized_width g) <= inject_Z w * scale * (1 + (1 # 2 ^ 53))
        /\ inject_Z w * scale * (1 - (1 # 2 ^ 53)) < inject_Z (resized_width g) + 1
        /\ inject_Z (resized_height g) <= inject_Z h * scale * (1 + (1 # 2 ^ 53))
        /\ inject_Z h * scale * (1 - (1 # 2 ^ 53)) < inject_Z (resized_height g) + 1)
  /\ ((h + 3 <= available_h * w)%Z -> (w + 3 <= available_w * h)%Z ->
      exists g, _letterbox_image rnd w h CANVAS_SIZE CANVAS_MARGIN = Ok g)
  /\ ((available_h * w + 4 <= h \/ available_w * h + 4 <= w)%Z ->
      _letterbox_image rnd w h CANVAS_SIZE CANVAS_MARGIN = Raise ResizeValueError).
Proof.
  intros Hw Hh available_w available_h scale exact.
  change available_w with 2040%Z. change available_h with 1490%Z.
  destruct (letterbox_scale_bounds rnd Hrnd w h Hw Hh) as [Hlo Hhi]. fold scale in Hlo, Hhi.
  assert (H0 : 0 < scale) by (apply Qlt_le_trans with (1 # 2 ^ 50); [done | exact Hlo]).
  destruct (letterbox_scale_exact w h Hw Hh) as [He1 He2]. fold scale exact in He1, He2.
  destruct (letterbox_sides w h Hw Hh) as (Hrw & Hrh & Hfit & _ & Hok & Hz1 & Hz2).
  pose proof (letterbox_image_sides w h ltac:(lia) ltac:(lia)) as Himg.
  fold scale in Hrw, Hrh, Hfit, Hok, Hz1, Hz2, Himg. cbn zeta in Himg.
  set (rw := int_of_float (int_mul_float rnd w scale)) in *.
  set (rh := int_of_float (int_mul_float rnd h scale)) in *.
  split; [reflexivity|]. split; [exact He1|]. split; [exact He2|].
  split; [exact H0|]. split; [exact Hhi|].
  split; [intros H1 H2; by destruct (Hfit H1 H2)|]. split; [|split].
  - intros g Hg. rewrite Himg in Hg.
    destruct (Z.leb_spec rw 0) as [|Hpw]; [done|].
    destruct (Z.leb_spec rh 0) as [|Hph]; [done|]. cbn [orb] in Hg.
    injection Hg as <-. cbn [resized_width resized_height].
    split; [reflexivity|]. split; [reflexivity|]. split; [lia|]. split; [lia|].
    destruct (scaled_size_bounds w scale Hw Hlo Hhi) as [? ?].
    destruct (scaled_size_bounds h scale Hh Hlo Hhi) as [? ?].
    repeat split; assumption.
  - intros H1 H2. destruct (Hok H1 H2) as [Hpw Hph]. rewrite Himg.
    destruct (Z.leb_spec rw 0) as [|_]; [lia|].
    destruct (Z.leb_spec rh 0) as [|_]; [lia|]. by eexists.
  - intros Hthin. rewrite Himg. destruct Hthin as [H1 | H1].
    + rewrite (Hz1 H1). reflexivity.
    + rewrite (Hz2 H1). by destruct (rw <=? 0)%Z.
Qed.

End LetterboxProps.

Lemma letterbox_scale_never_upscales_witness :
  exists g,
    _letterbox_image (fun x => x) 3000 4000 CANVAS_SIZE CANVAS_MARGIN = Ok g
    /\ (1 <= resized_width g <= 3000)%Z /\ (1 <= resized_height g <= 4000)%Z.
Proof.
  destruct (letterbox_scale_never_upscales (fun x => x) exact_rounding 3000 4000)
    as (_ & _ & _ & _ & _ & _ & Hsize & Hok & _); [done | done |].
  destruct Hok as [g Hg]; [done | done |].
  exists g. split; [exact Hg|].
  destruct (Hsize g Hg) as (_ & _ & Hw & Hh & _). split; [exact Hw | exact Hh].
Defined.

Section SameAspect.

Variable rnd : Q -> Q.
Hypothesis Hrnd : binary64_rounding rnd.

(** An image that fits the canvas less the margins is not resized. *)
Lemma letterbox_small (w h : Z) :
  (1 <= w <= 2040)%Z -> (1 <= h <= 1490)%Z ->
  _letterbox_image rnd w h CANVAS_SIZE CANVAS_MARGIN
  = Ok (Placement w h ((2200 - w) / 2) ((1650 - h) / 2)).
Proof.
  intros Hw Hh.
  pose proof (inject_Z_pos w ltac:(lia)) as HW1.
  pose proof (inject_Z_pos h ltac:(lia)) as HH1.
  assert (HW2 : inject_Z w <= 2040 # 1).
  { change (2040 # 1) with (inject_Z 2040). rewrite <- Zle_Qle. lia. }
  assert (HH2 : inject_Z h <= 1490 # 1).
  { change (1490 # 1) with (inject_Z 1490). rewrite <- Zle_Qle. lia. }
  assert (Ha : 1 <= true_div rnd 2040 w).
  { unfold true_div. rewrite <- (rnd_one rnd Hrnd). apply (rnd_mono rnd Hrnd).
    apply Qle_shift_div_l; [lra|]. change (inject_Z 2040) with (2040 # 1). lra. }
  assert (Hb : 1 <= true_div rnd 1490 h).
  { unfold true_div. rewrite <- (rnd_one rnd Hrnd). apply (rnd_mono rnd Hrnd).
    apply Qle_shift_div_l; [lra|]. change (inject_Z 1490) with (1490 # 1). lra. }
  assert (Hs : letterbox_scale rnd CANVAS_SIZE CANVAS_MARGIN w h == 1).
  { unfold letterbox_scale.
    change (Z.max (CANVAS_SIZE.1 - CANVAS_MARGIN * 2) 1) with 2040%Z.
    change (Z.max (CANVAS_SIZE.2 - CANVAS_MARGIN * 2) 1) with 1490%Z.
    destruct (py_min3_spec (true_div rnd 2040 w) (true_div rnd 1490 h) 1)
      as ([E | [E | E]] & _ & _ & Hle); rewrite E in *; lra. }
  assert (Hsize : forall n : Z, (1 <= n <= 2040)%Z ->
            int_of_float (int_mul_float rnd n
                            (letterbox_scale rnd CANVAS_SIZE CANVAS_MARGIN w h)) = n).
  { intros n Hn. transitivity (int_of_float (inject_Z n)); [|apply int_of_float_Z; lia].
    apply int_of_float_proper. unfold int_mul_float.
    apply Qeq_trans with (rnd (inject_Z n)); [|apply (rnd_int rnd Hrnd); powers; lia].
    apply (rnd_proper rnd Hrnd).
    rewrite (float_of_int_exact rnd Hrnd n) by (powers; lia). rewrite Hs. ring. }
  rewrite (letterbox_image_sides rnd w h) by lia. cbn zeta. rewrite !Hsize by lia.
  destruct (Z.leb_spec w 0) as [|_]; [lia|]. destruct (Z.leb_spec h 0) as [|_]; [lia|].
  reflexivity.
Qed.

(** An image of the canvas's aspect ratio that is higher than the canvas
    less the margins is scaled by the height: it becomes 1986 wide and 1490
    (or, by rounding, 1489) high. *)
Lemma letterbox_large (w h : Z) :
  (1490 < h)%Z -> (w <= 2 ^ 53)%Z -> (w * 3 = h * 4)%Z ->
  exists rh, (rh = 1489 \/ rh = 1490)%Z
    /\ _letterbox_image rnd w h CANVAS_SIZE CANVAS_MARGIN = Ok (Placement 1986 rh 107 80).
Proof.
  intros Hh Hw Haspect.
  assert (Hw' : (1 <= w <= 2 ^ 53)%Z) by lia.
  assert (Hh' : (1 <= h <= 2 ^ 53)%Z) by lia.
  destruct (true_div_bounds rnd Hrnd 2040 w) as (xa & Hxa0 & Hxa & Ha1 & Ha2); [powers; lia|done|].
  destruct (true_div_bounds rnd Hrnd 1490 h) as (xb & Hxb0 & Hxb & Hb1 & Hb2); [powers; lia|done|].
  pose proof (inject_Z_le53 w ltac:(lia)) as HW2.
  pose proof (inject_Z_le53 h ltac:(lia)) as HH2.
  assert (HH1 : 1491 # 1 <= inject_Z h).
  { change (1491 # 1) with (inject_Z 1491). rewrite <- Zle_Qle. lia. }
  assert (HWH : inject_Z w * 3 == inject_Z h * 4).
  { change 3 with (inject_Z 3). change 4 with (inject_Z 4).
    rewrite <- !inject_Z_mult. by rewrite Haspect. }
  change (inject_Z 2040) with (2040 # 1) in Hxa.
  change (inject_Z 1490) with (1490 # 1) in Hxb.
  set (W := inject_Z w) in *. set (H := inject_Z h) in *.
  set (a := true_div rnd 2040 w) in *. set (b := true_div rnd 1490 h) in *.
  powers.
  assert (HxaH : xa * H == 1530) by nra.
  assert (Hba : b < a).
  { apply Qlt_le_trans with (xa * (1 - (1 # 9007199254740992))); [|done].
    apply Qle_lt_trans with (xb * (1 + (1 # 9007199254740992))); [done|].
    apply Qmult_lt_r with H; [lra|]. nra. }
  assert (Hb1' : b <= 1).
  { apply Qle_trans with (xb * (1 + (1 # 9007199254740992))); [done|].
    apply Qmult_le_r with H; [lra|]. nra. }
  assert (Hs : letterbox_scale rnd CANVAS_SIZE CANVAS_MARGIN w h = b).
  { unfold letterbox_scale.
    change (Z.max (CANVAS_SIZE.1 - CANVAS_MARGIN * 2) 1) with 2040%Z.
    change (Z.max (CANVAS_SIZE.2 - CANVAS_MARGIN * 2) 1) with 1490%Z.
    fold a b. unfold py_min3.
    rewrite (proj2 (float_lt_spec b a) Hba).
    by rewrite (proj2 (float_lt_false 1 b) Hb1'). }
  (* the products *)
  assert (HHb : 1490 * (1 - (1 # 9007199254740992)) <= H * b
                /\ H * b <= 1490 * (1 + (1 # 9007199254740992))) by (split; nra).
  assert (HWb : W * b * 3 == H * b * 4) by nra.
  assert (Hfh : float_of_int rnd h * b == H * b).
  { rewrite (float_of_int_exact rnd Hrnd h) by (powers; lia). reflexivity. }
  assert (Hfw : float_of_int rnd w * b == W * b).
  { rewrite (float_of_int_exact rnd Hrnd w) by (powers; lia). reflexivity. }
  pose proof (rnd_proper rnd Hrnd _ _ Hfh) as Hph. fold (int_mul_float rnd h b) in Hph.
  pose proof (rnd_proper rnd Hrnd _ _ Hfw) as Hpw. fold (int_mul_float rnd w b) in Hpw.
  destruct (rnd_err rnd Hrnd (H * b)) as [Hh1 Hh2]; [powers; lra | powers; lra |].
  destruct (rnd_err rnd Hrnd (W * b)) as [Hw1 Hw2]; [powers; lra | powers; lra |].
  powers.
  assert (Erw : int_of_float (int_mul_float rnd w b) = 1986%Z).
  { rewrite int_of_float_nonneg by lra. apply Qfloor_between.
    - change (inject_Z 1986) with (1986 # 1). nra.
    - change (inject_Z (1986 + 1)) with (1987 # 1). nra. }
  assert (Erh : (int_of_float (int_mul_float rnd h b) = 1489
                 \/ int_of_float (int_mul_float rnd h b) = 1490)%Z).
  { rewrite int_of_float_nonneg by lra.
    destruct (Qlt_le_dec (int_mul_float rnd h b) 1490) as [Hlt|Hge].
    - left. apply Qfloor_between.
      + change (inject_Z 1489) with (1489 # 1). nra.
      + change (inject_Z (1489 + 1)) with (1490 # 1). lra.
    - right. apply Qfloor_between.
      + change (inject_Z 1490) with (1490 # 1). lra.
      + change (inject_Z (1490 + 1)) with (1491 # 1). nra. }
  rewrite (letterbox_image_sides rnd w h) by lia. cbn zeta. rewrite Hs, Erw.
  destruct Erh as [Erh | Erh]; rewrite Erh; eexists; (split; [|reflexivity]); auto.
Qed.

End SameAspect.

Lemma letterbox_equal_borders_counterexample :
  exists w h : Z,
    (1 <= w)%Z /\ (w * snd CANVAS_SIZE = h * fst CANVAS_SIZE)%Z
    /\ forall rnd, binary64_rounding rnd ->
       exists g,
         _letterbox_image rnd w h CANVAS_SIZE CANVAS_MARGIN = Ok g
         /\ border_left g = 900%Z /\ border_right CANVAS_SIZE g = 900%Z
         /\ border_top g = 675%Z /\ border_bottom CANVAS_SIZE g = 675%Z.
Proof.
  exists 400%Z, 300%Z. split; [done|]. split; [done|].
  intros rnd Hrnd. eexists. split; [by apply letterbox_small|]. by repeat split.
Qed.

(** C5, amended. An image whose aspect ratio is that of the canvas (4:3) is
    scaled down or left as it is, never enlarged, and pasted whole: the
    resized image lies within the canvas. It is centred on each axis: the
    right border is the left border or one pixel more, and likewise bottom
    and top. The borders of the two axes are not equal: the left border is
    at least 27 pixels wider than the top border (107 against 80 once the
    image is higher than 1490 pixels). *)
Theorem letterbox_same_aspect
    (rnd : Q -> Q) (Hrnd : binary64_rounding rnd) (w h : Z) :
  (1 <= w <= 2 ^ 53)%Z ->
  (w * snd CANVAS_SIZE = h * fst CANVAS_SIZE)%Z ->
  exists g,
    _letterbox_image rnd w h CANVAS_SIZE CANVAS_MARGIN = Ok g
    /\ uncropped CANVAS_SIZE g
    /\ (resized_width g <= w)%Z /\ (resized_height g <= h)%Z
    /\ (0 <= border_right CANVAS_SIZE g - border_left g <= 1)%Z
    /\ (0 <= border_bottom CANVAS_SIZE g - border_top g <= 1)%Z
    /\ (border_top g + 27 <= border_left g)%Z
    /\ (1490 < h -> border_left g = 107 /\ border_top g = 80)%Z.
Proof.
  intros Hw Haspect. cbn [fst snd CANVAS_SIZE] in Haspect.
  destruct (Z_le_gt_dec h 1490) as [Hsmall | Hlarge].
  - eexists. split; [apply (letterbox_small rnd Hrnd); lia|].
    unfold uncropped, border_left, border_right, border_top, border_bottom.
    cbn [fst snd CANVAS_SIZE resized_width resized_height offset_x offset_y].
    repeat split; try lia; Z.div_mod_to_equations; lia.
  - destruct (letterbox_large rnd Hrnd w h) as (rh & Hrh & Hg); [lia | lia | lia |].
    eexists. split; [exact Hg|].
    unfold uncropped, border_left, border_right, border_top, border_bottom.
    cbn [fst snd CANVAS_SIZE resized_width resized_height offset_x offset_y].
    repeat split; lia.
Qed.

Lemma letterbox_same_aspect_witness :
  exists g,
    _letterbox_image (fun x => x) 4000 3000 CANVAS_SIZE CANVAS_MARGIN = Ok g
    /\ border_left g = 107%Z /\ border_top g = 80%Z.
Proof.
  destruct (letterbox_same_aspect (fun x => x) exact_rounding 4000 3000)
    as (g & Hg & _ & _ & _ & _ & _ & _ & Hb); [done | done |].
  exists g. split; [exact Hg|]. apply Hb. done.
Defined.

#[local] Close Scope Q_scope.

(** ** Placeholder substitution *)

(** *** The matcher *)

Lemma strip_prefix_app (p s : str) : strip_prefix p (p ++ s) = Some s.
Proof. induction p as [|a p IH]; simpl; [done|]. by rewrite N.eqb_refl. Qed.

Lemma strip_prefix_some (p s r : str) : strip_prefix p s = Some r -> s = p ++ r.
Proof.
  revert s. induction p as [|a p IH]; intros s; simpl; [by intros [= ->]|].
  destruct s as [|b s]; [done|]. destruct (N.eqb_spec a b) as [->|]; [|done].
  intros H. by rewrite (IH _ H).
Qed.

(** A successful [\s*] continues after some white prefix. *)
Lemma re_ws_star_some (k : str -> option str) (s r : str) :
  re_ws_star k s = Some r ->
  exists w s', s = w ++ s' /\ forallb is_space w = true /\ k s' = Some r.
Proof.
  induction s as [|c s IH]; simpl.
  - intros H. by exists [], [].
  - destruct (is_space c) eqn:Ec.
    + destruct (re_ws_star k s) as [r'|] eqn:E.
      * intros [= ->]. destruct (IH eq_refl) as (w & s' & -> & Hw & Hk).
        exists (c :: w), s'. simpl. by rewrite Ec, Hw.
      * intros H. by exists [], (c :: s).
    + intros H. by exists [], (c :: s).
Qed.

(** [\s*] takes all the white space when the continuation accepts what
    follows it. *)
Lemma re_ws_star_greedy (k : str -> option str) (w s r : str) :
  forallb is_space w = true -> starts_outside is_space s -> k s = Some r ->
  re_ws_star k (w ++ s) = Some r.
Proof.
  intros Hw Hs Hk. induction w as [|c w IH]; simpl.
  - destruct s as [|c s]; simpl; [done|]. simpl in Hs. by rewrite Hs.
  - simpl in Hw. apply andb_prop in Hw as [Hc Hw]. by rewrite Hc, (IH Hw).
Qed.

(** A stretch of characters of one kind, followed by a character of another
    kind, can be read off a string in one way only. *)
Lemma span_unique (P : char -> bool) (a a' b b' : str) :
  forallb P a = true -> forallb P a' = true ->
  starts_outside P b -> starts_outside P b' ->
  a ++ b = a' ++ b' -> a = a' /\ b = b'.
Proof.
  revert a'. induction a as [|x a IH]; intros [|x' a'] Ha Ha' Hb Hb' E; simpl in *.
  - done.
  - subst b. simpl in Hb. apply andb_prop in Ha' as [Hx _]. congruence.
  - subst b'. simpl in Hb'. apply andb_prop in Ha as [Hx _]. congruence.
  - injection E as -> E. apply andb_prop in Ha as [_ Ha]. apply andb_prop in Ha' as [_ Ha'].
    destruct (IH a' Ha Ha' Hb Hb' E) as [-> ->]. done.
Qed.

Lemma simple_key_inv (key : str) :
  simple_key key = true -> key <> [] /\ forallb key_char key = true.
Proof.
  unfold simple_key. intros [H1 H2]%andb_prop. split; [|done].
  apply negb_true_iff, bool_decide_eq_false in H1. done.
Qed.

Lemma simple_key_starts (key rest : str) :
  simple_key key = true -> starts_outside is_space (key ++ rest).
Proof.
  intros [Hne Hk]%simple_key_inv. destruct key as [|c key]; [done|]. simpl in *.
  apply andb_prop in Hk as [Hc _]. unfold key_char in Hc.
  apply andb_prop in Hc as [Hc _]. by apply negb_true_iff in Hc.
Qed.

Lemma space_not_key_char (w rest : str) :
  forallb is_space w = true -> starts_outside key_char (w ++ [RBRACE; RBRACE] ++ rest).
Proof.
  intros Hw. destruct w as [|c w]; [done|]. simpl in *.
  apply andb_prop in Hw as [Hc _]. unfold key_char. by rewrite Hc.
Qed.

(** What a match looks like. *)
Lemma match_token_some (key s rest : str) :
  match_token key s = Some rest ->
  exists w1 w2, forallb is_space w1 = true /\ forallb is_space w2 = true
    /\ s = [LBRACE; LBRACE] ++ w1 ++ key ++ w2 ++ [RBRACE; RBRACE] ++ rest.
Proof.
  unfold match_token, re_lit. intros H.
  destruct (strip_prefix [LBRACE; LBRACE] s) as [s1|] eqn:E1; [|done].
  apply strip_prefix_some in E1 as ->.
  apply re_ws_star_some in H as (w1 & s2 & -> & Hw1 & H).
  destruct (strip_prefix key s2) as [s3|] eqn:E2; [|done].
  apply strip_prefix_some in E2 as ->.
  apply re_ws_star_some in H as (w2 & s4 & -> & Hw2 & H).
  destruct (strip_prefix [RBRACE; RBRACE] s4) as [s5|] eqn:E3; [|done].
  apply strip_prefix_some in E3 as ->. injection H as ->.
  by exists w1, w2.
Qed.

(** A token of the key is matched, white space included. *)
Lemma match_token_render (key w1 w2 rest : str) :
  simple_key key = true -> forallb is_space w1 = true -> forallb is_space w2 = true ->
  match_token key (render (Tok key w1 w2) ++ rest) = Some rest.
Proof.
  intros Hk Hw1 Hw2. unfold match_token, re_lit, render.
  rewrite <- !app_assoc. rewrite strip_prefix_app.
  apply re_ws_star_greedy; [done | by apply simple_key_starts |].
  rewrite strip_prefix_app.
  apply re_ws_star_greedy; [done | done |].
  by rewrite strip_prefix_app.
Qed.

(** Two tokens that start at the same place are the same token. *)
Lemma token_unique (k k' w1 w2 w1' w2' R R' : str) :
  simple_key k = true -> simple_key k' = true ->
  forallb is_space w1 = true -> forallb is_space w2 = true ->
  forallb is_space w1' = true -> forallb is_space w2' = true ->
  w1 ++ k ++ w2 ++ [RBRACE; RBRACE] ++ R = w1' ++ k' ++ w2' ++ [RBRACE; RBRACE] ++ R' ->
  k = k' /\ R = R'.
Proof.
  intros Hk Hk' H1 H2 H1' H2' E.
  apply span_unique with (P := is_space) in E as [_ E];
    [|done|done|by apply simple_key_starts|by apply simple_key_starts].
  apply simple_key_inv in Hk as [_ Hk]. apply simple_key_inv in Hk' as [_ Hk'].
  apply span_unique with (P := key_char) in E as [-> E];
    [|done|done|by apply space_not_key_char|by apply space_not_key_char].
  split; [done|].
  apply span_unique with (P := is_space) in E as [_ E]; [|done|done|done|done].
  by injection E.
Qed.

Lemma match_token_other (key key' w1 w2 rest : str) :
  simple_key key = true -> valid_item (Tok key' w1 w2) = true -> key' <> key ->
  match_token key (render (Tok key' w1 w2) ++ rest) = None.
Proof.
  intros Hk Hv Hne. destruct (match_token key _) as [r|] eqn:E; [|done]. exfalso.
  apply match_token_some in E as (w1' & w2' & Hw1' & Hw2' & E).
  simpl in Hv. apply andb_prop in Hv as [[Hk' Hw1]%andb_prop Hw2].
  unfold render in E. rewrite <- !app_assoc in E. apply app_inv_head in E.
  apply token_unique in E as [E _]; done.
Qed.

(** No match starts at a character other than an opening brace, nor at an
    opening brace that is not followed by another. *)
Lemma match_token_no_open (key : str) (c : char) (s : str) :
  c <> LBRACE -> match_token key (c :: s) = None.
Proof.
  intros Hc. unfold match_token, re_lit. cbn [strip_prefix].
  destruct (N.eqb_spec LBRACE c); [congruence | done].
Qed.

Lemma match_token_one_open (key s : str) :
  starts_outside (N.eqb LBRACE) s -> match_token key (LBRACE :: s) = None.
Proof.
  intros Hs. unfold match_token, re_lit. cbn [strip_prefix]. rewrite N.eqb_refl.
  destruct s as [|c s]; [done|]. change ((LBRACE =? c)%N = false) in Hs. by rewrite Hs.
Qed.

(** *** The scan *)

Lemma re_pieces_skip (key : str) (xs s : str) :
  re_pieces key (length xs) (xs ++ s) = re_pieces key 0 s.
Proof. induction xs as [|x xs IH]; simpl; [by destruct s | exact IH]. Qed.

Lemma re_pieces_no_match (key : str) (c : char) (s : str) :
  match_token key (c :: s) = None ->
  re_pieces key 0 (c :: s) = inl c :: re_pieces key 0 s.
Proof. intros H. cbn [re_pieces]. by rewrite H. Qed.

Lemma re_pieces_match (key m rest : str) :
  m <> [] -> match_token key (m ++ rest) = Some rest ->
  re_pieces key 0 (m ++ rest) = inr m :: re_pieces key 0 rest.
Proof.
  intros Hm H. destruct m as [|c m]; [done|].
  cbn [app re_pieces]. change (c :: m ++ rest) with ((c :: m) ++ rest). rewrite H.
  replace (length ((c :: m) ++ rest) - length rest)%nat with (S (length m))
    by (rewrite length_app; simpl; lia).
  cbn [firstn app]. rewrite take_app_length. f_equal.
  replace (S (length m) - 1)%nat with (length m) by lia. apply re_pieces_skip.
Qed.

Lemma re_pieces_no_open (key t s : str) :
  no_open t = true -> re_pieces key 0 (t ++ s) = List.map inl t ++ re_pieces key 0 s.
Proof.
  induction t as [|c t IH]; [done|]. intros [Hc Ht]%andb_prop.
  cbn [app List.map]. rewrite re_pieces_no_match, (IH Ht); [done|].
  apply match_token_no_open. intros ->. by rewrite N.eqb_refl in Hc.
Qed.

Lemma re_pieces_one_open (key s : str) :
  starts_outside (N.eqb LBRACE) s ->
  re_pieces key 0 (LBRACE :: s) = inl LBRACE :: re_pieces key 0 s.
Proof. intros H. apply re_pieces_no_match. by apply match_token_one_open. Qed.

Lemma is_space_not_open (c : char) : is_space c = true -> (LBRACE =? c)%N = false.
Proof. intros H. destruct (N.eqb_spec LBRACE c) as [<-|]; [discriminate | done]. Qed.

Lemma key_char_not_open (c : char) : key_char c = true -> (LBRACE =? c)%N = false.
Proof.
  unfold key_char, is_brace. intros [_ H]%andb_prop.
  apply negb_true_iff, orb_false_elim in H as [H _]. by rewrite N.eqb_sym.
Qed.

(** After its two opening braces, a token has no opening brace. *)
Lemma token_body_no_open (key w1 w2 : str) :
  valid_item (Tok key w1 w2) = true ->
  no_open (w1 ++ key ++ w2 ++ [RBRACE; RBRACE]) = true.
Proof.
  simpl. intros [[Hk Hw1]%andb_prop Hw2]%andb_prop.
  apply simple_key_inv in Hk as [_ Hk].
  unfold no_open. apply forallb_forall. intros c Hc.
  apply in_app_or in Hc as [Hc|Hc]; [|apply in_app_or in Hc as [Hc|Hc];
                                       [|apply in_app_or in Hc as [Hc|Hc]]].
  - rewrite is_space_not_open; [done|]. by apply (proj1 (forallb_forall _ _) Hw1).
  - rewrite key_char_not_open; [done|]. by apply (proj1 (forallb_forall _ _) Hk).
  - rewrite is_space_not_open; [done|]. by apply (proj1 (forallb_forall _ _) Hw2).
  - by destruct Hc as [<-|[<-|[]]].
Qed.

Lemma no_open_starts (t s : str) :
  no_open t = true -> t <> [] -> starts_outside (N.eqb LBRACE) (t ++ s).
Proof.
  destruct t as [|c t]; [done|]. intros [Hc _]%andb_prop _. simpl.
  by apply negb_true_iff in Hc.
Qed.

Lemma str_eqb_eq (a b : str) : str_eqb a b = true <-> a = b.
Proof. unfold str_eqb. apply bool_decide_eq_true. Qed.

(** The scan over the text of one item. *)
Lemma re_pieces_item (key : str) (it : item) (s : str) :
  simple_key key = true -> valid_item it = true ->
  re_pieces key 0 (render it ++ s) = pieces_of_item key it ++ re_pieces key 0 s.
Proof.
  intros Hk Hv. unfold pieces_of_item. destruct it as [c|key' w1 w2].
  - cbn [is_token_of render app List.map]. apply re_pieces_no_match, match_token_no_open.
    simpl in Hv. unfold is_brace in Hv. intros ->. by rewrite N.eqb_refl in Hv.
  - cbn [is_token_of]. destruct (str_eqb key' key) eqn:E.
    + apply str_eqb_eq in E as ->.
      simpl in Hv. apply andb_prop in Hv as [[_ Hw1]%andb_prop Hw2].
      apply re_pieces_match; [done | by apply match_token_render].
    + assert (Hne : key' <> key) by (intros ->; by rewrite (proj2 (str_eqb_eq key key)) in E).
      pose proof (token_body_no_open _ _ _ Hv) as Hbody.
      pose proof (match_token_other key key' w1 w2 s Hk Hv Hne) as Hno.
      unfold render in *. cbn [app List.map] in *.
      rewrite (re_pieces_no_match _ _ _ Hno). f_equal.
      rewrite re_pieces_one_open.
      * f_equal. by apply re_pieces_no_open.
      * apply no_open_starts; [done|]. destruct w1, key', w2; discriminate.
Qed.

Lemma re_pieces_items (key : str) (items : list item) :
  simple_key key = true -> forallb valid_item items = true ->
  re_pieces key 0 (render_all items) = flat_map (pieces_of_item key) items.
Proof.
  intros Hk. induction items as [|it items IH]; [done|].
  intros [Hv Hvs]%andb_prop. unfold render_all in *. cbn [flat_map].
  by rewrite re_pieces_item, IH.
Qed.

(** *** One pattern on a text *)

Lemma render_all_chars (value : str) : render_all (List.map Chr value) = value.
Proof. induction value as [|c value IH]; [done|]. unfold render_all in *. simpl. by rewrite IH. Qed.

Lemma render_all_app (xs ys : list item) :
  render_all (xs ++ ys) = render_all xs ++ render_all ys.
Proof. unfold render_all. apply flat_map_app. Qed.

Lemma pieces_text (key value : str) (it : item) :
  concat (List.map (piece_text value) (pieces_of_item key it))
  = render_all (subst_item key value it).
Proof.
  unfold pieces_of_item, subst_item. destruct (is_token_of key it).
  - simpl. by rewrite app_nil_r, render_all_chars.
  - unfold render_all. simpl. rewrite app_nil_r.
    induction (render it) as [|c t IH]; [done|]. simpl. by rewrite IH.
Qed.

Lemma sub_unfold (key value s : str) :
  sub key value s = concat (List.map (piece_text value) (re_pieces key 0 s)).
Proof. reflexivity. Qed.

Lemma sub_nil (key value : str) : sub key value [] = [].
Proof. reflexivity. Qed.

Lemma sub_item (key value : str) (it : item) (s : str) :
  simple_key key = true -> valid_item it = true ->
  sub key value (render it ++ s) = render_all (subst_item key value it) ++ sub key value s.
Proof.
  intros Hk Hv. rewrite !sub_unfold, re_pieces_item by done.
  by rewrite List.map_app, concat_app, pieces_text.
Qed.

Lemma sub_no_open (key value t s : str) :
  no_open t = true -> sub key value (t ++ s) = t ++ sub key value s.
Proof.
  intros Ht. rewrite !sub_unfold, re_pieces_no_open by done.
  rewrite List.map_app, concat_app. f_equal.
  clear Ht. induction t as [|c t IH]; [done|]. simpl. by rewrite IH.
Qed.

Lemma sub_one_open (key value s : str) :
  starts_outside (N.eqb LBRACE) s ->
  sub key value (LBRACE :: s) = LBRACE :: sub key value s.
Proof. intros Hs. rewrite !sub_unfold, re_pieces_one_open by done. reflexivity. Qed.

Lemma no_open_app (a b : str) : no_open (a ++ b) = no_open a && no_open b.
Proof. apply forallb_app. Qed.

Lemma sub_open_then_plain (key value t s : str) :
  no_open t = true -> t <> [] \/ s = [] ->
  sub key value (LBRACE :: t ++ s) = LBRACE :: t ++ sub key value s.
Proof.
  intros Ht Hts. rewrite sub_one_open.
  - by rewrite sub_no_open.
  - destruct Hts as [Hne | ->]; [by apply no_open_starts|].
    rewrite app_nil_r. destruct t as [|c t]; [done|].
    apply andb_prop in Ht as [Hc _]. simpl. by apply negb_true_iff in Hc.
Qed.

(** *** Slices of a token *)

Lemma render_token (key w1 w2 : str) :
  render (Tok key w1 w2) = LBRACE :: LBRACE :: (w1 ++ key ++ w2 ++ [RBRACE; RBRACE]).
Proof. reflexivity. Qed.

(** A run that starts inside a token: the rest of the token is kept. *)
Lemma sub_token_suffix (key value key' w1 w2 A t s : str) :
  valid_item (Tok key' w1 w2) = true ->
  A ++ t = render (Tok key' w1 w2) -> A <> [] ->
  sub key value (t ++ s) = t ++ sub key value s.
Proof.
  intros Hv E HA. pose proof (token_body_no_open _ _ _ Hv) as Hbody.
  rewrite render_token in E. set (body := w1 ++ key' ++ w2 ++ [RBRACE; RBRACE]) in *.
  destruct A as [|a A]; [done|]. injection E as -> E.
  destruct A as [|a A].
  - simpl in E. subst t. cbn [app]. apply sub_open_then_plain; [done|].
    left. unfold body. destruct w1, key', w2; discriminate.
  - injection E as -> E. apply sub_no_open.
    rewrite <- E, no_open_app in Hbody. by apply andb_prop in Hbody as [_ ?].
Qed.

(** A run that lies within a token, and is not all of it, is left as it is. *)
Lemma sub_token_infix (key value key' w1 w2 A r B : str) :
  simple_key key = true ->
  valid_item (Tok key' w1 w2) = true ->
  A ++ r ++ B = render (Tok key' w1 w2) -> A <> [] \/ B <> [] ->
  sub key value r = r.
Proof.
  intros Hk Hv E HAB. pose proof (token_body_no_open _ _ _ Hv) as Hbody.
  rewrite render_token in E. set (body := w1 ++ key' ++ w2 ++ [RBRACE; RBRACE]) in *.
  assert (Hplain : forall t, no_open t = true -> sub key value t = t).
  { intros t Ht. rewrite <- (app_nil_r t) at 1. by rewrite sub_no_open, sub_nil, app_nil_r. }
  assert (Hopen : forall t, no_open t = true -> sub key value (LBRACE :: t) = LBRACE :: t).
  { intros t Ht. rewrite <- (app_nil_r t) at 1.
    rewrite sub_open_then_plain, sub_nil, app_nil_r; auto. }
  destruct A as [|a A].
  - destruct HAB as [|HB]; [done|]. cbn [app] in E.
    destruct r as [|c r]; [done|]. injection E as -> E.
    destruct r as [|c r]; [by apply (Hopen [])|]. injection E as -> E.
    assert (Hr : no_open r = true).
    { rewrite <- E, no_open_app in Hbody. by apply andb_prop in Hbody as [? _]. }
    rewrite sub_unfold, re_pieces_no_match.
    + cbn [List.map concat piece_text app]. f_equal. rewrite <- sub_unfold. by apply Hopen.
    + destruct (match_token key (LBRACE :: LBRACE :: r)) as [rest|] eqn:Em; [|done].
      exfalso. apply match_token_some in Em as (w1' & w2' & Hw1' & Hw2' & Em).
      injection Em as Em. rewrite Em in E. unfold body in E.
      simpl in Hv. apply andb_prop in Hv as [[Hk' Hw1]%andb_prop Hw2].
      rewrite <- !app_assoc in E.
      change (w1' ++ key ++ w2' ++ [RBRACE; RBRACE] ++ rest ++ B
              = w1 ++ key' ++ w2 ++ [RBRACE; RBRACE] ++ []) in E.
      apply token_unique in E as [_ E]; try done.
      apply app_eq_nil in E as [_ ->]. done.
  - injection E as -> E. destruct A as [|a A].
    + cbn [app] in E. destruct r as [|c r]; [done|]. injection E as -> E.
      apply Hopen. rewrite <- E, no_open_app in Hbody. by apply andb_prop in Hbody as [? _].
    + injection E as -> E. apply Hplain.
      rewrite <- E, !no_open_app in Hbody.
      apply andb_prop in Hbody as [_ Hb]. by apply andb_prop in Hb as [? _].
Qed.

(** *** One pattern on a run *)

Lemma valid_chars (value : str) :
  no_brace value = true -> forallb valid_item (List.map Chr value) = true.
Proof.
  intros H. unfold no_brace in H. rewrite forallb_forall in *.
  intros it [c [<- Hc]]%in_map_iff. simpl. by apply H.
Qed.

Lemma valid_subst_item (key value : str) (it : item) :
  no_brace value = true -> valid_item it = true ->
  forallb valid_item (subst_item key value it) = true.
Proof.
  intros Hval Hv. unfold subst_item. destruct (is_token_of key it).
  - by apply valid_chars.
  - simpl. by rewrite Hv.
Qed.

Lemma fill_chars (values : list (str * str)) (value : str) :
  fill values (List.map Chr value) = List.map Chr value.
Proof. induction value as [|c value IH]; [done|]. unfold fill in *. simpl. by rewrite IH. Qed.

Lemma fill_app (values : list (str * str)) (xs ys : list item) :
  fill values (xs ++ ys) = fill values xs ++ fill values ys.
Proof. unfold fill. apply flat_map_app. Qed.

Lemma fill_subst_item (values : list (str * str)) (key value : str) (it : item) :
  dict_lookup values key = Some value ->
  fill values (subst_item key value it) = fill_item values it.
Proof.
  intros Hl. unfold subst_item. destruct it as [c|key' w1 w2]; [done|]. cbn [is_token_of].
  destruct (str_eqb key' key) eqn:E.
  - apply str_eqb_eq in E as ->. rewrite fill_chars. cbn [fill_item]. by rewrite Hl.
  - unfold fill. simpl. by rewrite app_nil_r.
Qed.

Lemma sub_item_alone (key value : str) (it : item) :
  simple_key key = true -> valid_item it = true ->
  sub key value (render it) = render_all (subst_item key value it).
Proof.
  intros Hk Hv. rewrite <- (app_nil_r (render it)).
  by rewrite sub_item, sub_nil, app_nil_r.
Qed.

(** Applying the pattern of [key] to a part [r] of a tidy text leaves a tidy
    text that stands for the same filled template: the tokens of the key
    that lie within [r] are replaced, and nothing else changes. *)
Lemma sub_slice (key value : str) (items : list item) (A r B : str) :
  simple_key key = true -> no_brace value = true ->
  forallb valid_item items = true ->
  render_all items = A ++ r ++ B ->
  exists items',
    forallb valid_item items' = true
    /\ render_all items' = A ++ sub key value r ++ B
    /\ same_filling key value items items'.
Proof.
  intros Hk Hval. revert A r B.
  induction items as [|it items IH]; intros A r B Hvs E.
  - symmetry in E. apply app_eq_nil in E as [-> [-> ->]%app_eq_nil].
    exists []. by repeat split.
  - cbn [forallb] in Hvs. apply andb_prop in Hvs as [Hv Hvs].
    change (render_all (it :: items)) with (render it ++ render_all items) in E.
    (* a helper: keep the item, recurse on the rest with a shorter prefix *)
    assert (Hkeep : forall A' r' B',
               render_all items = A' ++ r' ++ B' ->
               exists items',
                 forallb valid_item items' = true
                 /\ render_all items' = (render it ++ A') ++ sub key value r' ++ B'
                 /\ same_filling key value (it :: items) items').
    { intros A' r' B' E'. destruct (IH A' r' B' Hvs E') as (items'' & V & R & F).
      exists (it :: items''). split; [by cbn; rewrite Hv|]. split.
      - change (render_all (it :: items'')) with (render it ++ render_all items'').
        by rewrite R, <- app_assoc.
      - intros values Hl.
        change (fill values (it :: items'')) with (fill_item values it ++ fill values items'').
        by rewrite (F values Hl). }
    apply app_eq_app in E as [l [[E1 E2] | [E1 E2]]].
    + (* [A] ends within the item *)
      destruct l as [|c l].
      { rewrite app_nil_r in E1. subst A. simpl in E2. symmetry in E2.
        destruct (Hkeep [] r B E2) as (items' & V & R & F).
        exists items'. by rewrite app_nil_r in R. }
      symmetry in E2. apply app_eq_app in E2 as [l2 [[E3 E4] | [E3 E4]]].
      * (* the run ends within the item *)
        destruct l2 as [|c2 l2].
        { (* ... exactly at its end *)
          rewrite app_nil_r in E3. subst r. simpl in E4. subst B.
          destruct A as [|a A].
          - simpl in E1. rewrite <- E1.
            destruct (IH [] [] (render_all items) Hvs eq_refl) as (items'' & V & R & F).
            exists (subst_item key value it ++ items''). split; [|split].
            + rewrite forallb_app, V, valid_subst_item; done.
            + rewrite render_all_app, R. cbn [app]. rewrite sub_nil. cbn [app].
              by rewrite sub_item_alone.
            + intros values Hl. rewrite fill_app, (F values Hl), (fill_subst_item _ _ _ _ Hl).
              reflexivity.
          - destruct it as [ch0|key' w1 w2].
            { simpl in E1. injection E1 as _ E1. by destruct A. }
            rewrite (sub_token_infix key value key' w1 w2 (a :: A) (c :: l) [])
              by (rewrite ?app_nil_r; auto).
            exists (Tok key' w1 w2 :: items). split; [by cbn [forallb]; rewrite Hv|].
            split; [|done].
            change (render_all (Tok key' w1 w2 :: items))
              with (render (Tok key' w1 w2) ++ render_all items).
            by rewrite E1, <- app_assoc. }
        (* ... before its end *)
        subst B.
        assert (Hr : sub key value r = r).
        { destruct it as [ch0|key' w1 w2].
          - rewrite E3 in E1. destruct A as [|a A]; simpl in E1.
            + destruct r as [|x r]; [done|]. injection E1 as _ E1.
              by destruct r.
            + injection E1 as _ E1. destruct A; [|done]. by destruct r.
          - apply (sub_token_infix key value key' w1 w2 A r (c2 :: l2)); auto.
            by rewrite E1, E3. }
        rewrite Hr. exists (it :: items). split; [by cbn [forallb]; rewrite Hv, Hvs|].
        split; [|done].
        change (render_all (it :: items)) with (render it ++ render_all items).
        by rewrite E1, E3, <- !app_assoc.
      * (* the run goes on after the item *)
        subst r.
        destruct (IH [] l2 B Hvs E4) as (items'' & V & R & F). cbn [app] in R.
        destruct A as [|a A].
        -- simpl in E1. rewrite <- E1. rewrite sub_item by done.
           exists (subst_item key value it ++ items''). split; [|split].
           ++ rewrite forallb_app, V, valid_subst_item; done.
           ++ rewrite render_all_app, R. cbn [app]. by rewrite <- app_assoc.
           ++ intros values Hl. rewrite fill_app, (F values Hl), (fill_subst_item _ _ _ _ Hl).
              reflexivity.
        -- destruct it as [ch0|key' w1 w2].
           { simpl in E1. injection E1 as _ E1. by destruct A. }
           rewrite (sub_token_suffix key value key' w1 w2 (a :: A) (c :: l) l2) by auto.
           exists (Tok key' w1 w2 :: items''). split; [by cbn [forallb]; rewrite Hv|].
           split.
           ++ change (render_all (Tok key' w1 w2 :: items''))
                with (render (Tok key' w1 w2) ++ render_all items'').
              by rewrite R, E1, <- !app_assoc.
           ++ intros values Hl.
              change (fill values (Tok key' w1 w2 :: items''))
                with (fill_item values (Tok key' w1 w2) ++ fill values items'').
              by rewrite (F values Hl).
    + (* the item ends within [A] *)
      subst A. destruct (Hkeep l r B E2) as (items' & V & R & F).
      exists items'. done.
Qed.

(** *** All the patterns, on a run and on a paragraph *)

Lemma usable_tail values kv vs : usable values (kv :: vs) -> usable values vs.
Proof. intros H key value Hin. apply H. by right. Qed.

Lemma sub_all_slice (values vs : list (str * str)) (items : list item) (A r B : str) :
  usable values vs ->
  forallb valid_item items = true ->
  render_all items = A ++ r ++ B ->
  exists items',
    forallb valid_item items' = true
    /\ render_all items' = A ++ sub_all vs r ++ B
    /\ fill values items' = fill values items.
Proof.
  revert items r. induction vs as [|[key value] vs IH]; intros items r Hu Hv E.
  - by exists items.
  - destruct (Hu key value) as (Hk & Hval & _ & Hl); [by left|].
    destruct (sub_slice key value items A r B Hk Hval Hv E) as (items1 & V1 & R1 & F1).
    destruct (IH items1 (sub key value r) (usable_tail _ _ _ Hu) V1 R1)
      as (items2 & V2 & R2 & F2).
    exists items2. split; [done|]. split; [done|]. by rewrite F2, (F1 values Hl).
Qed.

(** The pass over the runs of a paragraph. *)
Lemma sub_all_runs (values : list (str * str)) (texts : list str) (items : list item)
      (A : str) :
  usable values values ->
  forallb valid_item items = true ->
  render_all items = A ++ concat texts ->
  exists items',
    forallb valid_item items' = true
    /\ render_all items' = A ++ concat (List.map (sub_all values) texts)
    /\ fill values items' = fill values items.
Proof.
  intros Hu. revert items A. induction texts as [|t texts IH]; intros items A Hv E.
  - by exists items.
  - cbn [concat] in E.
    destruct (sub_all_slice values values items A t (concat texts) Hu Hv E)
      as (items1 & V1 & R1 & F1).
    rewrite app_assoc in R1.
    destruct (IH items1 (A ++ sub_all values t) V1 R1) as (items2 & V2 & R2 & F2).
    exists items2. split; [done|]. split; [|by rewrite F2, F1].
    rewrite R2. cbn [List.map concat]. by rewrite <- app_assoc.
Qed.

Lemma sub_items (key value : str) (items : list item) :
  simple_key key = true -> forallb valid_item items = true ->
  sub key value (render_all items) = render_all (flat_map (subst_item key value) items).
Proof.
  intros Hk. induction items as [|it items IH]; [done|].
  intros [Hv Hvs]%andb_prop.
  change (render_all (it :: items)) with (render it ++ render_all items).
  rewrite sub_item, (IH Hvs) by done. cbn [flat_map]. by rewrite render_all_app.
Qed.

Lemma valid_subst_items (key value : str) (items : list item) :
  no_brace value = true -> forallb valid_item items = true ->
  forallb valid_item (flat_map (subst_item key value) items) = true.
Proof.
  intros Hval. induction items as [|it items IH]; [done|].
  intros [Hv Hvs]%andb_prop. cbn [flat_map].
  by rewrite forallb_app, valid_subst_item, IH.
Qed.

Lemma str_eqb_sym (a b : str) : str_eqb a b = str_eqb b a.
Proof. unfold str_eqb. apply bool_decide_ext. split; congruence. Qed.

Lemma fill_subst_first (key value : str) (vs : list (str * str)) (items : list item) :
  fill vs (flat_map (subst_item key value) items) = fill ((key, value) :: vs) items.
Proof.
  induction items as [|it items IH]; [done|].
  cbn [flat_map]. rewrite fill_app, IH.
  change (fill ((key, value) :: vs) (it :: items))
    with (fill_item ((key, value) :: vs) it ++ fill ((key, value) :: vs) items).
  f_equal. unfold subst_item. destruct it as [c|key' w1 w2]; [done|].
  cbn [is_token_of fill_item dict_lookup]. rewrite (str_eqb_sym key key').
  destruct (str_eqb key' key) eqn:E.
  - apply fill_chars.
  - unfold fill. cbn. by rewrite app_nil_r.
Qed.

Lemma fill_nil (items : list item) : fill [] items = items.
Proof.
  induction items as [|it items IH]; [done|].
  change (fill [] (it :: items)) with (fill_item [] it ++ fill [] items).
  rewrite IH. by destruct it.
Qed.

(** On a whole tidy text, the patterns fill the template. *)
Lemma sub_all_items (vs : list (str * str)) (items : list item) :
  (forall key value, In (key, value) vs -> simple_key key = true /\ no_brace value = true) ->
  forallb valid_item items = true ->
  sub_all vs (render_all items) = expand_all vs items.
Proof.
  revert items. induction vs as [|[key value] vs IH]; intros items Hu Hv.
  - unfold expand_all. by rewrite fill_nil.
  - destruct (Hu key value) as [Hk Hval]; [by left|].
    cbn [sub_all foldl fst snd]. fold (sub_all vs (sub key value (render_all items))).
    rewrite sub_items by done.
    rewrite IH; [|intros k v Hin; apply Hu; by right | by apply valid_subst_items].
    unfold expand_all. by rewrite fill_subst_first.
Qed.

(** *** [_apply_patterns] and [process] *)

Lemma findall_nil_pieces (key s : str) :
  findall key s = [] -> re_pieces key 0 s = List.map inl s.
Proof.
  unfold findall. induction s as [|c s IH]; [done|]. cbn [re_pieces].
  destruct (match_token key (c :: s)) as [rest|]; [done|].
  cbn [omap List.map]. intros H. by rewrite (IH H).
Qed.

Lemma sub_no_match (key value s : str) :
  length (findall key s) = 0%nat -> sub key value s = s.
Proof.
  intros H. destruct (findall key s) eqn:E; [|done].
  rewrite sub_unfold, (findall_nil_pieces _ _ E).
  clear. induction s as [|c s IH]; [done|]. simpl. by rewrite IH.
Qed.

Lemma apply_pure_text (vs : list (str * str)) (t : str) (ch : bool) :
  fst (apply_pure vs t ch) = sub_all vs t.
Proof.
  revert t ch. induction vs as [|[key value] vs IH]; intros t ch; [done|].
  cbn [apply_pure]. by rewrite IH.
Qed.

Lemma apply_pure_unchanged (vs : list (str * str)) (t : str) (ch : bool) :
  snd (apply_pure vs t ch) = false -> ch = false /\ sub_all vs t = t.
Proof.
  revert t ch. induction vs as [|[key value] vs IH]; intros t ch; [done|].
  cbn [apply_pure]. intros H. apply IH in H as [Hch Ht].
  destruct (Nat.ltb_spec 0 (length (findall key t))) as [|Hz]; [done|].
  split; [done|]. cbn [sub_all foldl fst snd]. fold (sub_all vs (sub key value t)).
  rewrite Ht. apply sub_no_match. lia.
Qed.

Lemma apply_patterns_loop_pure (vs : list (str * str)) (t : str) (ch : bool) :
  (forall key value, In (key, value) vs -> is_literal_template value = true) ->
  _apply_patterns_loop vs t ch = Ok (apply_pure vs t ch).
Proof.
  revert t ch. induction vs as [|[key value] vs IH]; intros t ch Hlit; [done|].
  cbn [_apply_patterns_loop apply_pure]. unfold subn.
  rewrite (Hlit key value) by (by left). cbn [bind].
  apply IH. intros k v Hin. apply (Hlit k v). by right.
Qed.

Lemma mapM_pure {A B} (f : A -> result B) (g : A -> B) (l : list A) :
  (forall x, In x l -> f x = Ok (g x)) -> mapM f l = Ok (List.map g l).
Proof.
  induction l as [|x l IH]; intros H; [done|]. cbn [mapM List.map].
  rewrite (H x) by (by left). cbn [bind]. rewrite IH; [done|].
  intros y Hy. apply H. by right.
Qed.

Lemma storable_stored (t : str) :
  storable t = true -> forallb xml_char t = true /\ stored_text t = t.
Proof.
  unfold storable, stored_text. induction t as [|c t IH]; [done|].
  cbn [forallb List.map]. intros [[Hx Hc]%andb_prop Ht]%andb_prop.
  destruct (IH Ht) as [-> ->]. rewrite Hx. apply negb_true_iff in Hc. by rewrite Hc.
Qed.

Lemma assign_run_text_storable (r : run) (t : str) :
  storable t = true -> assign_run_text r t = Ok (set_run_text r t).
Proof. intros [Hx Hs]%storable_stored. unfold assign_run_text. by rewrite Hx, Hs. Qed.

Lemma assign_paragraph_text_storable (p : paragraph) (t : str) :
  storable t = true -> assign_paragraph_text p t = Ok (set_paragraph_text p t).
Proof. intros [Hx Hs]%storable_stored. unfold assign_paragraph_text. by rewrite Hx, Hs. Qed.

Section Process.

Variable values : list (str * str).
Hypothesis Hlit : forall key value, In (key, value) values -> is_literal_template value = true.

Lemma process_run_pure (r : run) :
  assignable values (run_text r) -> process_run values r = Ok (processed_run values r).
Proof.
  unfold assignable, process_run, processed_run, _apply_patterns.
  rewrite apply_patterns_loop_pure by done. cbn [bind].
  destruct (apply_pure values (run_text r) false) as [t []]; cbn [fst snd]; [|done].
  intros H. by apply assign_run_text_storable, H.
Qed.

Lemma process_pure (para : paragraph) :
  processable values para -> process values para = Ok (processed values para).
Proof.
  intros [Hr Hc]. unfold process, processed, _apply_patterns.
  rewrite (mapM_pure _ (processed_run values))
    by (intros r Hin; by apply process_run_pure, Hr).
  cbn [bind]. rewrite apply_patterns_loop_pure by done. cbn [bind].
  unfold assignable in Hc. unfold paragraph_text at 1 3. cbn [p_runs].
  destruct (apply_pure values _ false) as [t ch]; cbn [fst snd] in *.
  destruct ch; cbn [andb]; [|done].
  destruct (str_eqb t _); cbn [negb]; [done|].
  by apply assign_paragraph_text_storable, Hc.
Qed.

Lemma processed_run_text (r : run) :
  run_text (processed_run values r) = sub_all values (run_text r).
Proof.
  unfold processed_run. rewrite <- (apply_pure_text values (run_text r) false).
  destruct (apply_pure values (run_text r) false) as [t ch] eqn:E. cbn [fst].
  destruct ch.
  - by destruct r.
  - pose proof (apply_pure_unchanged values (run_text r) false) as H.
    rewrite E in H. destruct (H eq_refl) as [_ Ht].
    rewrite <- (apply_pure_text values (run_text r) false), E in Ht. cbn [fst] in Ht.
    by rewrite Ht.
Qed.

Lemma processed_run_format (r : run) :
  run_format (processed_run values r) = run_format r.
Proof.
  unfold processed_run. destruct (apply_pure values (run_text r) false) as [t ch] eqn:E.
  destruct ch; [|done]. destruct r as [fmt text| |]; [done| |].
  - exfalso.
    assert (H : snd (apply_pure values [] false) = false).
    { clear. induction values as [|[k v] vs IH]; [done|]. exact IH. }
    cbn [run_text] in E. by rewrite E in H.
  - exfalso.
    assert (H : snd (apply_pure values [] false) = false).
    { clear. induction values as [|[k v] vs IH]; [done|]. exact IH. }
    cbn [run_text] in E. by rewrite E in H.
Qed.

(** The text of a processed paragraph: the patterns applied to each run,
    then to the whole. *)
Lemma processed_text (para : paragraph) :
  paragraph_text (processed values para)
  = sub_all values (concat (List.map (sub_all values) (List.map run_text (p_runs para)))).
Proof.
  unfold processed.
  set (para1 := {| p_centered := _; p_runs := _ |}).
  assert (Hc : paragraph_text para1
               = concat (List.map (sub_all values) (List.map run_text (p_runs para)))).
  { unfold paragraph_text, para1. cbn [p_runs]. f_equal.
    rewrite !List.map_map. apply List.map_ext. intros r. apply processed_run_text. }
  rewrite <- Hc. set (combined := paragraph_text para1).
  rewrite <- (apply_pure_text values combined false).
  destruct (apply_pure values combined false) as [t ch] eqn:E. cbn [fst].
  destruct ch; cbn [andb].
  - destruct (str_eqb t combined) eqn:Et; cbn [negb].
    + apply str_eqb_eq in Et. by rewrite Et.
    + unfold set_paragraph_text, paragraph_text. simpl. by rewrite app_nil_r.
  - pose proof (apply_pure_unchanged values combined false) as H.
    rewrite E in H. destruct (H eq_refl) as [_ Ht].
    rewrite <- (apply_pure_text values combined false), E in Ht. cbn [fst] in Ht.
    by rewrite Ht.
Qed.

End Process.

(** *** The paragraphs of the processed document *)

Lemma flat_map_map {A B C} (f : B -> list C) (g : A -> B) (l : list A) :
  flat_map f (List.map g l) = flat_map (fun x => f (g x)) l.
Proof. induction l as [|x l IH]; [done|]. simpl. by rewrite IH. Qed.

Lemma map_flat_map {A B C} (k : B -> C) (f : A -> list B) (l : list A) :
  List.map k (flat_map f l) = flat_map (fun x => List.map k (f x)) l.
Proof. induction l as [|x l IH]; [done|]. simpl. by rewrite List.map_app, IH. Qed.

Lemma indexed_by_cons {A I} (h : nat -> I) (x : A) (l : list A) :
  indexed_by h (x :: l) = (h 0%nat, x) :: indexed_by (fun i => h (S i)) l.
Proof. reflexivity. Qed.

Lemma indexed_by_map {A B I} (h : nat -> I) (f : A -> B) (l : list A) :
  indexed_by h (List.map f l) = List.map (on_snd f) (indexed_by h l).
Proof.
  revert h. induction l as [|x l IH]; intros h; [done|].
  cbn [List.map]. rewrite !indexed_by_cons. cbn [List.map]. by rewrite IH.
Qed.

Lemma indexed_indexed_by {A} (l : list A) : indexed l = indexed_by (fun i => i) l.
Proof. reflexivity. Qed.

Lemma paragraphs_of_select (content : list block) :
  paragraphs_of content = omap select_para (indexed content).
Proof.
  unfold paragraphs_of. generalize (indexed content). intros l.
  induction l as [|[i [p|cen rows]] l IH]; [done| |]; cbn; by rewrite IH.
Qed.

Lemma tables_of_select (content : list block) :
  tables_of content = omap select_table (indexed content).
Proof.
  unfold tables_of. generalize (indexed content). intros l.
  induction l as [|[i [p|cen rows]] l IH]; [done| |]; cbn; by rewrite IH.
Qed.

Lemma omap_map_para {I} (g : paragraph -> paragraph) (l : list (I * block)) :
  omap select_para (List.map (on_snd (map_para g)) l)
  = List.map (on_snd g) (omap select_para l)
  /\ omap select_table (List.map (on_snd (map_para g)) l) = omap select_table l.
Proof.
  induction l as [|[i [p|cen rows]] l [IH1 IH2]]; [done| |]; cbn; by rewrite IH1, IH2.
Qed.

Lemma omap_map_cells {I} (F : list block -> list block) (l : list (I * block)) :
  omap select_para (List.map (on_snd (map_cells F)) l) = omap select_para l
  /\ omap select_table (List.map (on_snd (map_cells F)) l)
     = List.map (on_snd (List.map (fun r : row => (fst r, List.map F (snd r)))))
                (omap select_table l).
Proof.
  induction l as [|[i [p|cen rows]] l [IH1 IH2]]; [done| |]; cbn; by rewrite IH1, IH2.
Qed.

Lemma paragraphs_of_map_para (g : paragraph -> paragraph) (content : list block) :
  paragraphs_of (List.map (map_para g) content)
  = List.map (on_snd g) (paragraphs_of content).
Proof.
  rewrite !paragraphs_of_select, !indexed_indexed_by, indexed_by_map.
  apply omap_map_para.
Qed.

Lemma cell_paragraphs_map (g : paragraph -> paragraph) (t : nat) (rows : list row) :
  cell_paragraphs t
    (List.map (fun r : row => (fst r, List.map (List.map (map_para g)) (snd r))) rows)
  = List.map (on_snd g) (cell_paragraphs t rows).
Proof.
  unfold cell_paragraphs.
  rewrite !indexed_indexed_by, indexed_by_map, flat_map_map, map_flat_map.
  apply flat_map_ext. intros [r [h cells]]. cbn [on_snd fst snd].
  rewrite !indexed_indexed_by, indexed_by_map, flat_map_map, map_flat_map.
  apply flat_map_ext. intros [c content]. cbn [on_snd fst snd].
  rewrite paragraphs_of_map_para, !List.map_map.
  apply List.map_ext. by intros [i para].
Qed.

Lemma iter_paragraphs_cells (doc : document) :
  _iter_paragraphs doc
  = List.map (fun '(i, para) => (InBody i, para)) (paragraphs_of doc)
    ++ flat_map (fun '(t, rows) => cell_paragraphs t rows) (tables_of doc).
Proof. reflexivity. Qed.

Lemma paragraphs_of_lookup (content : list block) (i : nat) (p : paragraph) :
  In (i, p) (paragraphs_of content) <-> content !! i = Some (BPara p).
Proof.
  unfold paragraphs_of, indexed. rewrite <- list_elem_of_In, list_elem_of_omap. split.
  - intros ([j b] & Hin & Hsel).
    apply elem_of_lookup_imap in Hin as (k & y & [= -> ->] & Hk).
    destruct y as [q|]; [|done]. by injection Hsel as <- <-.
  - intros H. exists (i, BPara p). split; [|done]. apply elem_of_lookup_imap. eauto.
Qed.

Lemma tables_of_lookup (content : list block) (t : nat) (rows : list row) :
  In (t, rows) (tables_of content) <-> exists cen, content !! t = Some (BTable cen rows).
Proof.
  unfold tables_of, indexed. rewrite <- list_elem_of_In, list_elem_of_omap. split.
  - intros ([j b] & Hin & Hsel).
    apply elem_of_lookup_imap in Hin as (k & y & [= -> ->] & Hk).
    destruct y as [|cen rs]; [done|]. injection Hsel as <- <-. by exists cen.
  - intros [cen H]. exists (t, BTable cen rows). split; [|done].
    apply elem_of_lookup_imap. eauto.
Qed.

Lemma indexed_lookup {A} (l : list A) (i : nat) (x : A) :
  In (i, x) (indexed l) <-> l !! i = Some x.
Proof.
  unfold indexed. rewrite <- list_elem_of_In, elem_of_lookup_imap. split.
  - by intros (k & y & [= -> ->] & Hk).
  - intros H. eauto.
Qed.

Lemma cell_paragraphs_lookup (t : nat) (rows : list row) (ref : pref) (p : paragraph) :
  In (ref, p) (cell_paragraphs t rows) <->
  exists r c i h cells content,
    ref = InCell t r c i /\ rows !! r = Some (h, cells) /\ cells !! c = Some content
    /\ content !! i = Some (BPara p).
Proof.
  unfold cell_paragraphs. rewrite in_flat_map. split.
  - intros ([r [h cells]] & Hr%indexed_lookup & H). apply in_flat_map in H
      as ([c content] & Hc%indexed_lookup & H).
    apply in_map_iff in H as ([i q] & [= <- <-] & Hi%paragraphs_of_lookup).
    by exists r, c, i, h, cells, content.
  - intros (r & c & i & h & cells & content & -> & Hr & Hc & Hi).
    exists (r, (h, cells)). split; [by apply indexed_lookup|].
    apply in_flat_map. exists (c, content). split; [by apply indexed_lookup|].
    apply in_map_iff. exists (i, p). split; [done|]. by apply paragraphs_of_lookup.
Qed.

(** [_iter_paragraphs] lists the paragraphs with the references that
    designate them. *)
Lemma iter_paragraphs_at (doc : document) (ref : pref) (p : paragraph) :
  In (ref, p) (_iter_paragraphs doc) <-> paragraph_at ref doc = Some p.
Proof.
  rewrite iter_paragraphs_cells, in_app_iff, in_map_iff, in_flat_map.
  unfold document, row, cell in *. split.
  - intros [([i q] & [= <- <-] & Hi%paragraphs_of_lookup)
           | ([t rows] & [cen Ht]%tables_of_lookup & H)].
    + cbn. unfold document, row, cell in *. by rewrite Hi.
    + apply cell_paragraphs_lookup in H
        as (r & c & i & h & cells & content & -> & Hr & Hc & Hi).
      cbn. unfold document, row, cell in *. by rewrite Ht, Hr, Hc, Hi.
  - destruct ref as [i|t r c i]; cbn; unfold document, row, cell in *.
    + destruct (doc !! i) as [[q|]|] eqn:Hi; try done. intros [= ->].
      left. exists (i, p). split; [done|]. by apply paragraphs_of_lookup.
    + destruct (doc !! t) as [[|cen rows]|] eqn:Ht; try done.
      destruct (rows !! r) as [[h cells]|] eqn:Hr; try done.
      destruct (cells !! c) as [content|] eqn:Hc; try done.
      destruct (content !! i) as [[q|]|] eqn:Hi; try done. intros [= ->].
      right. exists (t, rows). split; [apply tables_of_lookup; by exists cen|].
      apply cell_paragraphs_lookup. by exists r, c, i, h, cells, content.
Qed.

(** The paragraphs that [_iter_paragraphs] lists are those of the body and
    of the cells of the tables of the body. *)
Lemma iter_paragraphs_body (doc : document) (p : paragraph) :
  In (BPara p) doc -> exists ref, In (ref, p) (_iter_paragraphs doc).
Proof.
  intros (i & Hi)%list_elem_of_In%list_elem_of_lookup_1.
  exists (InBody i). apply iter_paragraphs_at. cbn. unfold document in *. by rewrite Hi.
Qed.

Lemma iter_paragraphs_cell (doc : document) (cen : bool) (rows : list row) (r : row)
      (content : list block) (p : paragraph) :
  In (BTable cen rows) doc -> In r rows -> In content (snd r) -> In (BPara p) content ->
  exists ref, In (ref, p) (_iter_paragraphs doc).
Proof.
  intros (t & Ht)%list_elem_of_In%list_elem_of_lookup_1
         (j & Hj)%list_elem_of_In%list_elem_of_lookup_1
         (c & Hc)%list_elem_of_In%list_elem_of_lookup_1
         (i & Hi)%list_elem_of_In%list_elem_of_lookup_1.
  exists (InCell t j c i). apply iter_paragraphs_at. destruct r as [h cells].
  cbn in *. unfold document, row, cell in *. by rewrite Ht, Hj, Hc, Hi.
Qed.

(** Without exceptions [replace_placeholders] is [replaced]. *)
Lemma replace_placeholders_pure (values : list (str * str)) (doc : document) :
  (forall key value, In (key, value) values -> is_literal_template value = true) ->
  (forall rp, In rp (_iter_paragraphs doc) -> processable values (snd rp)) ->
  replace_placeholders doc values = Ok (replaced values doc).
Proof.
  intros Hlit Hdoc. unfold replace_placeholders, replaced.
  rewrite (mapM_pure _ (map_para (processed values))).
  2:{ intros [p|cen rows] Hin; [|done]. cbn [on_para map_para].
      destruct (iter_paragraphs_body doc p Hin) as [ref Href].
      by rewrite (process_pure values Hlit p (Hdoc _ Href)). }
  cbn [bind]. apply mapM_pure. intros [p|cen rows] Hin; [done|].
  apply in_map_iff in Hin as ([q|cen' rows'] & [= -> ->] & Hin).
  cbn [on_table map_cells].
  rewrite (mapM_pure _ (fun r : row =>
             (fst r, List.map (List.map (map_para (processed values))) (snd r)))); [done|].
  intros r Hr.
  rewrite (mapM_pure _ (List.map (map_para (processed values)))); [done|].
  intros content Hcontent. apply mapM_pure. intros [p|c rs] Hp; [|done].
  cbn [on_para map_para].
  destruct (iter_paragraphs_cell doc cen rows r content p Hin Hr Hcontent Hp) as [ref Href].
  by rewrite (process_pure values Hlit p (Hdoc _ Href)).
Qed.

(** What comes out of [mapM], item by item. *)
Lemma mapM_Forall2 {A B} (f : A -> result B) (l : list A) (l' : list B) :
  mapM f l = Ok l' -> Forall2 (fun a b => f a = Ok b) l l'.
Proof.
  revert l'. induction l as [|a l IH]; intros l'; cbn [mapM].
  - intros [= <-]. constructor.
  - destruct (f a) as [b|e] eqn:Ea; [|done]. cbn [bind].
    destruct (mapM f l) as [bs|e] eqn:El; [|done]. cbn [bind]. intros [= <-].
    constructor; [done | by apply IH].
Qed.

(** [replace_placeholders] does not go into the tables nested in cells. *)
Lemma replace_placeholders_nested (doc doc' : document) (values : list (str * str)) :
  replace_placeholders doc values = Ok doc' -> nested_kept doc doc'.
Proof.
  unfold replace_placeholders.
  destruct (mapM _ doc) as [doc1|e] eqn:E1; [|done]. cbn [bind]. intros E2.
  apply mapM_Forall2 in E1, E2. unfold nested_kept.
  revert doc' E2. induction E1 as [|b b1 l l1 Hb _ IH]; intros doc' E2.
  - inversion E2. constructor.
  - inversion E2 as [|? b' ? l' Hb' Hl']; subst. constructor; [|by apply IH].
    destruct b as [p|cen rows]; cbn [on_para] in Hb.
    + destruct (process values p) as [p1|]; [|done]. injection Hb as <-.
      cbn [on_table] in Hb'. injection Hb' as <-. by eexists.
    + injection Hb as <-. cbn [on_table] in Hb'.
      match type of Hb' with
      | context [mapM ?f rows] => destruct (mapM f rows) as [rows'|] eqn:Er; [|done]
      end. injection Hb' as <-.
      exists rows'. split; [done|]. apply mapM_Forall2 in Er.
      eapply Forall2_impl; [exact Er|]. intros r r' Hr. cbn beta in Hr.
      match type of Hr with
      | context [mapM ?f (snd r)] => destruct (mapM f (snd r)) as [cells|] eqn:Ec; [|done]
      end. injection Hr as <-.
      split; [done|]. cbn [snd]. apply mapM_Forall2 in Ec.
      eapply Forall2_impl; [exact Ec|]. intros content content' Hc.
      apply mapM_Forall2 in Hc. eapply Forall2_impl; [exact Hc|].
      intros c c' Hcc. destruct c as [q|]; cbn [on_para] in Hcc.
      * destruct (process values q) as [q1|]; [|done]. injection Hcc as <-. by eexists.
      * by injection Hcc as <-.
Qed.

Lemma iter_paragraphs_replaced (values : list (str * str)) (doc : document) :
  _iter_paragraphs (replaced values doc)
  = List.map (on_snd (processed values)) (_iter_paragraphs doc).
Proof.
  rewrite !iter_paragraphs_cells. unfold replaced.
  set (g := processed values).
  rewrite !paragraphs_of_select, !tables_of_select, !indexed_indexed_by, !indexed_by_map.
  rewrite (proj1 (omap_map_cells _ _)), (proj2 (omap_map_cells _ _)).
  rewrite (proj1 (omap_map_para _ _)), (proj2 (omap_map_para _ _)).
  rewrite List.map_app, !List.map_map, flat_map_map, map_flat_map. f_equal.
  - apply List.map_ext. by intros [i para].
  - apply flat_map_ext. intros [t rows]. cbn [on_snd fst snd].
    apply cell_paragraphs_map.
Qed.

(** *** Counting and occurrences *)

Lemma findall_items (key : str) (items : list item) :
  simple_key key = true -> forallb valid_item items = true ->
  length (findall key (render_all items)) = length (List.filter (is_token_of key) items).
Proof.
  intros Hk Hv. unfold findall. rewrite re_pieces_items by done. clear Hv.
  induction items as [|it items IH]; [done|].
  cbn [flat_map List.filter]. rewrite omap_app, length_app, IH.
  unfold pieces_of_item. destruct (is_token_of key it); [done|].
  cbn [length]. replace (omap _ (List.map inl (render it))) with (@nil str); [done|].
  induction (render it) as [|c t IHt]; [done|]. exact IHt.
Qed.

Lemma dict_lookup_in (values : list (str * str)) (key value : str) :
  dict_lookup values key = Some value -> In (key, value) values.
Proof.
  induction values as [|[k v] values IH]; [done|]. cbn [dict_lookup].
  destruct (str_eqb k key) eqn:E.
  - apply str_eqb_eq in E as ->. intros [= ->]. by left.
  - intros H. right. by apply IH.
Qed.

Lemma dict_lookup_key (values : list (str * str)) (key : str) :
  In key (List.map fst values) -> exists value, dict_lookup values key = Some value.
Proof.
  induction values as [|[k v] values IH]; [done|]. cbn [List.map fst dict_lookup].
  destruct (str_eqb k key) eqn:E; [by eexists|].
  intros [->|Hin]; [|by apply IH]. by rewrite (proj2 (str_eqb_eq key key)) in E.
Qed.

Lemma dict_lookup_nodup (values : list (str * str)) (key value : str) :
  NoDup (List.map fst values) -> In (key, value) values ->
  dict_lookup values key = Some value.
Proof.
  induction values as [|[k v] values IH]; [done|]. cbn [List.map fst dict_lookup].
  intros [Hk Hnd]%NoDup_cons [[= -> ->]|Hin].
  - by rewrite (proj2 (str_eqb_eq key key)).
  - destruct (str_eqb k key) eqn:E; [|by apply IH].
    apply str_eqb_eq in E as ->. exfalso. apply Hk.
    apply list_elem_of_In, in_map_iff. by exists (key, value).
Qed.

Section Filled.

Variable values : list (str * str).
Hypothesis Hvalues :
  forall key value, In (key, value) values -> simple_key key = true /\ no_brace value = true.

Lemma valid_fill (items : list item) :
  forallb valid_item items = true -> forallb valid_item (fill values items) = true.
Proof.
  induction items as [|it items IH]; [done|]. intros [Hv Hvs]%andb_prop.
  change (fill values (it :: items)) with (fill_item values it ++ fill values items).
  rewrite forallb_app, (IH Hvs), andb_true_r.
  destruct it as [c|key w1 w2]; cbn [fill_item]; [by cbn [forallb]; rewrite Hv|].
  destruct (dict_lookup values key) as [value|] eqn:E; [|by cbn [forallb]; rewrite Hv].
  apply valid_chars. by apply (Hvalues key value), dict_lookup_in.
Qed.

(** No token of a key of the dictionary is left in a filled template. *)
Lemma fill_no_token (key : str) (items : list item) :
  In key (List.map fst values) ->
  List.filter (is_token_of key) (fill values items) = [].
Proof.
  intros [value Hl]%dict_lookup_key.
  induction items as [|it items IH]; [done|].
  change (fill values (it :: items)) with (fill_item values it ++ fill values items).
  rewrite List.filter_app, IH, app_nil_r.
  destruct it as [c|key' w1 w2]; cbn [fill_item]; [done|].
  destruct (dict_lookup values key') as [v|] eqn:E.
  - clear. induction v as [|c v IHv]; [done|]. exact IHv.
  - cbn. destruct (str_eqb key' key) eqn:Ek; [|done].
    apply str_eqb_eq in Ek as ->. congruence.
Qed.

Lemma fill_fill (items : list item) : fill values (fill values items) = fill values items.
Proof.
  induction items as [|it items IH]; [done|].
  change (fill values (it :: items)) with (fill_item values it ++ fill values items).
  rewrite fill_app, IH. f_equal.
  destruct it as [c|key w1 w2]; cbn [fill_item]; [done|].
  destruct (dict_lookup values key) as [v|] eqn:E; [apply fill_chars|].
  unfold fill. cbn [flat_map fill_item]. by rewrite E, app_nil_r.
Qed.

End Filled.

Lemma startswith_app (v b : str) : startswith (v ++ b) v = true.
Proof.
  unfold startswith. apply bool_decide_eq_true. rewrite strip_prefix_app. by eexists.
Qed.

Lemma contains_app (v a b : str) : contains v (a ++ v ++ b) = true.
Proof.
  induction a as [|c a IH].
  - cbn [app]. destruct (v ++ b) as [|c s] eqn:E.
    + apply app_eq_nil in E as [-> _]. reflexivity.
    + cbn [contains]. rewrite <- E, startswith_app. reflexivity.
  - cbn [app contains]. rewrite IH. apply orb_true_r.
Qed.

(** The value of a token that occurs in the template occurs in the filled
    template. *)
Lemma expand_all_contains (values : list (str * str)) (key value : str) (items : list item) :
  dict_lookup values key = Some value ->
  List.filter (is_token_of key) items <> [] ->
  contains value (expand_all values items) = true.
Proof.
  intros Hl. unfold expand_all. induction items as [|it items IH]; [done|].
  change (fill values (it :: items)) with (fill_item values it ++ fill values items).
  rewrite render_all_app. cbn [List.filter].
  destruct (is_token_of key it) eqn:E.
  - intros _. destruct it as [c|key' w1 w2]; [done|]. cbn in E.
    apply str_eqb_eq in E as ->. cbn [fill_item]. rewrite Hl, render_all_chars.
    apply (contains_app value []).
  - intros H. specialize (IH H).
    clear -IH. induction (render_all (fill_item values it)) as [|c a IHa]; [done|].
    cbn [app contains]. rewrite IHa. apply orb_true_r.
Qed.

Lemma count_in_sum (doc : document) (key : str) :
  count_in doc key
  = list_sum (List.map (fun rp : pref * paragraph =>
                          length (findall key (paragraph_text (snd rp))))
                       (_iter_paragraphs doc)).
Proof.
  unfold count_in. generalize (_iter_paragraphs doc). intros l.
  assert (H : forall n,
             foldl (fun (n : nat) '(_, para) =>
                      (n + length (findall key (paragraph_text para)))%nat) n l
             = (n + list_sum (List.map (fun rp : pref * paragraph =>
                          length (findall key (paragraph_text (snd rp)))) l))%nat).
  { induction l as [|[ref para] l IH]; intros n.
    - simpl. lia.
    - cbn [foldl List.map list_sum fold_right snd]. rewrite IH. unfold list_sum. lia. }
  by rewrite H.
Qed.

(** *** The paragraphs of a tidy template *)

Lemma plain_value_inv (value : str) :
  plain_value value = true ->
  no_brace value = true /\ is_literal_template value = true /\ storable value = true.
Proof.
  unfold plain_value. intros [H Hs]%andb_prop. split; [|split; [|done]];
    unfold no_brace, is_literal_template; rewrite forallb_forall in *;
    intros c Hc; by apply H, andb_prop in Hc as [? ?].
Qed.

(** *** Texts that are stored as they are *)

Lemma storable_app (a b : str) : storable (a ++ b) = storable a && storable b.
Proof. apply forallb_app. Qed.

Lemma storable_concat (l : list str) :
  (forall t, In t l -> storable t = true) -> storable (concat l) = true.
Proof.
  induction l as [|t l IH]; intros H; [done|]. cbn [concat].
  rewrite storable_app, (H t) by (by left). apply IH. intros t' Ht'. apply H. by right.
Qed.

Lemma storable_part (l : list str) (t : str) :
  storable (concat l) = true -> In t l -> storable t = true.
Proof.
  induction l as [|t' l IH]; [done|]. cbn [concat]. rewrite storable_app.
  intros [H1 H2]%andb_prop [-> | Hin]; [done | by apply IH].
Qed.

Lemma re_pieces_chars (P : char -> bool) (key : str) (skip : nat) (s : str) :
  forallb P s = true ->
  Forall (fun p : char + str => match p with inl c => P c = true | inr _ => True end)
         (re_pieces key skip s).
Proof.
  revert skip. induction s as [|c s IH]; intros skip; [constructor|].
  cbn [forallb re_pieces]. intros [Hc Hs]%andb_prop.
  destruct skip as [|k]; [|by apply IH].
  destruct (match_token key (c :: s)); constructor; try done; by apply IH.
Qed.

Lemma sub_storable (key value s : str) :
  storable value = true -> storable s = true -> storable (sub key value s) = true.
Proof.
  intros Hv Hs. unfold sub. apply storable_concat. intros t Ht.
  apply in_map_iff in Ht as (piece & <- & Hin).
  pose proof (re_pieces_chars _ key 0 s Hs) as H.
  rewrite List.Forall_forall in H. specialize (H piece Hin).
  destruct piece as [c|m]; [|done]. unfold storable. cbn [forallb]. by rewrite H.
Qed.

Lemma sub_all_storable (values : list (str * str)) (s : str) :
  (forall key value, In (key, value) values -> storable value = true) ->
  storable s = true -> storable (sub_all values s) = true.
Proof.
  revert s. induction values as [|[key value] values IH]; intros s Hv Hs; [done|].
  cbn [sub_all foldl fst snd]. fold (sub_all values (sub key value s)).
  apply IH; [intros k v Hin; apply (Hv k v); by right|].
  apply sub_storable; [apply (Hv key value); by left | done].
Qed.

(** The paragraphs of a document as it is read, with values that are stored
    as they are, are processed without exception. *)
Lemma storable_processable (values : list (str * str)) (para : paragraph) :
  (forall key value, In (key, value) values -> storable value = true) ->
  storable (paragraph_text para) = true -> processable values para.
Proof.
  intros Hv Hp.
  assert (Hr : forall r, In r (p_runs para) -> storable (run_text r) = true).
  { intros r Hin. apply (storable_part _ _ Hp), in_map_iff. by exists r. }
  split.
  - intros r Hin _. rewrite apply_pure_text. apply sub_all_storable; [done | by apply Hr].
  - intros _. rewrite apply_pure_text. apply sub_all_storable; [done|].
    apply storable_concat. intros t Ht. rewrite List.map_map in Ht.
    apply in_map_iff in Ht as (r & <- & Hin). rewrite processed_run_text.
    apply sub_all_storable; [done | by apply Hr].
Qed.

Section Tidy.

Variable values : list (str * str).
Hypothesis Hnodup : NoDup (List.map fst values).
Hypothesis Hplain :
  forall key value, In (key, value) values ->
    simple_key key = true /\ plain_value value = true.

Lemma values_usable : usable values values.
Proof.
  intros key value Hin. destruct (Hplain key value Hin) as [Hk Hv].
  apply plain_value_inv in Hv as (? & ? & ?). repeat split; try done.
  by apply dict_lookup_nodup.
Qed.

Lemma values_simple :
  forall key value, In (key, value) values -> simple_key key = true /\ no_brace value = true.
Proof. intros key value Hin. destruct (values_usable key value Hin) as (? & ? & _). done. Qed.

Lemma values_literal :
  forall key value, In (key, value) values -> is_literal_template value = true.
Proof. intros key value Hin. by destruct (values_usable key value Hin) as (_ & _ & ? & _). Qed.

Lemma values_storable :
  forall key value, In (key, value) values -> storable value = true.
Proof.
  intros key value Hin. destruct (Hplain key value Hin) as [_ Hv].
  by apply plain_value_inv in Hv as (_ & _ & ?).
Qed.

Lemma processed_tidy (para : paragraph) (items : list item) :
  forallb valid_item items = true ->
  render_all items = paragraph_text para ->
  paragraph_text (processed values para) = expand_all values items.
Proof.
  intros Hv E. rewrite processed_text.
  destruct (sub_all_runs values (List.map run_text (p_runs para)) items []
              values_usable Hv E) as (items' & V & R & F).
  cbn [app] in R. rewrite <- R, (sub_all_items values items' values_simple V).
  unfold expand_all. by rewrite F.
Qed.

Lemma apply_pure_no_tokens (vs : list (str * str)) (X : list item) (ch : bool) :
  (forall key value, In (key, value) vs ->
     simple_key key = true /\ List.filter (is_token_of key) X = []) ->
  forallb valid_item X = true ->
  apply_pure vs (render_all X) ch = (render_all X, ch).
Proof.
  intros Hvs HX. induction vs as [|[key value] vs IH]; [done|].
  destruct (Hvs key value) as [Hk Hno]; [by left|].
  assert (Hz : length (findall key (render_all X)) = 0%nat)
    by (by rewrite findall_items, Hno).
  cbn [apply_pure]. rewrite Hz, (sub_no_match key value _ Hz). cbn [Nat.ltb Nat.leb].
  apply IH. intros k v Hin. apply (Hvs k v). by right.
Qed.

(** The texts of the runs after the first pass, when each run is tidy. *)
Lemma runs_filled (runs : list run) :
  (forall r, In r runs -> tidy (run_text r)) ->
  exists X,
    forallb valid_item X = true
    /\ (forall key, In key (List.map fst values) -> List.filter (is_token_of key) X = [])
    /\ render_all X = concat (List.map run_text (List.map (processed_run values) runs)).
Proof.
  induction runs as [|r runs IH]; intros Ht.
  - by exists [].
  - destruct IH as (X & V & N & R); [intros; apply Ht; by right|].
    destruct (Ht r) as (items & Hv & E); [by left|].
    exists (fill values items ++ X). split; [|split].
    + by rewrite forallb_app, (valid_fill values values_simple items Hv), V.
    + intros key Hkey. by rewrite List.filter_app, fill_no_token, N.
    + rewrite render_all_app, R. cbn [List.map concat]. f_equal.
      rewrite processed_run_text.
      rewrite <- E. by rewrite (sub_all_items values items values_simple Hv).
Qed.

Lemma processed_runs_kept (para : paragraph) :
  (forall r, In r (p_runs para) -> tidy (run_text r)) ->
  p_runs (processed values para) = List.map (processed_run values) (p_runs para).
Proof.
  intros Ht. destruct (runs_filled (p_runs para) Ht) as (X & V & N & R).
  unfold processed. unfold paragraph_text at 1. cbn [p_runs]. rewrite <- R.
  rewrite apply_pure_no_tokens; [done | | done].
  intros key value Hin. split; [by apply (values_simple key value)|].
  apply N, in_map_iff. by exists (key, value).
Qed.

Lemma processed_filled (rp : pref * paragraph) :
  filled_paragraph values rp (on_snd (processed values) rp).
Proof.
  destruct rp as [ref para]. unfold filled_paragraph, on_snd. cbn [fst snd].
  split; [done|]. split; [|split].
  - unfold processed. by destruct (apply_pure values _ false) as [t []]; destruct (str_eqb _ _).
  - apply processed_tidy.
  - intros Ht. rewrite (processed_runs_kept para Ht).
    clear Ht. induction (p_runs para) as [|r runs IH]; constructor; [|exact IH].
    split; [apply processed_run_format|].
    intros items Hv E. rewrite processed_run_text.
    rewrite <- E. apply sub_all_items; [apply values_simple | done].
Qed.

End Tidy.

Lemma list_sum_positive {A} (f : A -> nat) (l : list A) :
  (1 <= list_sum (List.map f l))%nat -> exists x, In x l /\ (1 <= f x)%nat.
Proof.
  induction l as [|x l IH]; [simpl; lia|]. cbn [List.map list_sum fold_right].
  intros H. destruct (f x) as [|n] eqn:E.
  - destruct IH as (y & Hy & Hf); [exact H|]. exists y. split; [by right | done].
  - exists x. split; [by left | lia].
Qed.

Lemma replace_placeholders_counterexample :
  List.map (count_everywhere nested_template) PLACEHOLDER_KEYS = [1; 1; 1]%nat
  /\ replace_placeholders nested_template sample_values = Ok nested_template
  /\ (exists doc', replace_placeholders flat_template values_with_token = Ok doc'
                   /\ count_in doc' (u "经营地址") = 1%nat)
  /\ (exists doc', replace_placeholders braced_template values_with_empty = Ok doc'
                   /\ count_in doc' (u "客户名称") = 1%nat)
  /\ replace_placeholders flat_template values_with_control = Raise XMLValueError
  /\ (exists doc', replace_placeholders flat_template values_with_return = Ok doc'
                   /\ forallb (fun rp => negb (contains (u "ACME" ++ [CR] ++ u "Corp")
                                                        (paragraph_text (snd rp))))
                              (_iter_paragraphs doc') = true).
Proof.
  split; [vm_compute; reflexivity|]. split; [vm_compute; reflexivity|].
  split; [eexists; (split; [vm_compute; reflexivity|]); vm_compute; reflexivity|].
  split; [eexists; (split; [vm_compute; reflexivity|]); vm_compute; reflexivity|].
  split; [vm_compute; reflexivity|].
  eexists; (split; [vm_compute; reflexivity|]); vm_compute; reflexivity.
Qed.

(** C1, amended. Take a template in which every paragraph of the body and of
    the cells of the tables of the body holds no carriage return and no
    character that XML excludes, and braces only to delimit tokens
    [{{ key }}]; and take values without brace, backslash, carriage return
    and excluded character (a control character other than tab and newline)
    for keys without white space and brace. Then [replace_placeholders] returns
    a document with the same paragraphs in which every token of a key of the
    mapping is replaced by its value, wherever the run boundaries fall: the
    text of each such paragraph is the filled template. When each run is
    tidy by itself the runs and their formatting are kept and each run is
    filled (the first pass); otherwise the paragraph text is set as a whole
    (the second pass). Hence these paragraphs hold no token of any key
    afterwards, and the value of each key whose token occurred in one of
    them occurs. Paragraphs of tables nested in cells are not visited:
    whatever the values, a table nested in a cell is returned as it was. *)
Theorem replace_placeholders_fills (doc : document) (values : list (str * str)) :
  NoDup (List.map fst values) ->
  (forall key value, In (key, value) values ->
     simple_key key = true /\ plain_value value = true) ->
  (forall rp, In rp (_iter_paragraphs doc) ->
     tidy (paragraph_text (snd rp)) /\ storable (paragraph_text (snd rp)) = true) ->
  exists doc',
    replace_placeholders doc values = Ok doc'
    /\ Forall2 (filled_paragraph values) (_iter_paragraphs doc) (_iter_paragraphs doc')
    /\ (forall key, In key (List.map fst values) -> count_in doc' key = 0%nat)
    /\ (forall key value, In (key, value) values -> (1 <= count_in doc key)%nat ->
          exists rp, In rp (_iter_paragraphs doc')
                     /\ contains value (paragraph_text (snd rp)) = true)
    /\ (forall vs out, replace_placeholders doc vs = Ok out -> nested_kept doc out).
Proof.
  intros Hnodup Hplain Hread.
  assert (Htidy : forall rp, In rp (_iter_paragraphs doc) -> tidy (paragraph_text (snd rp)))
    by (intros rp Hin; by destruct (Hread rp Hin)).
  pose proof (values_simple values Hnodup Hplain) as Hsimple.
  exists (replaced values doc).
  split.
  { apply replace_placeholders_pure; [apply (values_literal values Hnodup Hplain)|].
    intros rp Hin. apply storable_processable; [apply (values_storable values Hplain)|].
    by destruct (Hread rp Hin). }
  clear Hread.
  rewrite iter_paragraphs_replaced. split; [|split; [|split]].
  - clear Htidy. induction (_iter_paragraphs doc) as [|rp l IH]; constructor; [|exact IH].
    by apply processed_filled.
  - intros key Hkey. rewrite count_in_sum, iter_paragraphs_replaced, List.map_map.
    assert (Hk : simple_key key = true).
    { apply in_map_iff in Hkey as ([k v] & <- & Hin). by apply (Hsimple k v). }
    induction (_iter_paragraphs doc) as [|[ref para] l IH]; [done|].
    cbn [List.map list_sum fold_right on_snd snd].
    destruct (Htidy (ref, para)) as (items & Hv & E); [by left|].
    rewrite (processed_tidy values Hnodup Hplain para items Hv E).
    unfold expand_all.
    rewrite findall_items by (done || by apply valid_fill).
    rewrite (fill_no_token values key items Hkey).
    cbn [length Nat.add]. apply IH. intros rp Hin. apply Htidy. by right.
  - intros key value Hin Hcount. rewrite count_in_sum in Hcount.
    pose proof (dict_lookup_nodup values key value Hnodup Hin) as Hl.
    destruct (Hsimple key value Hin) as [Hk _].
    apply list_sum_positive in Hcount as ([ref para] & Hrp & Hpos). cbn [snd] in Hpos.
    destruct (Htidy (ref, para) Hrp) as (items & Hv & E). cbn [snd] in E.
    rewrite <- E, findall_items in Hpos by done.
    exists (ref, processed values para). split.
    + apply in_map_iff. by exists (ref, para).
    + cbn [snd]. rewrite (processed_tidy values Hnodup Hplain para items Hv E).
      apply (expand_all_contains values key value items Hl).
      intros Hnil. rewrite Hnil in Hpos. simpl in Hpos. lia.
  - intros vs out. apply replace_placeholders_nested.
Qed.

Lemma replace_placeholders_fills_witness :
  exists doc',
    replace_placeholders split_template sample_values = Ok doc'
    /\ (forall key, In key PLACEHOLDER_KEYS -> count_in doc' key = 0%nat)
    /\ exists rp, In rp (_iter_paragraphs doc')
                  /\ contains (u "ACME Corp") (paragraph_text (snd rp)) = true.
Proof.
  destruct (replace_placeholders_fills split_template sample_values)
    as (doc' & Hrun & _ & Hzero & Hocc & _).
  - apply (bool_decide_unpack _). vm_compute. exact I.
  - intros key value [[= <- <-] | [[= <- <-] | [[= <- <-] | []]]]; split; reflexivity.
  - intros rp [<- | [<- | []]]; (split; [|reflexivity]).
    + exists (List.map Chr (u "客户：") ++ [Tok (u "客户名称") [] []]
              ++ List.map Chr (u "，") ++ [Tok (u "行业分类") (u " ") (u " ")]).
      split; reflexivity.
    + exists [Tok (u "经营地址") [] []]. split; reflexivity.
  - exists doc'. split; [exact Hrun|]. split; [exact Hzero|].
    apply (Hocc (u "客户名称") (u "ACME Corp")); [by left | vm_compute; lia].
Defined.
(* ===================================================================== *)
(** * Further properties                                                  *)
(* ===================================================================== *)

(** ** Stripping *)

Lemma lstrip_spec (s : str) :
  exists w, s = w ++ lstrip s /\ forallb is_space w = true
            /\ starts_outside is_space (lstrip s).
Proof.
  induction s as [|c s IH]; simpl.
  - by exists [].
  - destruct (is_space c) eqn:E.
    + destruct IH as (w & Hs & Hw & Ho). exists (c :: w). simpl. rewrite E.
      split; [by f_equal | done].
    + exists []. simpl. done.
Qed.

Lemma lstrip_fixed (s : str) : starts_outside is_space s -> lstrip s = s.
Proof. destruct s as [|c s]; simpl; [done|]. by intros ->. Qed.

Lemma forallb_rev (P : char -> bool) (s : str) : forallb P (rev s) = forallb P s.
Proof.
  induction s as [|c s IH]; [done|]. simpl. rewrite forallb_app, IH. simpl.
  rewrite andb_true_r. apply andb_comm.
Qed.

Lemma rstrip_spec (s : str) :
  exists w, s = rstrip s ++ w /\ forallb is_space w = true
            /\ starts_outside is_space (rev (rstrip s)).
Proof.
  unfold rstrip. destruct (lstrip_spec (rev s)) as (w & Hs & Hw & Ho).
  exists (rev w). rewrite rev_involutive, forallb_rev. split; [|done].
  rewrite <- rev_app_distr, <- Hs. by rewrite rev_involutive.
Qed.

Lemma strip_spec (s : str) :
  exists w1 w2, s = w1 ++ strip s ++ w2
    /\ forallb is_space w1 = true /\ forallb is_space w2 = true /\ trimmed (strip s).
Proof.
  unfold strip. destruct (lstrip_spec s) as (w1 & Hs & Hw1 & Ho).
  destruct (rstrip_spec (lstrip s)) as (w2 & Ht & Hw2 & Hr).
  exists w1, w2. split; [by rewrite <- Ht|]. split; [done|]. split; [done|].
  split; [|done].
  destruct (rstrip (lstrip s)) as [|c r] eqn:E; [done|].
  rewrite Ht in Ho. exact Ho.
Qed.

Lemma strip_trimmed (s : str) : trimmed s -> strip s = s.
Proof.
  intros [H1 H2]. unfold strip, rstrip. rewrite (lstrip_fixed s H1).
  rewrite (lstrip_fixed _ H2). apply rev_involutive.
Qed.

Lemma strip_idem (s : str) : strip (strip s) = strip s.
Proof.
  destruct (strip_spec s) as (_ & _ & _ & _ & _ & H). by apply strip_trimmed.
Qed.

Lemma strip_In (c : char) (s : str) : In c (strip s) -> In c s.
Proof.
  destruct (strip_spec s) as (w1 & w2 & Hs & _). intros H.
  rewrite Hs. apply in_or_app. right. apply in_or_app. by left.
Qed.

(** Stripping keeps a first character that is not white. *)
Lemma strip_cons (c : char) (l : str) :
  is_space c = false -> exists t, strip (c :: l) = c :: t.
Proof.
  intros Hc. destruct (strip_spec (c :: l)) as (w1 & w2 & Hs & Hw1 & Hw2 & _).
  destruct w1 as [|x w1].
  - destruct (strip (c :: l)) as [|y t].
    + cbn in Hs. subst w2. cbn in Hw2. by rewrite Hc in Hw2.
    + injection Hs as <- _. by exists t.
  - injection Hs as <- _. cbn in Hw1. by rewrite Hc in Hw1.
Qed.

(** ** Base names *)

Lemma no_sep_forallb (name : str) :
  ~ In SEP name -> forallb (fun x => negb (x =? SEP)%N) name = true.
Proof.
  intros H. apply forallb_forall. intros x Hx. apply negb_true_iff, N.eqb_neq.
  intros ->. done.
Qed.

Lemma basename_plain (name : str) : ~ In SEP name -> basename name = name.
Proof.
  intros H. unfold basename, rfind.
  by rewrite (rfind_from_absent _ _ _ (no_sep_forallb _ H)).
Qed.

Lemma basename_after_sep (dir name : str) :
  ~ In SEP name -> basename (dir ++ SEP :: name) = name.
Proof.
  intros H. unfold basename, rfind.
  change (dir ++ SEP :: name) with (dir ++ [SEP] ++ name).
  rewrite app_assoc, rfind_from_app by lia.
  rewrite (rfind_from_absent _ _ _ (no_sep_forallb _ H)).
  change (0 <=? -1) with false. cbn iota.
  rewrite rfind_from_app by lia. cbn [rfind_from length].
  rewrite N.eqb_refl. change (0 <=? -1) with false. cbn iota.
  destruct (Z.leb_spec 0 (0 + Z.of_nat (length dir))) as [_|]; [|lia].
  unfold slice_from.
  replace (Z.to_nat (0 + Z.of_nat (length dir) + 1)) with (length (dir ++ [SEP]))
    by (rewrite length_app; simpl; lia).
  by rewrite drop_app_length.
Qed.

(** ** The certificate *)

Lemma find_certificate_some (files : list str) (f : str) :
  find_certificate files = Some f ->
  exists pre post, files = pre ++ f :: post /\ is_certificate f = true
                   /\ Forall (fun g => is_certificate g = false) pre.
Proof.
  induction files as [|g files IH]; simpl; [done|].
  destruct (is_certificate g) eqn:E.
  - intros [= <-]. by exists [], files.
  - intros (pre & post & -> & Hf & Hpre)%IH.
    exists (g :: pre), post. repeat split; [done|]. by constructor.
Qed.

(** X1. [find_certificate] returns the first file of the list whose base
    name holds 房产证 or 不动产权证, and [None] exactly when no file does;
    only the base name counts, not the directories of the path. *)
Theorem find_certificate_first (files : list str) :
  (forall f, find_certificate files = Some f ->
     exists pre post, files = pre ++ f :: post /\ is_certificate f = true
                      /\ Forall (fun g => is_certificate g = false) pre)
  /\ (find_certificate files = None <-> Forall (fun g => is_certificate g = false) files)
  /\ (forall dir name, ~ In SEP name ->
        is_certificate (dir ++ SEP :: name) = is_certificate name).
Proof.
  split; [|split].
  - apply find_certificate_some.
  - induction files as [|g files IH]; simpl; [done|].
    destruct (is_certificate g) eqn:E.
    + split; [done|]. intros H. apply Forall_cons in H as [H _]. congruence.
    + rewrite IH. split; [by constructor | by intros [_ ?]%Forall_cons].
  - intros dir name H. unfold is_certificate.
    by rewrite basename_after_sep, basename_plain.
Qed.

Lemma find_certificate_first_witness :
  find_certificate [u "d/走访1.jpg"; u "d/房产证.jpg"; u "d/不动产权证.png"]
  = Some (u "d/房产证.jpg")
  /\ is_certificate (u "房产证/走访1.jpg") = is_certificate (u "走访1.jpg").
Proof.
  split; [reflexivity|].
  apply (proj2 (proj2 (find_certificate_first [])) (u "房产证") (u "走访1.jpg")).
  vm_compute. intuition discriminate.
Defined.

(** ** The patterns of the certificate *)

Lemma re_star_line (cls : char -> bool) (s : str) :
  exists g rest, s = g ++ rest /\ forallb cls g = true /\ starts_outside cls rest
                 /\ re_star cls Some s = Some rest.
Proof.
  induction s as [|c s IH]; simpl.
  - by exists [], [].
  - destruct (cls c) eqn:E.
    + destruct IH as (g & rest & -> & Hg & Hr & ->).
      exists (c :: g), rest. simpl. by rewrite E.
    + exists [], (c :: s). by simpl.
Qed.

Lemma re_star_greedy (cls : char -> bool) (v rest : str) :
  forallb cls v = true -> starts_outside cls rest ->
  re_star cls Some (v ++ rest) = Some rest.
Proof.
  intros Hv Hr. destruct (re_star_line cls (v ++ rest)) as (g & r & E & Hg & Ho & ->).
  by destruct (span_unique cls v g rest r Hv Hg Hr Ho E) as [_ ->].
Qed.

(** The two quantifiers of the pattern of 建筑面积 run to the end of the
    line together. *)
Lemma re_star_then_line (cls : char -> bool) (s : str) :
  (forall c, cls c = true -> not_newline c = true) ->
  re_star cls (re_star not_newline Some) s = re_star not_newline Some s.
Proof.
  intros Hsub. induction s as [|c s IH]; [done|]. cbn [re_star].
  destruct (cls c) eqn:E.
  - rewrite (Hsub c E), IH.
    destruct (re_star_line not_newline s) as (g & rest & _ & _ & _ & ->). done.
  - destruct (not_newline c); [|done].
    destruct (re_star_line not_newline s) as (g & rest & _ & _ & _ & ->). done.
Qed.

Lemma digit_or_dot_line (c : char) : digit_or_dot c = true -> not_newline c = true.
Proof.
  unfold digit_or_dot, not_newline, NEWLINE. intros H.
  apply negb_true_iff, N.eqb_neq. intros ->. vm_compute in H. discriminate.
Qed.

Lemma digit_or_dot_not_space (c : char) : digit_or_dot c = true -> is_space c = false.
Proof.
  unfold digit_or_dot. change (ch "0") with 48%N. change (ch "9") with 57%N.
  change (ch ".") with 46%N. intros Hc.
  destruct (is_space c) eqn:Es; [|done]. exfalso. unfold is_space in Es.
  repeat match goal with
         | H : (_ || _)%bool = true |- _ => apply orb_prop in H as [H|H]
         | H : (_ && _)%bool = true |- _ => apply andb_prop in H as [? ?]
         | H : (_ <=? _)%N = true |- _ => apply N.leb_le in H
         | H : (_ =? _)%N = true |- _ => apply N.eqb_eq in H
         end; subst; try discriminate; lia.
Qed.

Lemma digit_or_dot_not_colon (c : char) : digit_or_dot c = true -> is_colon c = false.
Proof.
  unfold digit_or_dot. change (ch "0") with 48%N. change (ch "9") with 57%N.
  change (ch ".") with 46%N. intros Hc.
  destruct (is_colon c) eqn:Es; [|done]. exfalso. unfold is_colon, COLONS in Es.
  cbn [existsb] in Es.
  repeat match goal with
         | H : (_ || _)%bool = true |- _ => apply orb_prop in H as [H|H]
         | H : (_ && _)%bool = true |- _ => apply andb_prop in H as [? ?]
         | H : (_ <=? _)%N = true |- _ => apply N.leb_le in H
         | H : (_ =? _)%N = true |- _ => apply N.eqb_eq in H
         end; subst; try discriminate; lia.
Qed.

Lemma take_consumed (g rest : str) :
  take (length (g ++ rest) - length rest) (g ++ rest) = g.
Proof.
  rewrite length_app. replace (length g + length rest - length rest)%nat with (length g) by lia.
  apply take_app_length.
Qed.

Ltac consumed g rest :=
  match goal with
  | |- context [take ?n ?s] =>
      replace (take n s) with g by (symmetry; apply (take_consumed g rest))
  end.

(** The group of the rest of a line. *)
Lemma line_group_some (line rest : str) :
  line <> [] -> forallb not_newline line = true -> starts_outside not_newline rest ->
  line_group (line ++ rest) = Some line.
Proof.
  intros Hne Hl Hr. destruct line as [|c l]; [done|].
  cbn [forallb] in Hl. apply andb_prop in Hl as [Hc Hl].
  unfold line_group, re_capture. cbn [app re_plus]. rewrite Hc.
  rewrite (re_star_greedy _ _ _ Hl Hr).
  f_equal. apply (take_consumed (c :: l) rest).
Qed.

Lemma line_group_none (rest : str) :
  starts_outside not_newline rest -> line_group rest = None.
Proof.
  unfold line_group, re_capture. destruct rest as [|c r]; [done|].
  cbn [re_plus starts_outside]. by intros ->.
Qed.

Lemma line_group_inv (s g : str) :
  line_group s = Some g -> forallb not_newline g = true.
Proof.
  unfold line_group, re_capture. destruct s as [|c s]; [done|]. cbn [re_plus].
  destruct (not_newline c) eqn:Ec; [|done].
  destruct (re_star_line not_newline s) as (l & rest & -> & Hl & _ & ->).
  intros [= <-]. consumed (c :: l) rest. cbn [forallb]. by rewrite Ec.
Qed.

Lemma area_group_some (c : char) (l rest : str) :
  digit_or_dot c = true -> forallb not_newline l = true -> starts_outside not_newline rest ->
  area_group (c :: l ++ rest) = Some (c :: l).
Proof.
  intros Hc Hl Hr. unfold area_group, re_capture. cbn [re_plus]. rewrite Hc.
  rewrite (re_star_then_line _ _ digit_or_dot_line), (re_star_greedy _ _ _ Hl Hr).
  f_equal. apply (take_consumed (c :: l) rest).
Qed.

Lemma area_group_inv (s g : str) :
  area_group s = Some g ->
  forallb not_newline g = true /\ exists c l, g = c :: l /\ digit_or_dot c = true.
Proof.
  unfold area_group, re_capture. destruct s as [|c s]; [done|]. cbn [re_plus].
  destruct (digit_or_dot c) eqn:Ec; [|done].
  rewrite (re_star_then_line _ _ digit_or_dot_line).
  destruct (re_star_line not_newline s) as (l & rest & -> & Hl & _ & ->).
  intros [= <-]. consumed (c :: l) rest. split.
  - cbn [forallb]. by rewrite (digit_or_dot_line c Ec).
  - by exists c, l.
Qed.

Lemma area_group_none (s : str) :
  starts_outside digit_or_dot s -> area_group s = None.
Proof.
  unfold area_group, re_capture. destruct s as [|c s]; [done|].
  cbn [re_plus starts_outside]. by intros ->.
Qed.

Lemma re_opt_inv (cls : char -> bool) (k : str -> option str) (s g : str) :
  re_opt cls k s = Some g -> k s = Some g \/ exists c s', s = c :: s' /\ k s' = Some g.
Proof.
  unfold re_opt. destruct s as [|c s']; [by left|].
  destruct (cls c); [|by left].
  destruct (k s') as [r|] eqn:E; [|by left].
  intros [= <-]. right. by exists c, s'.
Qed.

(** What follows the label, for the patterns of 权利人 and 坐落. *)
Lemma line_field_at (line rest : str) :
  line <> [] -> forallb not_newline line = true -> starts_outside not_newline rest ->
  re_opt is_colon line_group (line ++ rest) = Some (after_colon line).
Proof.
  intros Hne Hl Hr. destruct line as [|c l]; [done|].
  cbn [app re_opt after_colon].
  destruct (is_colon c) eqn:Ec.
  - destruct l as [|d l].
    + cbn [app]. rewrite (line_group_none rest Hr).
      by apply (line_group_some [c] rest).
    + cbn [forallb] in Hl. apply andb_prop in Hl as [_ Hl].
      by rewrite (line_group_some (d :: l) rest).
  - destruct l as [|d l]; by apply (line_group_some (c :: _) rest).
Qed.

(** [re.search] *)
Lemma re_search_skip (m : str -> option str) (pre s : str) :
  (forall a b, pre = a ++ b -> b <> [] -> m (b ++ s) = None) ->
  re_search m (pre ++ s) = re_search m s.
Proof.
  induction pre as [|c pre IH]; intros H; [done|].
  pose proof (H [] (c :: pre) eq_refl ltac:(done)) as H0.
  cbn [app re_search] in *. rewrite H0.
  apply IH. intros a b -> Hb. by apply (H (c :: a) b).
Qed.

Lemma re_search_here (m : str -> option str) (s g : str) :
  m s = Some g -> re_search m s = Some g.
Proof. intros H. destruct s; simpl; by rewrite H. Qed.

Lemma re_search_inv (m : str -> option str) (s g : str) :
  re_search m s = Some g -> exists a b, s = a ++ b /\ m b = Some g.
Proof.
  induction s as [|c s IH]; simpl.
  - destruct (m []) eqn:E; [|done]. intros [= <-]. by exists [], [].
  - destruct (m (c :: s)) eqn:E.
    + intros [= <-]. by exists [], (c :: s).
    + intros (a & b & -> & Hb)%IH. by exists (c :: a), b.
Qed.

Lemma re_lit_app (l : str) (k : str -> option str) (s : str) : re_lit l k (l ++ s) = k s.
Proof. unfold re_lit. by rewrite strip_prefix_app. Qed.

Lemma re_lit_inv (l : str) (k : str -> option str) (s g : str) :
  re_lit l k s = Some g -> exists r, s = l ++ r /\ k r = Some g.
Proof.
  unfold re_lit. destruct (strip_prefix l s) as [r|] eqn:E; [|done].
  intros H. exists r. split; [by apply strip_prefix_some | done].
Qed.

Lemma contains_nil (s : str) : contains [] s = true.
Proof. destruct s; reflexivity. Qed.

(** The occurrence of [label] right after [pre] is the first one. *)
Lemma first_occurrence (label pre rest : str) (k : str -> option str) :
  contains label (pre ++ removelast label) = false ->
  forall a b, pre = a ++ b -> b <> [] -> re_lit label k (b ++ label ++ rest) = None.
Proof.
  intros Hfirst a b -> Hb.
  destruct (re_lit label k (b ++ label ++ rest)) as [g|] eqn:E; [exfalso|done].
  apply re_lit_inv in E as (r & E & _).
  destruct label as [|c0 label0 _] using rev_ind; [by rewrite contains_nil in Hfirst|].
  rewrite removelast_last in Hfirst.
  assert (Hlen : (length (label0 ++ [c0]) <= length (b ++ label0))%nat).
  { rewrite !length_app. simpl. destruct b; [done|]. simpl. lia. }
  assert (Hpre : b ++ label0 = (label0 ++ [c0]) ++ drop (length (label0 ++ [c0])) (b ++ label0)).
  { rewrite <- (take_drop (length (label0 ++ [c0])) (b ++ label0)) at 1. f_equal.
    replace (b ++ (label0 ++ [c0]) ++ rest) with ((b ++ label0) ++ c0 :: rest) in E
      by (by rewrite <- !app_assoc).
    apply (f_equal (take (length (label0 ++ [c0])))) in E.
    rewrite take_app_le in E by done. rewrite take_app_length in E. done. }
  rewrite <- app_assoc, Hpre in Hfirst.
  by rewrite contains_app in Hfirst.
Qed.

Lemma parse_lookup (text label : str) (m : str -> option str) :
  In (label, m) certificate_patterns ->
  In (label, match re_search m text with
             | Some g => strip g
             | None => UNRECOGNISED
             end) (parse_certificate_text text).
Proof.
  intros H. unfold parse_certificate_text. apply in_map_iff. by exists (label, m).
Qed.

Lemma parse_lookup_inv (text label v : str) :
  In (label, v) (parse_certificate_text text) ->
  exists m, In (label, m) certificate_patterns
    /\ v = match re_search m text with
           | Some g => strip g
           | None => UNRECOGNISED
           end.
Proof.
  unfold parse_certificate_text. intros ([l m] & [= <- <-] & Hin)%in_map_iff.
  by exists m.
Qed.

(** X2. The dictionary of [parse_certificate_text] always has the keys
    权利人, 坐落 and 建筑面积, in this order, and a key whose label does not
    occur in the text gets the value 未识别. *)
Theorem parse_certificate_text_absent (text : str) :
  List.map fst (parse_certificate_text text) = [OWNER; LOCATION; AREA]
  /\ forall label, In label [OWNER; LOCATION; AREA] -> contains label text = false ->
       In (label, UNRECOGNISED) (parse_certificate_text text).
Proof.
  split; [reflexivity|]. intros label Hin Habs.
  assert (H : exists k, In (label, re_lit label k) certificate_patterns).
  { destruct Hin as [<- | [<- | [<- | []]]]; eexists; cbn; eauto. }
  destruct H as [k Hk]. pose proof (parse_lookup text _ _ Hk) as Hv.
  destruct (re_search (re_lit label k) text) as [g|] eqn:E; [exfalso | exact Hv].
  apply re_search_inv in E as (a & b & -> & (r & -> & _)%re_lit_inv).
  by rewrite contains_app in Habs.
Qed.

Lemma parse_certificate_text_absent_witness :
  In (AREA, UNRECOGNISED) (parse_certificate_text (u "权利人：张三")).
Proof.
  apply (proj2 (parse_certificate_text_absent (u "权利人：张三")) AREA).
  - right. right. by left.
  - reflexivity.
Defined.

Lemma strip_no_newline (g : str) :
  forallb not_newline g = true -> ~ In NEWLINE (strip g).
Proof.
  intros Hg Hin%strip_In. rewrite forallb_forall in Hg.
  specialize (Hg _ Hin). done.
Qed.

(** X3. Every value that [parse_certificate_text] returns is one line
    without white space at its ends: it holds no newline, and stripping it
    again changes nothing. The value of 建筑面积 is 未识别 or starts with a
    digit or a dot. *)
Theorem parse_certificate_text_values (text label v : str) :
  In (label, v) (parse_certificate_text text) ->
  ~ In NEWLINE v /\ strip v = v
  /\ (label = AREA -> v = UNRECOGNISED \/ exists c l, v = c :: l /\ digit_or_dot c = true).
Proof.
  intros (m & Hm & ->)%parse_lookup_inv.
  destruct (re_search m text) as [g|] eqn:E.
  - apply re_search_inv in E as (a & b & _ & Hb).
    assert (Hg : forallb not_newline g = true
                 /\ (label = AREA -> exists c l, g = c :: l /\ digit_or_dot c = true)).
    { destruct Hm as [[= <- <-] | [[= <- <-] | [[= <- <-] | []]]];
        apply re_lit_inv in Hb as (r & _ & Hr);
        apply re_opt_inv in Hr as [Hr | (c & s' & _ & Hr)];
        try (split; [by apply line_group_inv in Hr | discriminate]);
        apply area_group_inv in Hr as [? ?]; by split. }
    destruct Hg as [Hline Harea].
    split; [by apply strip_no_newline|]. split; [apply strip_idem|].
    intros Hl. right. destruct (Harea Hl) as (c & l & -> & Hc).
    destruct (strip_cons c l (digit_or_dot_not_space c Hc)) as [t ->].
    by exists c, t.
  - split; [|split].
    + vm_compute. intuition discriminate.
    + reflexivity.
    + by left.
Qed.

Lemma parse_certificate_text_values_witness :
  strip (u "88.5平方米") = u "88.5平方米".
Proof.
  apply (parse_certificate_text_values
           (u "权利人：张三" ++ [NEWLINE] ++ u "建筑面积:88.5平方米 ") AREA).
  vm_compute. right. right. by left.
Defined.

(** X4. When the first occurrence of the label 权利人 or 坐落 is followed
    on its line by some text, the value is that text, without one leading
    colon (ASCII or full-width) when more follows the colon, and stripped.
    A label followed by nothing but a colon thus gives the colon as the
    value, not 未识别. *)
Theorem parse_certificate_text_line (label pre line rest : str) :
  In label [OWNER; LOCATION] ->
  contains label (pre ++ removelast label) = false ->
  line <> [] -> forallb not_newline line = true -> starts_outside not_newline rest ->
  In (label, strip (after_colon line))
     (parse_certificate_text (pre ++ label ++ line ++ rest)).
Proof.
  intros Hin Hfirst Hne Hl Hr.
  assert (Hk : In (label, re_lit label (re_opt is_colon line_group)) certificate_patterns).
  { destruct Hin as [<- | [<- | []]]; cbn; eauto. }
  pose proof (parse_lookup (pre ++ label ++ line ++ rest) _ _ Hk) as Hv.
  rewrite re_search_skip in Hv by (by apply first_occurrence).
  rewrite (re_search_here _ _ (after_colon line)) in Hv; [done|].
  rewrite re_lit_app. by apply line_field_at.
Qed.

Lemma parse_certificate_text_line_witness :
  In (OWNER, u "张三") (parse_certificate_text (u "证号 1 权利人： 张三 " ++ [NEWLINE] ++ u "坐落:"))
  /\ In (LOCATION, u ":") (parse_certificate_text (u "证号 1 权利人： 张三 " ++ [NEWLINE] ++ u "坐落:")).
Proof.
  split.
  - apply (parse_certificate_text_line OWNER (u "证号 1 ") (u "： 张三 ")
             ([NEWLINE] ++ u "坐落:")); try reflexivity; [by left | done].
  - apply (parse_certificate_text_line LOCATION
             (u "证号 1 权利人： 张三 " ++ [NEWLINE]) (u ":") []);
      try reflexivity; [right; by left | done].
Defined.

(** X5. When the first occurrence of the label 建筑面积 is followed, after
    an optional colon, by a digit or a dot, the value is the rest of the
    line from there, stripped. *)
Theorem parse_certificate_text_area (pre sep line rest : str) (c : char) :
  contains AREA (pre ++ removelast AREA) = false ->
  sep = [] \/ (exists x, sep = [x] /\ is_colon x = true) ->
  digit_or_dot c = true ->
  forallb not_newline line = true -> starts_outside not_newline rest ->
  In (AREA, strip (c :: line))
     (parse_certificate_text (pre ++ AREA ++ sep ++ c :: line ++ rest)).
Proof.
  intros Hfirst Hsep Hc Hl Hr.
  assert (Hk : In (AREA, re_lit AREA (re_opt is_colon area_group)) certificate_patterns).
  { cbn; eauto. }
  pose proof (parse_lookup (pre ++ AREA ++ sep ++ c :: line ++ rest) _ _ Hk) as Hv.
  rewrite re_search_skip in Hv by (by apply first_occurrence).
  rewrite (re_search_here _ _ (c :: line)) in Hv; [done|].
  rewrite re_lit_app.
  pose proof (area_group_some c line rest Hc Hl Hr) as Hg.
  destruct Hsep as [-> | (x & -> & Hx)]; cbn [app re_opt].
  - by rewrite (digit_or_dot_not_colon c Hc).
  - by rewrite Hx, Hg.
Qed.

Lemma parse_certificate_text_area_witness :
  In (AREA, u "88.5平方米")
     (parse_certificate_text (u "建筑面积: 无" ++ [NEWLINE] ++ u "建筑面积：88.5平方米 ")).
Proof.
  apply (parse_certificate_text_area [] (u "：") (u "8.5平方米 ") [] (ch "8")); try reflexivity.
  right. by exists 65306%N.
Defined.
(** ** The template of script 1 *)

(** Induction on a block through the cells of its rows. *)
Section BlockInduction.

Variable P : block -> Prop.
Hypothesis Hpara : forall p, P (BPara p).
Hypothesis Htable :
  forall cen rows,
    Forall (fun r : bool * list (list block) => Forall (Forall P) (snd r)) rows ->
    P (BTable cen rows).

Fixpoint block_induction (b : block) : P b :=
  match b with
  | BPara p => Hpara p
  | BTable cen rows =>
      Htable cen rows
        ((fix rows_ok (rs : list (bool * list (list block)))
            : Forall (fun r => Forall (Forall P) (snd r)) rs :=
            match rs with
            | [] => @List.Forall_nil _ _
            | r :: rs' =>
                @List.Forall_cons _ _ _ _
                  ((fix cells_ok (cs : list (list block)) : Forall (Forall P) cs :=
                      match cs with
                      | [] => @List.Forall_nil _ _
                      | c :: cs' =>
                          @List.Forall_cons _ _ _ _
                            ((fix blocks_ok (bs : list block) : Forall P bs :=
                                match bs with
                                | [] => @List.Forall_nil _ _
                                | b' :: bs' => @List.Forall_cons _ _ _ _ (block_induction b') (blocks_ok bs')
                                end) c)
                            (cells_ok cs')
                      end) (snd r))
                  (rows_ok rs')
            end) rows)
  end.

End BlockInduction.

Lemma replace_absent (old new s : str) :
  contains old s = false -> replace s old new = s.
Proof.
  unfold replace. induction s as [|c s IH]; [done|]. cbn [contains replace_from].
  intros [H1 H2]%orb_false_elim. rewrite H1. f_equal. by apply IH.
Qed.

Lemma flat_map_ext_Forall {A B} (f g : A -> list B) (l : list A) :
  Forall (fun x => f x = g x) l -> flat_map f l = flat_map g l.
Proof. induction 1 as [|x l Hx _ IH]; [done|]. cbn. by rewrite Hx, IH. Qed.

(** The paragraphs of the document, at any depth, after the replacement. *)
Lemma placed_paragraphs (doc : document) (placeholder value : str) :
  all_paragraphs (placed doc placeholder value)
  = List.map (placed_paragraph placeholder value) (all_paragraphs doc).
Proof.
  set (f := placed_paragraph placeholder value).
  assert (Hb : forall b, block_paragraphs (placed_block placeholder value b)
                         = List.map f (block_paragraphs b)).
  { induction b as [p|cen rows IH] using block_induction; [done|].
    cbn [placed_block block_paragraphs].
    rewrite flat_map_map, map_flat_map. apply flat_map_ext_Forall.
    eapply Forall_impl; [exact IH|]. intros r Hr. cbn [snd].
    rewrite flat_map_map, map_flat_map. apply flat_map_ext_Forall.
    eapply Forall_impl; [exact Hr|]. intros c Hc. cbn beta.
    rewrite flat_map_map, map_flat_map. apply flat_map_ext_Forall. exact Hc. }
  unfold all_paragraphs, placed.
  rewrite flat_map_map, map_flat_map. apply flat_map_ext_Forall.
  apply Forall_forall. intros b _. apply Hb.
Qed.

(** [mapM] of a function that checks its argument and raises one
    exception. *)
Lemma mapM_check {A B} (f : A -> result B) (g : A -> B) (ok : A -> bool) (e : exn)
      (l : list A) :
  Forall (fun x => f x = if ok x then Ok (g x) else Raise e) l ->
  mapM f l = if forallb ok l then Ok (List.map g l) else Raise e.
Proof.
  induction 1 as [|x l Hx _ IH]; [done|]. cbn [mapM forallb List.map].
  rewrite Hx. destruct (ok x); [|done]. cbn [bind andb]. rewrite IH.
  by destruct (forallb ok l).
Qed.

Lemma forallb_flat_map {A B} (P : B -> bool) (f : A -> list B) (l : list A) :
  forallb P (flat_map f l) = forallb (fun x => forallb P (f x)) l.
Proof.
  induction l as [|x l IH]; [done|]. cbn [flat_map forallb]. by rewrite forallb_app, IH.
Qed.

(** [replace_placeholder] raises when the setter refuses the new text of
    some paragraph, and else returns the document with every paragraph
    replaced. *)
Lemma replace_placeholder_check (doc : document) (placeholder value : str) :
  replace_placeholder doc placeholder value
  = if forallb (placeable placeholder value) (all_paragraphs doc)
    then Ok (placed doc placeholder value)
    else Raise XMLValueError.
Proof.
  set (ok := forallb (placeable placeholder value)).
  assert (Hb : forall b,
             replace_placeholder_block placeholder value b
             = if ok (block_paragraphs b)
               then Ok (placed_block placeholder value b) else Raise XMLValueError).
  { induction b as [p|cen rows IH] using block_induction.
    - cbn [replace_placeholder_block block_paragraphs placed_block].
      unfold ok, placeable, placed_paragraph, assign_paragraph_text. cbn [forallb].
      destruct (contains placeholder (paragraph_text p)); cbn [negb orb andb]; [|done].
      rewrite andb_true_r. by destruct (forallb xml_char _).
    - cbn [replace_placeholder_block block_paragraphs placed_block].
      unfold ok. rewrite forallb_flat_map.
      rewrite (mapM_check _
                 (fun r : bool * list (list block) =>
                    (fst r, List.map (List.map (placed_block placeholder value)) (snd r)))
                 (fun r => forallb (placeable placeholder value)
                             (flat_map (fun c => flat_map block_paragraphs c) (snd r)))
                 XMLValueError).
      { by destruct (forallb _ rows). }
      eapply Forall_impl; [exact IH|]. intros r Hr. cbn beta.
      rewrite forallb_flat_map.
      rewrite (mapM_check _ (List.map (placed_block placeholder value))
                 (fun c => forallb (placeable placeholder value) (flat_map block_paragraphs c))
                 XMLValueError).
      { by destruct (forallb _ (snd r)). }
      eapply Forall_impl; [exact Hr|]. intros c Hc. cbn beta.
      rewrite forallb_flat_map. apply mapM_check. exact Hc. }
  unfold replace_placeholder, placed, all_paragraphs, ok. rewrite forallb_flat_map.
  apply mapM_check. apply Forall_forall. intros b _. apply Hb.
Qed.

Lemma replace_storable (s old new : str) :
  storable s = true -> storable new = true -> storable (replace s old new) = true.
Proof.
  intros Hs Hn. unfold replace. generalize 0%nat as skip. revert Hs.
  induction s as [|c s IH]; intros Hs skip; [done|]. cbn [replace_from].
  change (storable (c :: s)) with (xml_char c && negb (c =? CR)%N && storable s) in Hs.
  apply andb_prop in Hs as [Hc Hs].
  destruct skip as [|k]; [|by apply IH].
  destruct (startswith (c :: s) old).
  - rewrite storable_app, Hn. by apply IH.
  - change (storable (c :: replace_from old new 0 s))
      with (xml_char c && negb (c =? CR)%N && storable (replace_from old new 0 s)).
    rewrite Hc. by apply IH.
Qed.

(** X6. [replace_placeholder] reaches every paragraph of the document, at
    any depth of tables nested in cells. When it returns, the document has
    the same paragraphs with their alignment; a paragraph without the
    placeholder is left as it is, runs included, and the text of a paragraph
    with the placeholder is its old text with the placeholder replaced by
    the value, as python-docx stores it (a carriage return as a newline).
    It raises only the [ValueError] of the setter, when the new text of some
    paragraph holds a character that XML excludes. For a document and a
    value without carriage return and excluded character it returns, and the
    new texts are exactly the replaced texts. *)
Theorem replace_placeholder_everywhere (doc : document) (placeholder value : str) :
  placeholder <> [] ->
  (forall doc',
     replace_placeholder doc placeholder value = Ok doc' ->
     Forall2 (fun p p' =>
                p_centered p' = p_centered p
                /\ (contains placeholder (paragraph_text p) = false -> p' = p)
                /\ (contains placeholder (paragraph_text p) = true ->
                    paragraph_text p'
                    = stored_text (replace (paragraph_text p) placeholder value)))
             (all_paragraphs doc) (all_paragraphs doc'))
  /\ (forall e,
        replace_placeholder doc placeholder value = Raise e ->
        e = XMLValueError
        /\ exists p, In p (all_paragraphs doc)
                     /\ contains placeholder (paragraph_text p) = true
                     /\ forallb xml_char (replace (paragraph_text p) placeholder value)
                        = false)
  /\ (storable value = true ->
      Forall (fun p => storable (paragraph_text p) = true) (all_paragraphs doc) ->
      exists doc',
        replace_placeholder doc placeholder value = Ok doc'
        /\ Forall2 (fun p p' =>
                      paragraph_text p' = replace (paragraph_text p) placeholder value)
                   (all_paragraphs doc) (all_paragraphs doc')).
Proof.
  intros _. rewrite replace_placeholder_check. split; [|split].
  - intros doc' H. destruct (forallb _ _); [|done]. injection H as <-.
    rewrite placed_paragraphs.
    induction (all_paragraphs doc) as [|p l IH]; constructor; [|exact IH].
    unfold placed_paragraph. destruct (contains placeholder (paragraph_text p)).
    + split; [done|]. split; [done|]. intros _. cbn. apply app_nil_r.
    + by split.
  - intros e H. destruct (forallb _ _) eqn:E; [done|]. injection H as <-. split; [done|].
    induction (all_paragraphs doc) as [|p l IH]; [done|]. cbn [forallb] in E.
    apply andb_false_iff in E as [E | E].
    + exists p. split; [by left|]. unfold placeable in E.
      apply orb_false_elim in E as [E1 E2]. apply negb_false_iff in E1. by split.
    + destruct (IH E) as (q & Hq & H). exists q. split; [by right | done].
  - intros Hv Hdoc.
    assert (Hok : forallb (placeable placeholder value) (all_paragraphs doc) = true).
    { apply forallb_forall. intros p Hp. rewrite List.Forall_forall in Hdoc.
      unfold placeable. apply orb_true_iff. right.
      apply storable_stored, replace_storable; [by apply Hdoc | done]. }
    rewrite Hok. eexists. split; [reflexivity|]. rewrite placed_paragraphs.
    rewrite List.Forall_forall in Hdoc. clear Hok.
    induction (all_paragraphs doc) as [|p l IH]; constructor.
    + unfold placed_paragraph.
      destruct (contains placeholder (paragraph_text p)) eqn:E.
      * cbn. rewrite app_nil_r. apply storable_stored, replace_storable; [|done].
        apply Hdoc. by left.
      * by rewrite replace_absent.
    + apply IH. intros q Hq. apply Hdoc. by right.
Qed.

Lemma replace_placeholder_everywhere_witness :
  exists doc',
    replace_placeholder nested_template (u "{{客户名称}}") (u "甲公司") = Ok doc'
    /\ Forall2 (fun p p' =>
                  paragraph_text p' = replace (paragraph_text p) (u "{{客户名称}}") (u "甲公司"))
               (all_paragraphs nested_template) (all_paragraphs doc').
Proof.
  apply (proj2 (proj2 (replace_placeholder_everywhere nested_template
                         (u "{{客户名称}}") (u "甲公司") ltac:(discriminate)))).
  - reflexivity.
  - apply (bool_decide_unpack _). vm_compute. exact I.
Defined.

(** X7. [insert_photo] changes the first paragraph of the body that holds
    the placeholder, and nothing else: that paragraph is left with an empty
    run and the picture. A body without such a paragraph is returned as it
    is; the paragraphs in the cells of tables are not looked at. *)
Theorem insert_photo_first (doc : document) (placeholder path : str) :
  (has_placeholder doc placeholder = false -> insert_photo doc placeholder path = doc)
  /\ (forall pre p post,
        doc = pre ++ BPara p :: post ->
        has_placeholder pre placeholder = false ->
        contains placeholder (paragraph_text p) = true ->
        insert_photo doc placeholder path
        = pre ++ BPara (Paragraph (p_centered p) [RText 0 []; RPicture path]) :: post).
Proof.
  split.
  - induction doc as [|[p|cen rows] doc IH]; [done| |]; cbn [has_placeholder existsb
      holds_placeholder insert_photo]; fold (has_placeholder doc placeholder).
    + intros [-> H]%orb_false_elim. by rewrite IH.
    + intros H. cbn [orb] in H. by rewrite IH.
  - intros pre p post -> Hpre Hp. induction pre as [|[q|cen rows] pre IH].
    + cbn [app insert_photo]. by rewrite Hp.
    + cbn [has_placeholder existsb holds_placeholder] in Hpre.
      apply orb_false_elim in Hpre as [Hq Hpre]. cbn [app insert_photo]. rewrite Hq.
      by rewrite (IH Hpre).
    + cbn [has_placeholder existsb holds_placeholder orb] in Hpre.
      cbn [app insert_photo]. by rewrite (IH Hpre).
Qed.

Lemma insert_photo_first_witness :
  let table := BTable false [(false, [[BPara (Paragraph false [RText 0 (u "【照片】")])]])] in
  insert_photo [table; BPara (Paragraph true [RText 7 (u "此处【照片】")]); table]
               (u "【照片】") (u "a.jpg")
  = [table; BPara (Paragraph true [RText 0 []; RPicture (u "a.jpg")]); table].
Proof.
  intros table.
  apply (proj2 (insert_photo_first _ (u "【照片】") (u "a.jpg")) [table]
               (Paragraph true [RText 7 (u "此处【照片】")]) [table]); reflexivity.
Defined.

(** ** [main] of script 1 *)






Section Script1Facts.

Variable BASE_DIR : str.
Variable ocr_image : str -> option str.
Variable today : str.
Variable add_picture_fails : str -> bool.



End Script1Facts.


(** ** The configuration *)

Section ConfigFacts.

Variable json : Type.
Variable truthy : json -> bool.
Variable JStr : str -> json.
Variable TEMPLATE_PATH_FIXED DEFAULT_PHOTOS_DIR OUT_DIR_FIXED : str.

Lemma lookup_env_override (var key : str) (environ : gmap str str) (cfg : gmap str json)
      (k : str) :
  env_override json JStr var key environ cfg !! k
  = match environ !! var with
    | Some v => if decide (key = k) then Some (JStr v) else cfg !! k
    | None => cfg !! k
    end.
Proof. unfold env_override. destruct (environ !! var); [apply lookup_insert | done]. Qed.

Lemma lookup_file_config (data : option (gmap str json)) (base : gmap str json)
      (k dflt : str) :
  base !! k = Some (JStr dflt) ->
  match data with
  | Some d => filter (fun kv => truthy kv.2 = true) d ∪ base
  | None => base
  end !! k
  = Some match data ≫= (.!! k) with
         | Some v => if truthy v then v else JStr dflt
         | None => JStr dflt
         end.
Proof.
  intros Hbase. destruct data as [d|]; [|done]. cbn [mbind option_bind].
  rewrite lookup_union, map_lookup_filter, Hbase.
  destruct (d !! k) as [v|]; [|done]. cbn.
  destruct (truthy v) eqn:E.
  - by rewrite option_guard_True.
  - rewrite option_guard_False by congruence. done.
Qed.

(** The three keys, each with its environment variable and its default. *)
Lemma load_config_lookup (data : option (gmap str json)) (environ : gmap str str)
      (key var dflt : str) :
  In (key, var, dflt) [ (KEY_TEMPLATE, ENV_TEMPLATE, TEMPLATE_PATH_FIXED);
                        (KEY_PHOTOS, ENV_PHOTOS, DEFAULT_PHOTOS_DIR);
                        (KEY_OUT, ENV_OUT, OUT_DIR_FIXED) ] ->
  load_config json truthy JStr TEMPLATE_PATH_FIXED DEFAULT_PHOTOS_DIR OUT_DIR_FIXED
              data environ !! key
  = Some match environ !! var with
         | Some v => JStr v
         | None =>
           match data ≫= (.!! key) with
           | Some v => if truthy v then v else JStr dflt
           | None => JStr dflt
           end
         end.
Proof.
  intros [[= <- <- <-] | [[= <- <- <-] | [[= <- <- <-] | []]]];
    unfold load_config; rewrite !lookup_env_override;
    repeat match goal with
           | |- context [decide (?a = ?b)] =>
               destruct (decide (a = b)) as [Heq|Hne]; [try discriminate Heq | try done]
           end;
    repeat match goal with
           | |- context [environ !! ?v] => destruct (environ !! v)
           end; try done;
    by apply lookup_file_config.
Qed.

(** X9. The configuration that [load_config] returns always has the keys
    template, photos and out. The value of each is that of its environment
    variable when the variable is set (even to the empty string); else the
    value of the key in the configuration file when the file holds one that
    is true (not empty, null, zero or false); else the default. *)
Theorem load_config_precedence (data : option (gmap str json)) (environ : gmap str str)
      (key var dflt : str) :
  In (key, var, dflt) [ (KEY_TEMPLATE, ENV_TEMPLATE, TEMPLATE_PATH_FIXED);
                        (KEY_PHOTOS, ENV_PHOTOS, DEFAULT_PHOTOS_DIR);
                        (KEY_OUT, ENV_OUT, OUT_DIR_FIXED) ] ->
  load_config json truthy JStr TEMPLATE_PATH_FIXED DEFAULT_PHOTOS_DIR OUT_DIR_FIXED
              data environ !! key
  = Some match environ !! var with
         | Some v => JStr v
         | None =>
           match data ≫= (.!! key) with
           | Some v => if truthy v then v else JStr dflt
           | None => JStr dflt
           end
         end.
Proof. apply load_config_lookup. Qed.


End ConfigFacts.

Lemma load_config_precedence_witness :
  load_config str (fun s => negb (bool_decide (s = []))) (fun s => s)
              (u "tpl.docx") (u "photos") (u "out")
              (Some {[ KEY_OUT := []; KEY_PHOTOS := u "p" ]}) {[ ENV_TEMPLATE := [] ]}
  !! KEY_OUT = Some (u "out").
Proof.
  rewrite (load_config_precedence str _ _ (u "tpl.docx") (u "photos") (u "out") _ _
             KEY_OUT ENV_OUT (u "out")) by (right; right; by left).
  reflexivity.
Defined.


(** ** The list of photos *)

Lemma str_leb_refl (a : str) : str_leb a a = true.
Proof. induction a as [|x a IH]; [done|]. cbn. by rewrite N.ltb_irrefl. Qed.

Lemma str_leb_total (a b : str) : str_leb a b = true \/ str_leb b a = true.
Proof.
  revert b. induction a as [|x a IH]; intros [|y b]; cbn; auto.
  destruct (N.ltb_spec x y), (N.ltb_spec y x); auto; lia.
Qed.

Lemma str_leb_trans (a b c : str) :
  str_leb a b = true -> str_leb b c = true -> str_leb a c = true.
Proof.
  revert b c. induction a as [|x a IH]; intros [|y b] [|z c]; cbn; try done.
  destruct (N.ltb_spec x y), (N.ltb_spec y x), (N.ltb_spec y z), (N.ltb_spec z y),
    (N.ltb_spec x z), (N.ltb_spec z x); try done; try lia.
  apply IH.
Qed.

#[global] Instance str_le_total : Total str_le.
Proof. intros a b. apply str_leb_total. Qed.

#[global] Instance str_le_trans : Transitive str_le.
Proof. intros a b c. apply str_leb_trans. Qed.

Section ExpandFacts.

Variable walk : str -> list (str * list str).
Variable listdir : str -> list str.

(** X11. For a directory, [expand_photos_arg] returns the files with an
    image extension (in any case of letters) that the walk of the directory
    lists, each joined to the directory it is in, sorted in the order of
    strings: the sorted list holds exactly these paths, as many times as
    they are listed. *)
Theorem expand_photos_arg_directory (fs : filesystem) (arg : str) (recursive : bool) :
  arg <> [] -> isdir fs (strip arg) = true ->
  let out := expand_photos_arg walk listdir fs arg recursive in
  let walker := if recursive then walk (strip arg)
                else [(strip arg, listdir (strip arg))] in
  StronglySorted str_le out
  /\ out ≡ₚ flat_map (fun rf : str * list str =>
                        List.map (path_join (fst rf)) (List.filter has_image_ext (snd rf)))
                     walker
  /\ (forall p, In p out <->
        exists root files name,
          In (root, files) walker /\ In name files
          /\ has_image_ext name = true /\ p = path_join root name).
Proof.
  intros Harg Hdir out walker.
  assert (Hout : out = merge_sort str_le
                         (flat_map (fun rf : str * list str =>
                            List.map (path_join (fst rf))
                                     (List.filter has_image_ext (snd rf))) walker)).
  { unfold out, expand_photos_arg. destruct arg as [|c arg]; [done|]. by rewrite Hdir. }
  assert (Hperm := merge_sort_Permutation str_le
                     (flat_map (fun rf : str * list str =>
                        List.map (path_join (fst rf))
                                 (List.filter has_image_ext (snd rf))) walker)).
  rewrite <- Hout in Hperm.
  split; [rewrite Hout; apply StronglySorted_merge_sort; apply _|].
  split; [exact Hperm|].
  intros p. rewrite <- !list_elem_of_In, Hperm, list_elem_of_In, in_flat_map. split.
  - intros ([root files] & Hrf & (name & <- & [Hn He]%filter_In)%in_map_iff).
    by exists root, files, name.
  - intros (root & files & name & Hrf & Hn & He & ->).
    exists (root, files). split; [done|]. apply in_map, filter_In. done.
Qed.

(** *** A list of paths *)

Lemma split_on_plain (p : str) : ~ In COMMA p -> split_on COMMA p = [p].
Proof.
  induction p as [|c p IH]; [done|]. intros H. cbn [split_on].
  destruct (N.eqb_spec c COMMA) as [->|_]; [destruct H; by left|].
  rewrite IH; [done|]. intros ?. apply H. by right.
Qed.

Lemma split_on_comma (p s : str) :
  ~ In COMMA p -> split_on COMMA (p ++ COMMA :: s) = p :: split_on COMMA s.
Proof.
  induction p as [|c p IH]; intros H.
  - cbn [app split_on]. by rewrite N.eqb_refl.
  - cbn [app split_on]. destruct (N.eqb_spec c COMMA) as [->|_]; [destruct H; by left|].
    rewrite IH; [done|]. intros ?. apply H. by right.
Qed.

Lemma lstrip_app_space (w s : str) : forallb is_space w = true -> lstrip (w ++ s) = lstrip s.
Proof.
  induction w as [|c w IH]; [done|]. cbn. intros [-> Hw]%andb_prop. by apply IH.
Qed.

Lemma strip_padded (w p : str) :
  forallb is_space w = true -> trimmed p -> strip (w ++ p) = p.
Proof.
  intros Hw Hp. unfold strip. rewrite lstrip_app_space by done.
  by apply strip_trimmed in Hp.
Qed.

Lemma trimmed_app (a m b : str) :
  a <> [] -> b <> [] -> trimmed a -> trimmed b -> trimmed (a ++ m ++ b).
Proof.
  intros Ha Hb [Ha1 _] [_ Hb2]. split.
  - destruct a; [done | exact Ha1].
  - rewrite !rev_app_distr. destruct (rev b) as [|x r] eqn:E; [|exact Hb2].
    apply (f_equal (@rev _)) in E. rewrite rev_involutive in E. done.
Qed.

Lemma join_comma_trimmed (ps : list str) :
  ps <> [] -> Forall listable ps -> join_comma ps <> [] /\ trimmed (join_comma ps).
Proof.
  induction ps as [|p ps IH]; [done|]. intros _ [(Hp & Ht & _) Hps]%Forall_cons.
  destruct ps as [|q ps]; [done|]. destruct (IH ltac:(done) Hps) as [Hne Htr].
  change (join_comma (p :: q :: ps)) with (p ++ [COMMA; ch " "] ++ join_comma (q :: ps)).
  split; [destruct p; done|]. by apply trimmed_app.
Qed.

Lemma split_join_comma (w : str) (ps : list str) :
  ps <> [] -> Forall listable ps -> forallb is_space w = true ->
  List.map strip (split_on COMMA (w ++ join_comma ps)) = ps.
Proof.
  revert w. induction ps as [|p ps IH]; [done|].
  intros w _ [(Hp & Ht & Hc) Hps]%Forall_cons Hw.
  assert (Hwp : ~ In COMMA (w ++ p)).
  { intros [H|H]%in_app_or; [|done]. rewrite forallb_forall in Hw.
    specialize (Hw _ H). done. }
  destruct ps as [|q ps].
  - cbn [join_comma]. rewrite split_on_plain by done. cbn. by rewrite strip_padded.
  - change (join_comma (p :: q :: ps)) with (p ++ COMMA :: [ch " "] ++ join_comma (q :: ps)).
    rewrite app_assoc, split_on_comma by done. cbn [List.map].
    rewrite strip_padded by done. f_equal. by apply IH.
Qed.

(** X12. Given the paths of a list, none empty, each without white space at
    its ends and without comma, written with a comma and a space between
    them, [expand_photos_arg] returns those of the paths that exist, in the
    order given and as often as given; the paths that do not exist are left
    out, and no extension is asked for. (The whole argument must not name a
    directory.) *)
Theorem expand_photos_arg_list (fs : filesystem) (ps : list str) (recursive : bool) :
  ps <> [] -> Forall listable ps ->
  isdir fs (join_comma ps) = false ->
  expand_photos_arg walk listdir fs (join_comma ps) recursive
  = List.filter (path_exists fs) ps.
Proof.
  intros Hne Hps Hdir. destruct (join_comma_trimmed ps Hne Hps) as [Hj Ht].
  unfold expand_photos_arg. destruct (join_comma ps) as [|c j] eqn:E; [done|].
  rewrite <- E in *. rewrite (strip_trimmed _ Ht), Hdir.
  pose proof (split_join_comma [] ps Hne Hps eq_refl) as Hs. cbn [app] in Hs.
  rewrite Hs. f_equal. clear -Hps. induction Hps as [|p ps (Hp & _) _ IH]; [done|]. cbn [List.filter].
  rewrite bool_decide_eq_false_2 by done. cbn [negb]. by rewrite IH.
Qed.

End ExpandFacts.

Lemma expand_photos_arg_directory_witness :
  let fs : filesystem := {[ u "photos" := FDir ]} in
  let walk := fun _ : str => [(u "photos", [u "b.JPG"; u "notes.txt"]);
                              (u "photos/x", [u "a.heic"])] in
  StronglySorted str_le (expand_photos_arg walk (fun _ => []) fs (u " photos ") true).
Proof.
  intros fs walk.
  apply (expand_photos_arg_directory walk (fun _ => []) fs (u " photos ") true);
    [discriminate | reflexivity].
Defined.

Lemma expand_photos_arg_list_witness :
  let fs : filesystem := {[ u "a.jpg" := FData; u "c d.txt" := FData ]} in
  expand_photos_arg (fun _ => []) (fun _ => []) fs (u "a.jpg, b.jpg, c d.txt") true
  = [u "a.jpg"; u "c d.txt"].
Proof.
  intros fs.
  apply (expand_photos_arg_list (fun _ => []) (fun _ => []) fs
           [u "a.jpg"; u "b.jpg"; u "c d.txt"] true).
  - discriminate.
  - repeat constructor; try discriminate; vm_compute; intuition discriminate.
  - reflexivity.
Defined.

(** ** The size of the photos *)

#[local] Open Scope Q_scope.

Section PhotoSizeFacts.

Variable rnd : Q -> Q.
Hypothesis Hrnd : binary64_rounding rnd.

(** X13. An image that [_letterbox_image] accepts is pasted whole and never
    enlarged on the canvas of 2200 by 1650 pixels, with a white border of at
    least 80 pixels on each of the four sides, and centred on each axis, the
    right (bottom) border being the left (top) border or one pixel more. An
    image that fits into 2040 by 1490 pixels keeps its size; a larger one is
    scaled so that one of its sides fills this space up to one pixel.
    [_letterbox_image] accepts every image that is less than 1490 times as
    high as wide and less than 2040 times as wide as high (by three pixels
    or more); when a side comes out as zero (an image more than 1490 times
    as high as wide, or more than 2040 times as wide as high, by four pixels
    or more) [Image.resize] raises. *)
Theorem letterbox_margins (w h : Z) :
  (1 <= w <= 2 ^ 53)%Z -> (1 <= h <= 2 ^ 53)%Z ->
  (forall g,
     _letterbox_image rnd w h CANVAS_SIZE CANVAS_MARGIN = Ok g ->
     uncropped CANVAS_SIZE g
     /\ (1 <= resized_width g <= w)%Z /\ (1 <= resized_height g <= h)%Z
     /\ (CANVAS_MARGIN <= border_left g)%Z /\ (CANVAS_MARGIN <= border_right CANVAS_SIZE g)%Z
     /\ (CANVAS_MARGIN <= border_top g)%Z /\ (CANVAS_MARGIN <= border_bottom CANVAS_SIZE g)%Z
     /\ (0 <= border_right CANVAS_SIZE g - border_left g <= 1)%Z
     /\ (0 <= border_bottom CANVAS_SIZE g - border_top g <= 1)%Z
     /\ ((w <= 2040)%Z -> (h <= 1490)%Z -> resized_width g = w /\ resized_height g = h)
     /\ ((2040 < w \/ 1490 < h)%Z -> (2039 <= resized_width g \/ 1489 <= resized_height g)%Z))
  /\ ((h + 3 <= 1490 * w)%Z -> (w + 3 <= 2040 * h)%Z ->
      exists g, _letterbox_image rnd w h CANVAS_SIZE CANVAS_MARGIN = Ok g)
  /\ ((1490 * w + 4 <= h \/ 2040 * h + 4 <= w)%Z ->
      _letterbox_image rnd w h CANVAS_SIZE CANVAS_MARGIN = Raise ResizeValueError).
Proof.
  intros Hw Hh.
  destruct (letterbox_sides rnd Hrnd w h Hw Hh) as (Hrw & Hrh & Hfit & Hfill & Hok & Hz1 & Hz2).
  rewrite (letterbox_image_sides rnd w h) by lia. cbn zeta.
  set (scale := letterbox_scale rnd CANVAS_SIZE CANVAS_MARGIN w h) in *.
  set (rw := int_of_float (int_mul_float rnd w scale)) in *.
  set (rh := int_of_float (int_mul_float rnd h scale)) in *.
  split; [|split].
  - intros g Hg.
    destruct (Z.leb_spec rw 0) as [|Hpw]; [done|].
    destruct (Z.leb_spec rh 0) as [|Hph]; [done|]. cbn [orb] in Hg. injection Hg as <-.
    unfold uncropped, border_left, border_right, border_top, border_bottom, CANVAS_MARGIN.
    cbn [fst snd CANVAS_SIZE resized_width resized_height offset_x offset_y].
    split; [repeat split; try lia; Z.div_mod_to_equations; lia|].
    split; [lia|]. split; [lia|].
    split; [Z.div_mod_to_equations; lia|]. split; [Z.div_mod_to_equations; lia|].
    split; [Z.div_mod_to_equations; lia|]. split; [Z.div_mod_to_equations; lia|].
    split; [Z.div_mod_to_equations; lia|]. split; [Z.div_mod_to_equations; lia|].
    split; [intros H1 H2; by destruct (Hfit H1 H2) as (_ & ? & ?) | exact Hfill].
  - intros H1 H2. destruct (Hok H1 H2) as [Hpw Hph].
    destruct (Z.leb_spec rw 0) as [|_]; [lia|].
    destruct (Z.leb_spec rh 0) as [|_]; [lia|]. by eexists.
  - intros [H1 | H1].
    + by rewrite (Hz1 H1).
    + rewrite (Hz2 H1). by destruct (rw <=? 0)%Z.
Qed.

(** The sides after the resizing step of [_prepare_photo_for_word], for an
    image that is larger than the target. *)
Lemma resized_sides (w h t : Z) :
  (1 <= w <= 2 ^ 31)%Z -> (1 <= h <= 2 ^ 31)%Z -> (1 <= t <= 2 ^ 31)%Z ->
  (t < Z.max w h)%Z ->
  let s := true_div rnd t (Z.max w h) in
  let rw := int_of_float (int_mul_float rnd w s) in
  let rh := int_of_float (int_mul_float rnd h s) in
  (0 <= rw <= Z.min w t)%Z /\ (0 <= rh <= Z.min h t)%Z
  /\ (t - 1 <= Z.max rw rh <= t)%Z
  /\ (forall k, (0 <= k)%Z -> ((k + 1) * Z.max w h <= t * w)%Z -> (k <= rw)%Z)
  /\ (forall k, (0 <= k)%Z -> ((k + 1) * Z.max w h <= t * h)%Z -> (k <= rh)%Z)
  /\ ((Z.max w h < t * w)%Z -> (1 <= rw)%Z)
  /\ ((Z.max w h < t * h)%Z -> (1 <= rh)%Z)
  /\ ((t * w < Z.max w h)%Z -> rw = 0%Z)
  /\ ((t * h < Z.max w h)%Z -> rh = 0%Z).
Proof.
  intros Hw Hh Ht Hlt s rw rh.
  set (L := Z.max w h) in *.
  assert (HL : (1 <= L <= 2 ^ 31)%Z) by lia.
  assert (HL53 : (1 <= L <= 2 ^ 53)%Z).
  { split; [lia|]. transitivity (2 ^ 31)%Z; [lia | done]. }
  assert (Ht53 : (1 <= t <= 2 ^ 53)%Z).
  { split; [lia|]. transitivity (2 ^ 31)%Z; [lia | done]. }
  destruct (true_div_bounds rnd Hrnd t L Ht53 HL53) as (x & Hx0 & Hx & Hx1 & Hx2).
  fold s in Hx1, Hx2.
  pose proof (inject_Z_pos L ltac:(lia)) as HL1.
  assert (HL2 : inject_Z L <= 2147483648 # 1).
  { change (2147483648 # 1) with (inject_Z (2 ^ 31)). rewrite <- Zle_Qle. lia. }
  pose proof (inject_Z_pos t ltac:(lia)) as HT1.
  assert (HT2 : inject_Z t <= 2147483648 # 1).
  { change (2147483648 # 1) with (inject_Z (2 ^ 31)). rewrite <- Zle_Qle. lia. }
  assert (HtL : inject_Z t <= inject_Z L) by (rewrite <- Zle_Qle; lia).
  assert (Hs1 : s <= 1).
  { unfold s, true_div. rewrite <- (rnd_one rnd Hrnd). apply (rnd_mono rnd Hrnd).
    apply Qle_shift_div_r; lra. }
  assert (Hx3 : 1 # 2147483648 <= x).
  { apply Qmult_le_r with (inject_Z L); [lra|]. rewrite Hx. nra. }
  assert (Hx4 : x <= 1).
  { apply Qmult_le_r with (inject_Z L); [lra|]. rewrite Hx. lra. }
  assert (Hs0 : 1 # 2 ^ 50 <= s).
  { change (2 ^ 50)%positive with 1125899906842624%positive. powers. nra. }
  assert (Hside : forall n, (1 <= n <= L)%Z ->
            let r := int_of_float (int_mul_float rnd n s) in
            (0 <= r <= Z.min n t)%Z
            /\ (forall k, (0 <= k)%Z -> ((k + 1) * L <= t * n)%Z -> (k <= r)%Z)
            /\ ((L < t * n)%Z -> (1 <= r)%Z)
            /\ ((t * n < L)%Z -> r = 0%Z)).
  { intros n Hn r.
    assert (Hn53 : (1 <= n <= 2 ^ 53)%Z).
    { split; [lia|]. transitivity (2 ^ 31)%Z; [lia | done]. }
    pose proof (scaled_size_le rnd Hrnd n s ltac:(lia)
                  ltac:(apply Qle_trans with (1 # 2 ^ 50); [done | exact Hs0]) Hs1) as Hle.
    pose proof (scaled_size_cap rnd Hrnd n L t s x Hn ltac:(lia) Ht Hs0 Hs1 Hx Hx2) as Hcap.
    fold r in Hle, Hcap.
    pose proof (inject_Z_pos n ltac:(lia)) as HN1.
    assert (HNL : inject_Z n <= inject_Z L) by (rewrite <- Zle_Qle; lia).
    split; [lia|]. split; [|split].
    - intros k Hk0 Hk. apply scaled_size_lower; try done.
      assert (HQ : (inject_Z k + 1) * inject_Z L <= inject_Z t * inject_Z n).
      { change 1 with (inject_Z 1).
        rewrite <- inject_Z_plus, <- !inject_Z_mult, <- Zle_Qle. lia. }
      assert (HK0 : 0 <= inject_Z k).
      { change 0 with (inject_Z 0). rewrite <- Zle_Qle. lia. }
      assert (HK1 : inject_Z k + 1 <= inject_Z n * x).
      { apply Qmult_le_r with (inject_Z L); [lra|]. nra. }
      assert (HK2 : inject_Z k + 1 <= 2147483648 # 1) by nra.
      set (K := inject_Z k) in *. set (N := inject_Z n) in *. powers.
      assert (H1 : (K + 1) * (1 - (1 # 9007199254740992)) <= N * s) by nra.
      assert (H2 : (K + 1) * (1 - (1 # 9007199254740992)) * (1 - (1 # 9007199254740992))
                   <= N * s * (1 - (1 # 9007199254740992))) by nra.
      nra.
    - intros Hwide. apply scaled_size_lower; try done. change (inject_Z 1) with 1.
      assert (HQ : inject_Z L + 1 <= inject_Z t * inject_Z n).
      { change 1 with (inject_Z 1).
        rewrite <- inject_Z_plus, <- !inject_Z_mult, <- Zle_Qle. lia. }
      set (N := inject_Z n) in *. set (Lq := inject_Z L) in *. powers.
      apply Qmult_le_r with Lq; [lra|].
      assert (G1 : N * x * Lq == inject_Z t * N) by nra.
      assert (G2 : N * x * (1 - (1 # 9007199254740992)) <= N * s) by nra.
      assert (G3 : (Lq + 1) * (1 - (1 # 9007199254740992)) * (1 - (1 # 9007199254740992))
                   <= N * s * (1 - (1 # 9007199254740992)) * Lq) by nra.
      lra.
    - intros Hthin.
      assert (HQ : inject_Z t * inject_Z n + 1 <= inject_Z L).
      { change 1 with (inject_Z 1).
        rewrite <- !inject_Z_mult, <- inject_Z_plus, <- Zle_Qle. lia. }
      assert (Hup : (r <= 0)%Z).
      { apply scaled_size_upper; try done. change (inject_Z (0 + 1)) with 1.
        set (N := inject_Z n) in *. set (Lq := inject_Z L) in *. powers.
        apply Qmult_lt_r with Lq; [lra|].
        assert (G1 : N * x * Lq == inject_Z t * N) by nra.
        assert (G2 : N * s <= N * x * (1 + (1 # 9007199254740992))) by nra.
        assert (G3 : N * s * (1 + (1 # 9007199254740992)) * Lq
                     <= (Lq - 1) * (1 + (1 # 9007199254740992)) * (1 + (1 # 9007199254740992)))
          by nra.
        lra. }
      lia. }
  destruct (Hside w ltac:(lia)) as (Hw1 & Hw2 & Hw3 & Hw4).
  destruct (Hside h ltac:(lia)) as (Hh1 & Hh2 & Hh3 & Hh4).
  fold rw in Hw1, Hw2, Hw3, Hw4. fold rh in Hh1, Hh2, Hh3, Hh4.
  split; [exact Hw1|]. split; [exact Hh1|]. split; [|by repeat split].
  pose proof (scaled_size_floor rnd Hrnd L t s x HL53 Ht Hs0 Hs1 Hx Hx1) as Hfl.
  unfold L in Hfl. destruct (Z.max_spec w h) as [[_ E]|[_ E]]; rewrite E in Hfl;
    fold rw rh in Hfl; lia.
Qed.

(** [resized_for_word] in terms of the two scaled sides. *)
Lemma resized_for_word_sides (w h t : Z) :
  let s := true_div rnd t (Z.max w h) in
  let rw := int_of_float (int_mul_float rnd w s) in
  let rh := int_of_float (int_mul_float rnd h s) in
  resized_for_word rnd w h t
  = if (t <? Z.max w h)%Z
    then if ((rw <=? 0) || (rh <=? 0))%Z then Raise ResizeValueError else Ok (rw, rh)
    else Ok (w, h).
Proof. reflexivity. Qed.

(** X14. The resizing step of [_prepare_photo_for_word] leaves an image that
    is not larger than [target_px] as it is. When it returns, it has not
    enlarged a side, no side is above [target_px], and if the image was
    larger, its larger side has become [target_px] or one pixel less. It
    returns whenever the larger side is less than [target_px] times the
    smaller one; when the image is larger than [target_px] and its larger
    side is more than [target_px] times the smaller one, the smaller side
    comes out as zero and [Image.resize] raises. *)
Theorem resized_for_word_bounds (w h t : Z) :
  (1 <= w <= 2 ^ 31)%Z -> (1 <= h <= 2 ^ 31)%Z -> (2 <= t <= 2 ^ 31)%Z ->
  ((Z.max w h <= t)%Z -> resized_for_word rnd w h t = Ok (w, h))
  /\ (forall w' h',
        resized_for_word rnd w h t = Ok (w', h') ->
        (1 <= w' <= Z.min w t)%Z /\ (1 <= h' <= Z.min h t)%Z
        /\ ((t < Z.max w h)%Z -> (t - 1 <= Z.max w' h' <= t)%Z))
  /\ ((Z.max w h < t * Z.min w h)%Z ->
      exists size, resized_for_word rnd w h t = Ok size)
  /\ ((t < Z.max w h)%Z -> (t * Z.min w h < Z.max w h)%Z ->
      resized_for_word rnd w h t = Raise ResizeValueError).
Proof.
  intros Hw Hh Ht. rewrite resized_for_word_sides. cbn zeta.
  destruct (Z.ltb_spec t (Z.max w h)) as [Hlt|Hge].
  2:{ split; [done|]. split; [intros w' h' [= <- <-]; lia|]. split; [by eexists | lia]. }
  destruct (resized_sides w h t Hw Hh ltac:(lia) Hlt)
    as (Hw1 & Hh1 & Hmax & _ & _ & Hwk & Hhk & Hwz & Hhz). cbn zeta in *.
  set (s := true_div rnd t (Z.max w h)) in *.
  set (rw := int_of_float (int_mul_float rnd w s)) in *.
  set (rh := int_of_float (int_mul_float rnd h s)) in *.
  split; [lia|]. split; [|split].
  - intros w' h' H.
    destruct (Z.leb_spec rw 0) as [|Hpw]; [done|].
    destruct (Z.leb_spec rh 0) as [|Hph]; [done|]. cbn [orb] in H. injection H as <- <-.
    lia.
  - intros Hratio.
    assert (Hmw : (t * Z.min w h <= t * w)%Z) by (apply Z.mul_le_mono_nonneg_l; lia).
    assert (Hmh : (t * Z.min w h <= t * h)%Z) by (apply Z.mul_le_mono_nonneg_l; lia).
    assert (Hpw : (1 <= rw)%Z) by (apply Hwk; lia).
    assert (Hph : (1 <= rh)%Z) by (apply Hhk; lia).
    destruct (Z.leb_spec rw 0) as [|_]; [lia|].
    destruct (Z.leb_spec rh 0) as [|_]; [lia|]. by eexists.
  - intros _ Hthin. destruct (Z.min_spec w h) as [[_ E]|[_ E]]; rewrite E in Hthin.
    + by rewrite (Hwz Hthin).
    + rewrite (Hhz Hthin). by destruct (rw <=? 0)%Z.
Qed.

(** X15. When the [try] block of [_prepare_photo_for_word] gets through
    ([target_px] is 1800, as [insert_photos] asks: the image is resized to at
    most 1800 pixels, then letterboxed), the image lies whole on its canvas
    with white borders of at least 200 pixels on the left and on the right
    and of at least 80 pixels at the top and at the bottom. The block gets
    through for every image whose larger side is at most 400 times the
    smaller one; else the only exception of the geometry is that of
    [Image.resize], after which the function copies the source as it is. *)
Theorem prepared_photo_borders (w h : Z) :
  (1 <= w <= 2 ^ 31)%Z -> (1 <= h <= 2 ^ 31)%Z ->
  (forall g,
     prepared_for_word rnd w h 1800 = Ok g ->
     uncropped CANVAS_SIZE g
     /\ (1 <= resized_width g <= Z.min w 1800)%Z
     /\ (1 <= resized_height g <= Z.min h 1490)%Z
     /\ (200 <= border_left g)%Z /\ (200 <= border_right CANVAS_SIZE g)%Z
     /\ (80 <= border_top g)%Z /\ (80 <= border_bottom CANVAS_SIZE g)%Z)
  /\ ((Z.max w h <= 400 * Z.min w h)%Z -> exists g, prepared_for_word rnd w h 1800 = Ok g)
  /\ (forall e, prepared_for_word rnd w h 1800 = Raise e -> e = ResizeValueError).
Proof.
  intros Hw Hh. unfold prepared_for_word.
  assert (H31 : (2 ^ 31 <= 2 ^ 53)%Z) by done.
  destruct (resized_for_word_bounds w h 1800 Hw Hh ltac:(done)) as (_ & Hsize & _ & _).
  assert (Hbox : forall w1 h1 : Z, (1 <= w1 <= Z.min w 1800)%Z -> (1 <= h1 <= Z.min h 1800)%Z ->
            (forall g, _letterbox_image rnd w1 h1 CANVAS_SIZE CANVAS_MARGIN = Ok g ->
               uncropped CANVAS_SIZE g
               /\ (1 <= resized_width g <= Z.min w 1800)%Z
               /\ (1 <= resized_height g <= Z.min h 1490)%Z
               /\ (200 <= border_left g)%Z /\ (200 <= border_right CANVAS_SIZE g)%Z
               /\ (80 <= border_top g)%Z /\ (80 <= border_bottom CANVAS_SIZE g)%Z)
            /\ (forall e, _letterbox_image rnd w1 h1 CANVAS_SIZE CANVAS_MARGIN = Raise e ->
                  e = ResizeValueError)).
  { intros w1 h1 Hw1 Hh1.
    destruct (letterbox_sides rnd Hrnd w1 h1 ltac:(lia) ltac:(lia)) as (Hrw & Hrh & _).
    rewrite (letterbox_image_sides rnd w1 h1) by lia. cbn zeta.
    set (scale := letterbox_scale rnd CANVAS_SIZE CANVAS_MARGIN w1 h1) in *.
    set (rw := int_of_float (int_mul_float rnd w1 scale)) in *.
    set (rh := int_of_float (int_mul_float rnd h1 scale)) in *.
    destruct (Z.leb_spec rw 0) as [|Hpw]; [split; [done | by intros e [= <-]]|].
    destruct (Z.leb_spec rh 0) as [|Hph]; [split; [done | by intros e [= <-]]|].
    cbn [orb]. split; [|done]. intros g [= <-].
    unfold uncropped, border_left, border_right, border_top, border_bottom.
    cbn [fst snd CANVAS_SIZE resized_width resized_height offset_x offset_y].
    repeat split; try lia; Z.div_mod_to_equations; lia. }
  split; [|split].
  - intros g. destruct (resized_for_word rnd w h 1800) as [[w1 h1]|e] eqn:E; [|done].
    cbn [bind]. destruct (Hsize w1 h1 eq_refl) as (Hw1 & Hh1 & _).
    apply (Hbox w1 h1 Hw1 Hh1).
  - intros Hratio. revert Hsize. rewrite resized_for_word_sides. cbn zeta.
    destruct (Z.ltb_spec 1800 (Z.max w h)) as [Hlt|Hge].
    + destruct (resized_sides w h 1800 Hw Hh ltac:(done) Hlt)
        as (Hw1 & Hh1 & Hmax & Hwk & Hhk & _). cbn zeta in *.
      set (s := true_div rnd 1800 (Z.max w h)) in *.
      set (rw := int_of_float (int_mul_float rnd w s)) in *.
      set (rh := int_of_float (int_mul_float rnd h s)) in *.
      assert (Hpw : (3 <= rw)%Z) by (apply Hwk; lia).
      assert (Hph : (3 <= rh)%Z) by (apply Hhk; lia).
      destruct (Z.leb_spec rw 0) as [|_]; [lia|].
      destruct (Z.leb_spec rh 0) as [|_]; [lia|]. cbn [orb bind]. intros _.
      destruct (letterbox_sides rnd Hrnd rw rh ltac:(lia) ltac:(lia))
        as (_ & _ & _ & _ & Hok & _).
      destruct Hok as [Hqw Hqh]; [lia | lia |].
      rewrite (letterbox_image_sides rnd rw rh) by lia. cbn zeta.
      destruct (Z.leb_spec (int_of_float (int_mul_float rnd rw
                  (letterbox_scale rnd CANVAS_SIZE CANVAS_MARGIN rw rh))) 0) as [|_]; [lia|].
      destruct (Z.leb_spec (int_of_float (int_mul_float rnd rh
                  (letterbox_scale rnd CANVAS_SIZE CANVAS_MARGIN rw rh))) 0) as [|_]; [lia|].
      by eexists.
    + cbn [bind]. intros _.
      destruct (letterbox_sides rnd Hrnd w h ltac:(lia) ltac:(lia))
        as (_ & _ & _ & _ & Hok & _).
      destruct Hok as [Hqw Hqh]; [lia | lia |].
      rewrite (letterbox_image_sides rnd w h) by lia. cbn zeta.
      destruct (Z.leb_spec (int_of_float (int_mul_float rnd w
                  (letterbox_scale rnd CANVAS_SIZE CANVAS_MARGIN w h))) 0) as [|_]; [lia|].
      destruct (Z.leb_spec (int_of_float (int_mul_float rnd h
                  (letterbox_scale rnd CANVAS_SIZE CANVAS_MARGIN w h))) 0) as [|_]; [lia|].
      by eexists.
  - intros e. destruct (resized_for_word rnd w h 1800) as [[w1 h1]|e'] eqn:E.
    + cbn [bind]. destruct (Hsize w1 h1 eq_refl) as (Hw1 & Hh1 & _).
      apply (Hbox w1 h1 Hw1 Hh1).
    + cbn [bind]. intros [= <-]. revert E. rewrite resized_for_word_sides. cbn zeta.
      destruct (1800 <? Z.max w h)%Z; [|done].
      by destruct ((_ <=? 0) || (_ <=? 0))%Z; intros [= <-].
Qed.

End PhotoSizeFacts.

Lemma letterbox_margins_witness :
  exists g,
    _letterbox_image (fun x => x) 3000 4000 CANVAS_SIZE CANVAS_MARGIN = Ok g
    /\ (CANVAS_MARGIN <= border_left g)%Z /\ (CANVAS_MARGIN <= border_top g)%Z.
Proof.
  destruct (letterbox_margins (fun x => x) exact_rounding 3000 4000)
    as (Hg & Hok & _); [done | done |].
  destruct Hok as [g Eg]; [done | done |]. exists g. split; [exact Eg|].
  destruct (Hg g Eg) as (_ & _ & _ & Hl & _ & Ht & _). by split.
Defined.

Lemma resized_for_word_bounds_witness :
  exists w' h',
    resized_for_word (fun x => x) 4000 3000 1800 = Ok (w', h')
    /\ (1799 <= Z.max w' h' <= 1800)%Z.
Proof.
  destruct (resized_for_word_bounds (fun x => x) exact_rounding 4000 3000 1800)
    as (_ & Hsize & Hok & _); [done | done | done |].
  destruct Hok as [[w' h'] E]; [done|]. exists w', h'. split; [exact E|].
  by apply (Hsize w' h' E).
Defined.

Lemma prepared_photo_borders_witness :
  exists g,
    prepared_for_word (fun x => x) 4000 3000 1800 = Ok g
    /\ (200 <= border_left g)%Z /\ (80 <= border_top g)%Z.
Proof.
  destruct (prepared_photo_borders (fun x => x) exact_rounding 4000 3000)
    as (Hg & Hok & _); [done | done |].
  destruct Hok as [g Eg]; [done|]. exists g. split; [exact Eg|].
  destruct (Hg g Eg) as (_ & _ & _ & Hl & _ & Ht & _). by split.
Defined.

#[local] Close Scope Q_scope.

(** ** The anchor of the photos *)

Lemma paragraph_at_app (ref : pref) (doc more : document) (p : paragraph) :
  paragraph_at ref doc = Some p -> paragraph_at ref (doc ++ more) = Some p.
Proof.
  destruct ref as [i|t r c i]; cbn; unfold document, row, cell in *.
  - destruct (doc !! i) as [b|] eqn:E; [|done].
    by rewrite (lookup_app_l_Some _ _ _ _ E).
  - destruct (doc !! t) as [b|] eqn:E; [|done].
    by rewrite (lookup_app_l_Some _ _ _ _ E).
Qed.

(** X16. The anchor that [_find_photo_anchor] returns always designates a
    paragraph of the document it returns with it. When some paragraph of the
    body or of a cell of a table of the body holds a photo token, the anchor
    is such a paragraph; else, when some paragraph holds the section
    keyword, the anchor is such a paragraph; in both cases the document is
    untouched. Only when there is neither does the document get a new last
    paragraph 上门核实图片：, which is the anchor. *)
Theorem find_photo_anchor_valid (doc : document) :
  let anchor := fst (_find_photo_anchor doc) in
  let doc' := snd (_find_photo_anchor doc) in
  exists p,
    paragraph_at anchor doc' = Some p
    /\ ((exists rp, In rp (_iter_paragraphs doc) /\ has_photo_token (snd rp) = true) ->
        doc' = doc /\ has_photo_token p = true)
    /\ ((forall rp, In rp (_iter_paragraphs doc) -> has_photo_token (snd rp) = false) ->
        (exists rp, In rp (_iter_paragraphs doc) /\ has_section_keyword (snd rp) = true) ->
        doc' = doc /\ has_section_keyword p = true)
    /\ ((forall rp, In rp (_iter_paragraphs doc) ->
           has_photo_token (snd rp) = false /\ has_section_keyword (snd rp) = false) ->
        doc' = doc ++ [BPara SECTION_TITLE] /\ p = SECTION_TITLE
        /\ anchor = InBody (length doc)).
Proof.
  intros anchor doc'. unfold anchor, doc', _find_photo_anchor.
  destruct (List.find (fun rp => has_photo_token (snd rp)) (_iter_paragraphs doc))
    as [[r p]|] eqn:E1.
  - apply find_some in E1 as [Hin Hp]. cbn [fst snd] in *.
    exists p. split; [by apply iter_paragraphs_at|]. split; [done|]. split.
    + intros Hno _. specialize (Hno _ Hin). cbn [snd] in Hno. congruence.
    + intros Hno. destruct (Hno _ Hin) as [Hno' _]. cbn [snd] in Hno'. congruence.
  - pose proof (find_none _ _ E1) as Hnone.
    destruct (List.find (fun rp => has_section_keyword (snd rp)) (_iter_paragraphs doc))
      as [[r p]|] eqn:E2.
    + apply find_some in E2 as [Hin Hp]. cbn [fst snd] in *.
      exists p. split; [by apply iter_paragraphs_at|]. split; [|split].
      * intros (rp & Hrp & Ht). rewrite (Hnone _ Hrp) in Ht. done.
      * done.
      * intros Hno. destruct (Hno _ Hin) as [_ Hno']. cbn [snd] in Hno'. congruence.
    + pose proof (find_none _ _ E2) as Hnone2. cbn [fst snd].
      exists SECTION_TITLE. split; [|split; [|split]].
      * unfold paragraph_at, document in *. by rewrite lookup_app_r, Nat.sub_diag.
      * intros (rp & Hrp & Ht). rewrite (Hnone _ Hrp) in Ht. done.
      * intros _ (rp & Hrp & Ht). rewrite (Hnone2 _ Hrp) in Ht. done.
      * done.
Qed.

Lemma find_photo_anchor_valid_witness :
  snd (_find_photo_anchor [BTable false [(false, [[BPara (Paragraph false [RText 0 (u "表")])]])]])
  = [BTable false [(false, [[BPara (Paragraph false [RText 0 (u "表")])]])];
     BPara SECTION_TITLE].
Proof.
  destruct (find_photo_anchor_valid
              [BTable false [(false, [[BPara (Paragraph false [RText 0 (u "表")])]])]])
    as (p & _ & _ & _ & H).
  apply H. intros rp [<- | []]. split; reflexivity.
Defined.

(** ** Report assembly *)

Lemma makedirs_inv (fs fs1 : filesystem) (p : str) :
  makedirs fs p = Ok fs1 ->
  fs1 = fs \/ (fs !! p = None /\ fs1 = <[p := FDir]> fs).
Proof.
  unfold makedirs. destruct (fs !! p) as [[]|]; intros [= <-]; auto.
Qed.

Section ReportFacts.

Variable prepare : filesystem -> str -> str -> str * filesystem.
Variable perr : str -> option str.

(** *** The path of the report *)

Lemma path_join_app (a b c : str) : b <> [] -> path_join a (b ++ c) = path_join a b ++ c.
Proof.
  intros Hb. destruct b as [|x b]; [done|]. unfold path_join. cbn [app strip_prefix].
  destruct (SEP =? x)%N; [done|]. destruct a as [|y a]; [done|].
  destruct (bool_decide _); by rewrite <- ?app_assoc.
Qed.

Lemma last_sep (a : str) : last a = Some SEP -> exists a', a = a' ++ [SEP].
Proof.
  destruct a as [|x a _] using rev_ind; [done|]. rewrite last_snoc. intros [= ->]. eauto.
Qed.

Lemma basename_path_join (a b : str) : ~ In SEP b -> basename (path_join a b) = b.
Proof.
  intros Hb. unfold path_join.
  assert (Hp : strip_prefix [SEP] b = None).
  { destruct b as [|x b]; [done|]. cbn [strip_prefix].
    destruct (N.eqb_spec SEP x) as [<-|]; [|done].
    destruct Hb. by left. }
  rewrite Hp. destruct a as [|y a]; [by apply basename_plain|].
  destruct (bool_decide (last (y :: a) = Some SEP)) eqn:E.
  - apply bool_decide_eq_true in E. apply last_sep in E as [a' ->].
    rewrite <- app_assoc. by apply basename_after_sep.
  - by apply basename_after_sep.
Qed.

Lemma no_sep_check (s : str) :
  forallb (fun x => negb (x =? SEP)%N) s = true -> ~ In SEP s.
Proof.
  intros H Hin. rewrite forallb_forall in H. specialize (H _ Hin).
  by rewrite N.eqb_refl in H.
Qed.

Lemma digits_no_sep (d : Decimal.uint) :
  forallb (fun x => negb (x =? SEP)%N)
          (List.map N_of_ascii (list_ascii_of_string (NilEmpty.string_of_uint d))) = true.
Proof. induction d; cbn [NilEmpty.string_of_uint list_ascii_of_string List.map forallb]; done. Qed.

Lemma str_of_nat_no_sep (k : nat) : ~ In SEP (str_of_nat k).
Proof. apply no_sep_check, digits_no_sep. Qed.

Lemma sanitize_no_sep (name : str) : ~ In SEP (sanitize_filename name).
Proof.
  unfold sanitize_filename. intros [c [Hc _]]%in_map_iff.
  destruct (is_forbidden c) eqn:E; [discriminate Hc|]. subst c. discriminate E.
Qed.

(** X18. When [generate_report] returns a path (the output directory is
    named by a path that is not empty), the template held each of the three
    tokens at least once, and the report has been saved at that path, where
    nothing existed when the photos had been prepared. The path is directly
    in the output directory: its base name is the sanitized customer name,
    the suffix 新开户尽职调查表 and [.docx], with the counter [ (k)] before
    [.docx] exactly when the plain name was taken, [k] being the first
    counter from 1 on that was free; no part of the customer name ends up
    as a directory. *)
Theorem generate_report_saved (cfg : config) (fields : gmap str str) (photos : list str)
      (fs fs' : filesystem) (out : str) :
  cfg_out cfg <> [] ->
  generate_report prepare perr cfg fields photos fs = (fs', Ok out) ->
  let name :=
    sanitize_filename (default DEFAULT_NAME (fields !! (u "客户名称"))) ++ REPORT_SUFFIX in
  let placeholders :=
    List.map (fun key => (key, default [] (fields !! key))) PLACEHOLDER_KEYS in
  let numbered k :=
    path_join (cfg_out cfg) (name ++ (u " (" ++ str_of_nat k ++ u ")") ++ u ".docx") in
  exists template fs1 doc1 doc2 fs2 tag,
    fs !! cfg_template cfg = Some (FDocx template)
    /\ (forall key, In key PLACEHOLDER_KEYS -> (1 <= count_in template key)%nat)
    /\ makedirs fs (cfg_out cfg) = Ok fs1
    /\ replace_placeholders template placeholders = Ok doc1
    /\ insert_photos prepare perr doc1 photos (cfg_out cfg) fs1 = (doc2, fs2)
    /\ path_exists fs2 out = false
    /\ fs' = save doc2 out fs2
    /\ out = path_join (cfg_out cfg) (name ++ tag ++ u ".docx")
    /\ basename out = name ++ tag ++ u ".docx"
    /\ ((tag = [] /\ path_exists fs2 (path_join (cfg_out cfg) (name ++ u ".docx")) = false)
        \/ (exists k, (1 <= k)%nat /\ tag = u " (" ++ str_of_nat k ++ u ")"
                      /\ path_exists fs2 (path_join (cfg_out cfg) (name ++ u ".docx")) = true
                      /\ forall j, (1 <= j < k)%nat -> path_exists fs2 (numbered j) = true)).
Proof.
  intros _ H name placeholders numbered. revert H. unfold generate_report.
  destruct (makedirs fs (cfg_out cfg)) as [fs1|e0] eqn:Emk; [|by intros [= _ ?]].
  destruct (path_exists fs1 (cfg_template cfg)); cbn [negb]; [|by intros [= _ ?]].
  destruct (inspect_template_placeholders fs1 _ _) as [stats|e0] eqn:Eins;
    [|by intros [= _ ?]].
  destruct (List.map fst (List.filter _ stats)) as [|k ks] eqn:Emiss; [|by intros [= _ ?]].
  destruct (Document fs1 (cfg_template cfg)) as [doc|e0] eqn:Edoc; [|by intros [= _ ?]].
  fold placeholders.
  destruct (replace_placeholders doc placeholders) as [doc1|e0] eqn:Erep;
    [|by intros [= _ ?]].
  destruct (insert_photos _ _ _ _ _ _) as [doc2 fs2] eqn:Eph.
  replace (sanitize_filename (default DEFAULT_NAME (fields !! u "客户名称"))
           ++ REPORT_SUFFIX ++ u ".docx")
    with (name ++ u ".docx") by (unfold name; by rewrite <- app_assoc).
  destruct (doc_save doc2 _ fs2) as [fs3|e0] eqn:Esave; [|by intros [= _ ?]].
  intros [= <- <-].
  assert (Hfs3 : fs3 = save doc2 (next_nonconflicting_path fs2
                                    (path_join (cfg_out cfg) (name ++ u ".docx"))) fs2).
  { unfold doc_save in Esave. destruct (_ || _ || _); [done|]. by injection Esave as <-. }
  clear Esave.
  assert (Hname : name <> []).
  { unfold name. intros [_ H]%app_eq_nil. discriminate H. }
  assert (Hnosep : ~ In SEP name).
  { unfold name. intros [H|H]%in_app_or; [by apply sanitize_no_sep in H|].
    by apply (no_sep_check REPORT_SUFFIX). }
  set (X := path_join (cfg_out cfg) name).
  assert (Hjoin : forall t, path_join (cfg_out cfg) (name ++ t) = X ++ t)
    by (intros t; by apply path_join_app).
  assert (Hsplit : splitext (X ++ u ".docx") = (X, u ".docx")).
  { apply splitext_docx. unfold X. rewrite basename_path_join by done.
    unfold name. rewrite existsb_app. apply orb_true_iff. right. reflexivity. }
  rewrite Hjoin in *.
  assert (Htag : exists tag,
             next_nonconflicting_path fs2 (X ++ u ".docx") = X ++ tag ++ u ".docx"
             /\ ((tag = [] /\ path_exists fs2 (X ++ u ".docx") = false)
                 \/ exists k, (1 <= k)%nat /\ tag = u " (" ++ str_of_nat k ++ u ")"
                    /\ path_exists fs2 (X ++ u ".docx") = true
                    /\ forall j, (1 <= j < k)%nat ->
                         path_exists fs2 (candidate X (u ".docx") j) = true)).
  { pose proof (next_nonconflicting_path_terminates fs2 (X ++ u ".docx")) as E.
    unfold next_nonconflicting_path_fuel in E. rewrite Hsplit in E.
    destruct (path_exists fs2 (X ++ u ".docx")); cbn [negb] in E.
    - apply next_candidate_some in E as (k & Hk & -> & _ & Hall).
      exists (u " (" ++ str_of_nat k ++ u ")").
      split; [unfold candidate; by rewrite <- !app_assoc|].
      right. exists k. split; [lia|]. by split.
    - injection E as <-. exists []. split; [done|]. by left. }
  destruct Htag as (tag & Hout & Htag).
  assert (Htpl : fs !! cfg_template cfg = Some (FDocx doc)).
  { unfold Document in Edoc. destruct (fs1 !! cfg_template cfg) as [[|d|]|] eqn:E1;
      try done. injection Edoc as ->.
    apply makedirs_inv in Emk as [-> | [_ ->]]; [done|].
    rewrite lookup_insert in E1. by destruct (decide (cfg_out cfg = cfg_template cfg)). }
  exists doc, fs1, doc1, doc2, fs2, tag. rewrite Hout in *.
  split; [done|]. split.
  { intros key Hkey.
    destruct (count_in doc key) as [|n] eqn:Ec; [exfalso | lia].
    assert (Hins : inspect_template_placeholders fs1 (cfg_template cfg) PLACEHOLDER_KEYS
                   = Ok (List.map (fun key => (key, count_in doc key)) PLACEHOLDER_KEYS)).
    { apply inspect_loaded. unfold Document in Edoc.
      destruct (fs1 !! cfg_template cfg) as [[|d|]|]; try done. by injection Edoc as ->. }
    assert (Hstats : stats = List.map (fun key => (key, count_in doc key))
                                     PLACEHOLDER_KEYS) by congruence.
    rewrite Hstats, zero_count_keys in Emiss.
    assert (Hin : In key (List.filter (fun key => (count_in doc key =? 0)%nat)
                                      PLACEHOLDER_KEYS)).
    { apply filter_In. split; [done|]. by rewrite Ec. }
    rewrite Emiss in Hin. done. }
  split; [done|]. split; [done|]. split; [done|].
  split; [rewrite <- Hout; apply next_nonconflicting_path_fresh|].
  split; [done|]. split; [by rewrite Hjoin|]. split.
  - rewrite <- Hjoin. apply basename_path_join.
    intros [H|[H|H]%in_app_or]%in_app_or; [done| |by apply (no_sep_check (u ".docx"))].
    destruct Htag as [[-> _] | (k & _ & -> & _)]; [done|].
    apply in_app_or in H as [H|[H|H]%in_app_or];
      [by apply (no_sep_check (u " (")) | |by apply (no_sep_check (u ")"))].
    by apply str_of_nat_no_sep in H.
  - destruct Htag as [[-> Hfree] | (k & Hk & -> & Htaken & Hall)]; [by left|].
    right. exists k. split; [done|]. split; [done|]. split; [done|].
    intros j Hj. unfold numbered. rewrite Hjoin.
    specialize (Hall j Hj). unfold candidate in Hall. by rewrite <- !app_assoc in *.
Qed.

End ReportFacts.

Lemma generate_report_saved_witness :
  let cfg := Config (u "tpl.docx") (u "out") in
  let fs : filesystem :=
    {[ u "tpl.docx" := FDocx flat_template;
       u "out" := FDir;
       u "out/a_b新开户尽职调查表.docx" := FData ]} in
  let fields : gmap str str :=
    {[ u "客户名称" := u "a/b"; u "行业分类" := u "x"; u "经营地址" := u "y" ]} in
  let run := generate_report (fun fs _ _ => ([], fs)) (fun _ => None) cfg fields [] fs in
  snd run = Ok (u "out/a_b新开户尽职调查表 (1).docx")
  /\ exists tag,
       basename (u "out/a_b新开户尽职调查表 (1).docx")
       = (sanitize_filename (default DEFAULT_NAME (fields !! (u "客户名称")))
          ++ REPORT_SUFFIX) ++ tag ++ u ".docx".
Proof.
  intros cfg fs fields run. split; [vm_compute; reflexivity|].
  destruct (generate_report_saved (fun fs _ _ => ([], fs)) (fun _ => None) cfg fields
              [] fs (fst run) (u "out/a_b新开户尽职调查表 (1).docx"))
    as (template & fs1 & doc1 & doc2 & fs2 & tag & _ & _ & _ & _ & _ & _ & _ & _ & Hb & _).
  - discriminate.
  - vm_compute. reflexivity.
  - exists tag. exact Hb.
Defined.

(** ** The wizard *)

Lemma upper_is_inv (s : str) (capital : ascii) :
  upper_is s capital = true -> s = [ch capital] \/ s = [(ch capital + 32)%N].
Proof.
  unfold upper_is. destruct s as [|c [|d s]]; try done.
  intros [H|H]%orb_prop; apply N.eqb_eq in H; subst; auto.
Qed.

Lemma prompt_value (line v : str) :
  prompt line = Ok v -> str_eqb v BACK = false -> v = strip line.
Proof.
  unfold prompt. destruct (upper_is (strip line) "Q"); [done|].
  destruct (upper_is (strip line) "B").
  - intros [= <-] Hb. unfold str_eqb in Hb. by rewrite bool_decide_eq_true_2 in Hb.
  - by intros [= <-].
Qed.

(** X20. [prompt] returns the line stripped, except that the single letter
    q or Q raises [KeyboardInterrupt] and the single letter b or B gives the
    marker [__BACK__]; a line that spells the marker itself is thus read as
    B. What it returns never has white space at its ends. *)
Theorem prompt_reads (line : str) :
  (prompt line = Raise KeyboardInterrupt <-> strip line = u "q" \/ strip line = u "Q")
  /\ (prompt line = Ok BACK <->
      strip line = u "b" \/ strip line = u "B" \/ strip line = BACK)
  /\ (forall v, prompt line = Ok v -> v <> BACK -> v = strip line)
  /\ (forall v, prompt line = Ok v -> strip v = v)
  /\ (forall e, prompt line = Raise e -> e = KeyboardInterrupt).
Proof.
  unfold prompt. set (val := strip line).
  assert (Hq : upper_is val "Q" = true <-> val = u "q" \/ val = u "Q").
  { split; [intros [->| ->]%upper_is_inv; auto | intros [-> | ->]; reflexivity]. }
  assert (Hb : upper_is val "B" = true <-> val = u "b" \/ val = u "B").
  { split; [intros [->| ->]%upper_is_inv; auto | intros [-> | ->]; reflexivity]. }
  destruct (upper_is val "Q") eqn:EQ.
  - destruct (proj1 Hq eq_refl) as [E|E].
    all: split; [split; [intros _; rewrite E; auto | done]|].
    all: split; [split; [done|]; rewrite E; intros [H|[H|H]]; discriminate H|].
    all: split; [by intros v|].
    all: split; [by intros v|].
    all: by intros e [= <-].
  - destruct (upper_is val "B") eqn:EB.
    + destruct (proj1 Hb eq_refl) as [E|E].
      all: split; [split; [done|]; by intros H%Hq|].
      all: split; [split; [intros _; rewrite E; auto | done]|].
      all: split; [by intros v [= <-] H|].
      all: split; [by intros v [= <-]|].
      all: by intros e.
    + split; [split; [done|]; by intros H%Hq|].
      split.
      { split; [intros [= ->]; auto|].
        intros [H|[H|H]];
          [by pose proof (proj2 Hb (or_introl H)) | by pose proof (proj2 Hb (or_intror H))
          | by rewrite H]. }
      split; [by intros v [= <-] _|].
      split; [intros v [= <-]; apply strip_idem|].
      by intros e.
Qed.

Lemma prompt_reads_witness :
  strip (u " 甲公司 ") = u "甲公司".
Proof.
  symmetry.
  apply (proj1 (proj2 (proj2 (prompt_reads (u " 甲公司 "))))); [reflexivity | discriminate].
Defined.

Section WizardFacts.

Variable expand : str -> list str.
Variable default_photos_dir : str.
Variable TEMPLATE_PATH_FIXED OUT_DIR_FIXED : str.
Variable report : gmap str str -> list str -> result str.

#[local] Abbreviation photos_chosen := (photos_chosen expand default_photos_dir).
#[local] Abbreviation wizard_inv := (wizard_inv expand default_photos_dir).

Lemma filled_next (i : nat) (key v : str) (fields : gmap str str) :
  (i < 3)%nat -> key = nth i PLACEHOLDER_KEYS [] -> entered v -> filled i fields ->
  filled (S i) (<[key := v]> fields).
Proof.
  intros Hi -> Hv Hf. unfold filled in *.
  destruct i as [|[|[|i]]]; [| | |lia]; cbn [take nth PLACEHOLDER_KEYS] in *;
    repeat match goal with
           | H : Forall _ (_ :: _) |- _ => apply Forall_cons in H as [? H]
           end;
    repeat (constructor;
            [first [ by (eexists; split; [apply lookup_insert_eq | done])
                   | match goal with
                     | H : exists v, fields !! ?k = Some v /\ _ |- _ =>
                         destruct H as (w & Hw & ?); exists w;
                         split; [rewrite lookup_insert_ne by discriminate; exact Hw | done]
                     end ]|]); constructor.
Qed.

Lemma step_inv (st : wstate) (line : str) :
  wizard_inv st ->
  wizard_inv (snd (step expand default_photos_dir report st line))
  /\ forall fields photos,
       In (Generate fields photos) (fst (step expand default_photos_dir report st line)) ->
       filled 3 fields /\ photos_chosen photos.
Proof.
  destruct st as [i fields|fields|fields photos| |o]; cbn [wizard_inv step].
  - intros [Hi Hf]. destruct (prompt line) as [val|e] eqn:Ep;
      [|split; [done | by intros f p [H|[]]]].
    destruct (str_eqb val BACK) eqn:Eb.
    { split; [split; [lia | constructor]|]. by intros f p [H|[]]. }
    destruct (bool_decide (val = [])) eqn:Ee.
    { split; [done|]. by intros f p [H|[]]. }
    apply bool_decide_eq_false in Ee.
    assert (Hv : entered val).
    { split; [done|]. rewrite (prompt_value line val Ep Eb). apply strip_idem. }
    pose proof (filled_next i _ val fields Hi eq_refl Hv Hf) as Hnext.
    destruct (Nat.ltb_spec (S i) (length PLACEHOLDER_KEYS)) as [Hlt|Hge].
    { split; [split; [exact Hlt | exact Hnext]|]. by intros f p []. }
    change (length PLACEHOLDER_KEYS) with 3%nat in Hge.
    assert (i = 2%nat) as -> by lia.
    destruct (_ <? _)%nat; (split; [|by intros f p []]); [split; [lia | constructor]|done].
  - intros Hf. destruct (prompt line) as [val|e] eqn:Ep;
      [|split; [done | by intros f p [H|[]]]].
    destruct (str_eqb val BACK) eqn:Eb.
    { split; [split; [lia | constructor]|]. by intros f p [H|[]]. }
    cbn [snd fst]. split.
    + split; [done|]. destruct (bool_decide (strip val = [])) eqn:Ee; [by left|].
      right. exists val. apply bool_decide_eq_false in Ee.
      pose proof (prompt_value line val Ep Eb) as Hval.
      assert (Hs : strip val = val) by (rewrite Hval; apply strip_idem).
      split; [|done]. split; [congruence | done].
    + intros f p H. cbn [In app List.map PLACEHOLDER_KEYS] in H.
      repeat (destruct H as [H|H]; [discriminate H|]). destruct H.
  - intros [Hf Hp].
    destruct (negb (bool_decide (strip line = [])) && negb (upper_is (strip line) "Y")).
    { split; [done|]. by intros f p [H|[]]. }
    destruct (report fields photos) as [out|e]; cbn [fst snd].
    + split; [done|]. intros f p [[= <- <-]|[H|[]]]; done.
    + destruct e; cbn [fst snd interrupted]; (split; [done|]);
        intros f p H; cbn [In] in H;
        repeat (destruct H as [H|H]; [first [by injection H as <- <- | discriminate H]|]);
        destruct H.
  - intros _. destruct (upper_is (strip line) "Y"); cbn [fst snd wizard_inv].
    + split; [split; [lia | constructor]|]. by intros f p [].
    + split; [done|]. by intros f p [H|[]].
  - intros _. split; [done|]. by intros f p [].
Qed.

Lemma session_finished (e : ending) (o : result unit) (lines : list str) :
  session_until expand default_photos_dir report e (Finished o) lines = ([], Finished o).
Proof. by destruct lines. Qed.

Lemma session_nil (e : ending) (st : wstate) :
  (forall o, st <> Finished o) ->
  session_until expand default_photos_dir report e st []
  = (Input (message st) :: fst (ended e st), snd (ended e st)).
Proof.
  intros H. destruct st as [i f|f|f p| |o]; [| | | |by destruct (H o)];
    cbn [session_until]; by destruct (ended e _).
Qed.

Lemma session_cons (e : ending) (st : wstate) (line : str) (lines : list str) :
  (forall o, st <> Finished o) ->
  session_until expand default_photos_dir report e st (line :: lines)
  = (Input (message st)
       :: fst (step expand default_photos_dir report st line)
       ++ fst (session_until expand default_photos_dir report e
                 (snd (step expand default_photos_dir report st line)) lines),
     snd (session_until expand default_photos_dir report e
            (snd (step expand default_photos_dir report st line)) lines)).
Proof.
  intros H. destruct st as [i f|f|f p| |o]; [| | | |by destruct (H o)];
    cbn [session_until]; destruct (step _ _ _ _ line) as [out st']; cbn [fst snd];
    destruct (session_until _ _ _ e st' lines) as [rest final]; reflexivity.
Qed.

Lemma finished_dec (st : wstate) : (exists o, st = Finished o) \/ forall o, st <> Finished o.
Proof. destruct st as [i f|f|f p| |o]; try (right; discriminate). left. by exists o. Qed.

Lemma ended_quiet (e : ending) (st : wstate) (fields : gmap str str) (photos : list str) :
  ~ In (Generate fields photos) (fst (ended e st)).
Proof.
  destruct e; [by intros []|].
  destruct st as [i f|f|f p| |o]; cbn; intros H;
    repeat (destruct H as [H|H]; [discriminate H|]); destruct H.
Qed.

Lemma session_generates (e : ending) (lines : list str) (st : wstate)
      (fields : gmap str str) (photos : list str) :
  wizard_inv st ->
  In (Generate fields photos)
     (fst (session_until expand default_photos_dir report e st lines)) ->
  filled 3 fields /\ photos_chosen photos.
Proof.
  revert st. induction lines as [|line lines IH]; intros st Hinv;
    destruct (finished_dec st) as [[o ->]|Hst].
  - rewrite session_finished. by intros [].
  - rewrite session_nil by done. cbn [fst]. intros [H|H]; [done|].
    by apply ended_quiet in H.
  - rewrite session_finished. by intros [].
  - rewrite session_cons by done. cbn [fst].
    destruct (step_inv st line Hinv) as [Hinv' Hgen].
    intros [H|[H|H]%in_app_or]; [done | by apply Hgen | by apply (IH _ Hinv')].
Qed.

(** X21. Every call of [generate_report] that the wizard makes passes a
    value for each of the three fields, none empty and none with white
    space at its ends; the photos passed are those of the default directory
    or those that [expand_photos_arg] gives for the stripped, non-empty
    answer to the photo question. *)
Theorem interactive_generates_complete (lines : list str) (fields : gmap str str)
      (photos : list str) :
  In (Generate fields photos)
     (fst (interactive expand default_photos_dir TEMPLATE_PATH_FIXED OUT_DIR_FIXED
             report lines)) ->
  (forall key, In key PLACEHOLDER_KEYS ->
     exists v, fields !! key = Some v /\ v <> [] /\ strip v = v)
  /\ (photos = expand default_photos_dir
      \/ exists arg, arg <> [] /\ strip arg = arg /\ photos = expand arg).
Proof.
  unfold interactive, interactive_until.
  destruct (session_until _ _ _ EndOfInput restart lines) as [evs final] eqn:Es. cbn [fst].
  intros [H|H]%in_app_or.
  { unfold print_menu in H. repeat (destruct H as [H|H]; [done|]). done. }
  destruct (session_generates EndOfInput lines restart fields photos) as [Hf Hp].
  { split; [lia | constructor]. }
  { by rewrite Es. }
  split.
  - intros key Hkey. unfold filled in Hf. rewrite Forall_forall in Hf.
    destruct (Hf key) as (v & Hv & Hne & Hs); [by apply list_elem_of_In|]. by exists v.
  - destruct Hp as [->|(arg & [Hne Hs] & ->)]; [by left|]. right. by exists arg.
Qed.




End WizardFacts.

Lemma interactive_generates_complete_witness :
  let fields : gmap str str :=
    <[u "经营地址" := u "某路1号"]> (<[u "行业分类" := u "零售"]> (<[u "客户名称" := u "甲公司"]> ∅)) in
  exists v, fields !! (u "客户名称") = Some v /\ v <> [] /\ strip v = v.
Proof.
  intros fields.
  apply (proj1 (interactive_generates_complete (fun _ => []) (u "photos") (u "t") (u "o")
                  (fun _ _ => Ok (u "out.docx"))
                  [u " 甲公司"; u "零售 "; u "某路1号"; []; u "y"] fields [] ltac:(
                    vm_compute; repeat (first [left; reflexivity | right])))).
  by left.
Defined.


(** ** File names *)

Lemma is_forbidden_not_space (c : char) : is_forbidden c = true -> is_space c = false.
Proof.
  unfold is_forbidden, FORBIDDEN. cbn [existsb]. intros H.
  repeat (apply orb_prop in H as [H|H]; [apply N.eqb_eq in H; subst c; reflexivity|]).
  done.
Qed.

Lemma blot_space (c : char) : is_space (blot c) = is_space c.
Proof.
  unfold blot. destruct (is_forbidden c) eqn:E; [|done].
  by rewrite (is_forbidden_not_space c E).
Qed.

Lemma blot_idem (c : char) : blot (blot c) = blot c.
Proof. unfold blot. destruct (is_forbidden c) eqn:E; [done | by rewrite E]. Qed.

Lemma starts_outside_map (s : str) :
  starts_outside is_space s -> starts_outside is_space (List.map blot s).
Proof. destruct s as [|c s]; [done|]. cbn. by rewrite blot_space. Qed.

Lemma trimmed_map (s : str) : trimmed s -> trimmed (List.map blot s).
Proof.
  intros [H1 H2]. split; [by apply starts_outside_map|].
  rewrite <- map_rev. by apply starts_outside_map.
Qed.

Lemma safe_trimmed (name : str) :
  let safe := str_or (strip (str_or name DEFAULT_NAME)) DEFAULT_NAME in
  safe <> [] /\ trimmed safe.
Proof.
  intros safe. unfold safe.
  destruct (strip_spec (str_or name DEFAULT_NAME)) as (_ & _ & _ & _ & _ & Ht).
  destruct (strip (str_or name DEFAULT_NAME)) as [|c s]; cbn [str_or].
  - split; [discriminate|]. split; reflexivity.
  - by split.
Qed.

(** X23. [sanitize_filename] is idempotent, and it returns as it is a name
    that is not empty, has no white space at its ends and holds none of the
    nine forbidden characters; the result has as many characters as the
    stripped name. *)
Theorem sanitize_filename_idempotent (name : str) :
  sanitize_filename (sanitize_filename name) = sanitize_filename name
  /\ (name <> [] -> trimmed name -> forallb (fun c => negb (is_forbidden c)) name = true ->
      sanitize_filename name = name)
  /\ (strip name <> [] -> length (sanitize_filename name) = length (strip name)).
Proof.
  assert (Hclean : forall n, n <> [] -> trimmed n ->
                     sanitize_filename n = List.map blot n).
  { intros n Hn Ht. unfold sanitize_filename. destruct n as [|c n]; [done|].
    cbn [str_or]. rewrite (strip_trimmed _ Ht). reflexivity. }
  split; [|split].
  - destruct (safe_trimmed name) as [Hne Ht].
    change (sanitize_filename name)
      with (List.map blot (str_or (strip (str_or name DEFAULT_NAME)) DEFAULT_NAME)).
    set (safe := str_or _ _) in *.
    rewrite Hclean.
    + rewrite List.map_map. apply map_ext. intros c. apply blot_idem.
    + destruct safe; [done | discriminate].
    + by apply trimmed_map.
  - intros Hn Ht Hc. rewrite (Hclean name Hn Ht).
    rewrite <- (map_id name) at 2. apply map_ext_in. intros c Hin.
    rewrite forallb_forall in Hc. specialize (Hc c Hin). unfold blot.
    by destruct (is_forbidden c).
  - intros Hs. unfold sanitize_filename. rewrite length_map.
    destruct name as [|c n]; [done|]. cbn [str_or] in *.
    by destruct (strip (c :: n)).
Qed.

Lemma sanitize_filename_idempotent_witness :
  sanitize_filename (u "甲 公司") = u "甲 公司".
Proof.
  apply (proj1 (proj2 (sanitize_filename_idempotent (u "甲 公司"))));
    [discriminate | split; reflexivity | reflexivity].
Defined.

(** ** Templates without tokens *)

(** A match stays a match when the subject is extended. *)
Lemma re_lit_extends (l : str) (k : str -> option str) :
  extends k -> extends (re_lit l k).
Proof.
  intros Hk s r t. unfold re_lit.
  destruct (strip_prefix l s) as [r'|] eqn:E; [|done].
  apply strip_prefix_some in E as ->. rewrite <- app_assoc, strip_prefix_app.
  apply Hk.
Qed.

Lemma re_ws_star_start (k : str -> option str) (t : str) :
  is_Some (k t) -> is_Some (re_ws_star k t).
Proof.
  intros H. destruct t as [|c t]; [done|]. cbn [re_ws_star].
  destruct (is_space c); [|done]. by destruct (re_ws_star k t).
Qed.

Lemma re_ws_star_extends (k : str -> option str) : extends k -> extends (re_ws_star k).
Proof.
  intros Hk s. induction s as [|c s IH]; intros r t.
  - cbn [re_ws_star app]. intros H. apply re_ws_star_start. apply (Hk [] r t H).
  - cbn [re_ws_star app]. destruct (is_space c).
    + destruct (re_ws_star k s) as [r0|] eqn:E.
      * intros _. destruct (IH r0 t eq_refl) as [x ->]. by eexists.
      * intros H. destruct (re_ws_star k (s ++ t)); [by eexists|].
        apply (Hk (c :: s) r t H).
    + apply (Hk (c :: s) r t).
Qed.

Lemma match_token_extends (key : str) : extends (match_token key).
Proof.
  unfold match_token.
  apply re_lit_extends, re_ws_star_extends, re_lit_extends, re_ws_star_extends,
    re_lit_extends.
  intros s r t _. by eexists.
Qed.

Lemma findall_cons_nil (key : str) (c : char) (s : str) :
  findall key (c :: s) = [] -> match_token key (c :: s) = None /\ findall key s = [].
Proof.
  unfold findall. cbn [re_pieces].
  destruct (match_token key (c :: s)) as [rest|]; [done|]. by cbn.
Qed.

Lemma findall_nil_suffix (key a b : str) : findall key (a ++ b) = [] -> findall key b = [].
Proof.
  induction a as [|c a IH]; [done|]. cbn [app]. intros [_ H]%findall_cons_nil. by apply IH.
Qed.

Lemma findall_nil_prefix (key a b : str) : findall key (a ++ b) = [] -> findall key a = [].
Proof.
  induction a as [|c a IH]; [done|]. cbn [app]. intros [Hm H]%findall_cons_nil.
  assert (Hm' : match_token key (c :: a) = None).
  { destruct (match_token key (c :: a)) as [r|] eqn:E; [|done].
    destruct (match_token_extends key (c :: a) r b E) as [x Hx].
    cbn [app] in Hx. congruence. }
  unfold findall in *. cbn [re_pieces]. rewrite Hm'. cbn. by apply IH.
Qed.

Lemma concat_around {A} (f : A -> str) (x : A) (l : list A) :
  In x l -> exists a b, concat (List.map f l) = a ++ f x ++ b.
Proof.
  intros (l1 & l2 & ->)%in_split. rewrite List.map_app, concat_app. cbn.
  by eexists _, _.
Qed.

Lemma apply_pure_no_match (vs : list (str * str)) (t : str) (changed : bool) :
  (forall key value, In (key, value) vs -> findall key t = []) ->
  apply_pure vs t changed = (t, changed).
Proof.
  revert changed. induction vs as [|[key value] vs IH]; intros changed H; [done|].
  cbn [apply_pure]. assert (E : findall key t = []) by (apply (H key value); by left).
  rewrite sub_no_match by (by rewrite E). rewrite E. cbn.
  apply IH. intros k v Hin. apply (H k v). by right.
Qed.

Lemma processed_no_match (values : list (str * str)) (para : paragraph) :
  (forall key value, In (key, value) values -> findall key (paragraph_text para) = []) ->
  processed values para = para.
Proof.
  intros H. unfold processed.
  assert (Hruns : List.map (processed_run values) (p_runs para) = p_runs para).
  { rewrite <- (map_id (p_runs para)) at 2. apply map_ext_in. intros r Hr.
    unfold processed_run. rewrite apply_pure_no_match; [done|].
    intros key value Hin. specialize (H key value Hin).
    destruct (concat_around run_text r (p_runs para) Hr) as (a & b & E).
    unfold paragraph_text in H. rewrite E in H.
    by apply findall_nil_suffix, findall_nil_prefix in H. }
  rewrite Hruns. destruct para as [cen runs]. cbn [p_centered p_runs] in *.
  rewrite apply_pure_no_match by done. reflexivity.
Qed.

Lemma processable_no_match (values : list (str * str)) (para : paragraph) :
  (forall key value, In (key, value) values -> findall key (paragraph_text para) = []) ->
  processable values para.
Proof.
  intros H.
  assert (Hrun : forall r, In r (p_runs para) ->
            apply_pure values (run_text r) false = (run_text r, false)).
  { intros r Hr. apply apply_pure_no_match.
    intros key value Hin. specialize (H key value Hin).
    destruct (concat_around run_text r (p_runs para) Hr) as (a & b & E).
    unfold paragraph_text in H. rewrite E in H.
    by apply findall_nil_suffix, findall_nil_prefix in H. }
  assert (Hruns : List.map (processed_run values) (p_runs para) = p_runs para).
  { rewrite <- (map_id (p_runs para)) at 2. apply map_ext_in. intros r Hr.
    unfold processed_run. by rewrite Hrun. }
  split.
  - intros r Hr. unfold assignable. by rewrite Hrun.
  - rewrite Hruns. unfold assignable.
    change (concat (List.map run_text (p_runs para))) with (paragraph_text para).
    by rewrite apply_pure_no_match.
Qed.

Lemma map_fixed {A} (f : A -> A) (l : list A) :
  (forall i x, l !! i = Some x -> f x = x) -> List.map f l = l.
Proof.
  intros H. induction l as [|x l IH]; [done|]. cbn. f_equal.
  - apply (H 0%nat). done.
  - apply IH. intros i y Hy. apply (H (S i)). done.
Qed.

Lemma list_sum_zero {A} (f : A -> nat) (l : list A) (x : A) :
  list_sum (List.map f l) = 0%nat -> In x l -> f x = 0%nat.
Proof.
  induction l as [|y l IH]; [done|].
  change (list_sum (List.map f (y :: l))) with (f y + list_sum (List.map f l))%nat.
  intros H [->|Hin]; [lia|]. apply IH; [lia | done].
Qed.

(** X24. A template in which [inspect_template_placeholders] counts no
    token of any key of the mapping comes back from [replace_placeholders]
    as it was, with every run and its formatting, when no value holds a
    backslash. *)
Theorem replace_placeholders_without_tokens (doc : document) (values : list (str * str)) :
  (forall key value, In (key, value) values ->
     is_literal_template value = true /\ count_in doc key = 0%nat) ->
  replace_placeholders doc values = Ok doc.
Proof.
  intros H.
  assert (Hnone : forall ref p, In (ref, p) (_iter_paragraphs doc) ->
            forall key value, In (key, value) values -> findall key (paragraph_text p) = []).
  { intros ref p Hin key value Hv. destruct (H key value Hv) as [_ Hc].
    rewrite count_in_sum in Hc.
    pose proof (list_sum_zero _ _ (ref, p) Hc Hin) as Hz. cbn [snd] in Hz.
    by destruct (findall key (paragraph_text p)). }
  rewrite replace_placeholders_pure;
    [|intros key value Hin; by apply (H key value)
     |intros [ref p] Hin; by apply processable_no_match, (Hnone ref)].
  f_equal.
  assert (Hp : forall ref p, paragraph_at ref doc = Some p -> processed values p = p).
  { intros ref p Hin%iter_paragraphs_at. by apply processed_no_match, (Hnone ref). }
  unfold replaced.
  assert (Hbody : List.map (map_para (processed values)) doc = doc).
  { apply map_fixed. intros i [p|cen rows] Hi; [|done]. cbn. f_equal.
    apply (Hp (InBody i)). cbn. unfold document in *. by rewrite Hi. }
  rewrite Hbody. apply map_fixed. intros t [p|cen rows] Ht; [done|].
  cbn [map_cells]. f_equal. apply map_fixed. intros r [h cells] Hr. cbn [fst snd].
  f_equal. apply map_fixed. intros c content Hc.
  apply map_fixed. intros i [p|cen' rows'] Hi; [|done]. cbn [map_para]. f_equal.
  apply (Hp (InCell t r c i)). cbn. unfold document, row, cell in *.
  by rewrite Ht, Hr, Hc, Hi.
Qed.

Lemma replace_placeholders_without_tokens_witness :
  replace_placeholders nested_template sample_values = Ok nested_template.
Proof.
  apply replace_placeholders_without_tokens.
  intros key value [[= <- <-] | [[= <- <-] | [[= <- <-] | []]]]; split; reflexivity.
Defined.

(** ** The photo tokens *)














